(** * A shallow embedding of the memory / relationship engine of vec-memory-mcp

    The service module (addMemory, getMemory, updateMemory, deleteMemory,
    searchMemories, addRelationship, getRelationships, updateRelationship,
    deleteRelationship, getConnectedMemories) and the schema created by
    [initializeDatabase] are modelled over an explicit database state.

    Conventions of the model:
    - SQL TEXT columns and JavaScript strings are [string], read as UTF-8:
      an [ascii] is one byte.
    - A number inside a metadata document is a double, [Number.t], which
      [JSON.stringify] writes as Number::toString does and [JSON.parse]
      reads to the nearest double.  JavaScript numbers that are used as
      reals (strength, threshold, cosine distance, vector components) are
      rationals [Q]; numbers used as counts (limit, maxDepth) are integers
      [Z].
    - A timestamp column is an integer that orders as the stored text does,
      and the Date a read builds from a column ([new Date(text)]) is
      identified with the stored timestamp.  Two clocks write timestamps:
      [now], the text of [new Date().toISOString()] that [addMemory]
      stores, and [CURRENT_TIMESTAMP], what SQLite gives for it (whole
      seconds, UTC), stored by every UPDATE of memories and every INSERT
      into relationships.
    - A thrown exception / rejected promise is the [Err] outcome.  A function
      that only reads takes the database and returns its outcome; a function
      that writes returns its outcome together with the database it leaves.
    - What comes from outside the process (randomUUID, the clock, the
      embedding provider, sqlite-vec's distance function) is an argument,
      [Env].
    - The SQL engine is described by what the statements of the service need:
      primary keys, the two foreign keys with ON DELETE CASCADE, LIKE,
      ORDER BY and LIMIT. *)

From Stdlib Require Import ZArith QArith Qabs Lia Lqa Bool List Ascii String.
From Stdlib Require Import Permutation Sorted DecimalString.
From stdpp Require Import gmap strings.
Import ListNotations.

Local Open Scope Z_scope.
Local Open Scope list_scope.

Definition text := list ascii.

(** The double quote and the backslash, by their codes 34 and 92. *)
Abbreviation dquote := (Ascii false true false false false true false false)
  (only parsing).
Abbreviation backslash := (Ascii false false true true true false true false)
  (only parsing).

(** [s] between double quotes. *)
Definition quoted (s : string) : string := String dquote (s ++ String dquote "").

(** ** JavaScript numbers *)

Module Number.

(** A Number is a double (IEEE 754 binary64): NaN, an infinity, or
    [± m * 2 ^ e] with [m] below [2 ^ 53]; [valid] keeps, for every finite
    value, the one such form with the least exponent the format has for it
    (so the two zeros are [± 0 * 2 ^ -1074]). *)
Inductive binary : Type :=
| NaN
| Infinity (negative : bool)
| Finite (negative : bool) (m e : Z).

Definition valid (x : binary) : bool :=
  match x with
  | Finite _ m e =>
      (0 <=? m) && (m <? 2 ^ 53) && (-1074 <=? e) && (e <=? 971)
      && ((2 ^ 52 <=? m) || (e =? -1074))
  | _ => true
  end.

Record t : Type := mk { bits : binary; bits_valid : valid bits = true }.

#[global] Instance binary_eq_dec : EqDecision binary.
Proof. solve_decision. Defined.

Definition nan : t := {| bits := NaN; bits_valid := eq_refl |}.

Definition zero : t := {| bits := Finite false 0 (-1074); bits_valid := eq_refl |}.

(** The Number with the given bits. *)
Definition make (x : binary) : t :=
  match valid x as b return valid x = b -> t with
  | true => fun H => {| bits := x; bits_valid := H |}
  | false => fun _ => nan
  end eq_refl.

Definition isFinite (x : t) : bool :=
  match bits x with
  | Finite _ _ _ => true
  | _ => false
  end.

Definition is_negative_zero (x : t) : bool :=
  match bits x with
  | Finite true 0 _ => true
  | _ => false
  end.

(** *** Rounding: the Number nearest to a rational *)

(** The integer nearest to [a / b], the even one of two that are as near. *)
Definition round_half_even (a b : Z) : Z :=
  let q := a / b in
  match 2 * (a mod b) ?= b with
  | Lt => q
  | Eq => if Z.even q then q else q + 1
  | Gt => q + 1
  end.

(** The double nearest to [a / b] for [0 <= a] and [0 < b], ties to the even
    mantissa: [e] is the exponent of the doubles around [a / b], that is
    [floor (log2 (a / b)) - 52], and [-1074] below the normal range. *)
Definition nearest (negative : bool) (a b : Z) : binary :=
  let e := Z.max (-1074) (Z.log2 (a * 2 ^ 1074 / b) - 1126) in
  let m := if 0 <=? e then round_half_even a (b * 2 ^ e)
           else round_half_even (a * 2 ^ (- e)) b in
  let '(m, e) := if m =? 2 ^ 53 then (2 ^ 52, e + 1) else (m, e) in
  if 971 <? e then Infinity negative else Finite negative m e.

(** The Number for the decimal [± d * 10 ^ x]. *)
Definition of_decimal (negative : bool) (d x : Z) : t :=
  make (if 0 <=? x then nearest negative (d * 10 ^ x) 1
        else nearest negative d (10 ^ (- x))).

Definition of_Z (z : Z) : t := of_decimal (z <? 0) (Z.abs z) 0.

(** *** Decimal digits *)

Definition is_digit (c : ascii) : bool :=
  let n := N_of_ascii c in ((48 <=? n) && (n <=? 57))%N.

Definition digit (d : Z) : ascii := ascii_of_N (Z.to_N (48 + d)).

Definition digit_value (c : ascii) : Z := Z.of_N (N_of_ascii c) - 48.

(** The number a string of digits writes. *)
Definition value (ds : text) : Z :=
  fold_left (fun v c => 10 * v + digit_value c) ds 0.

Fixpoint digits_onto (fuel : nat) (n : Z) (acc : text) : text :=
  match fuel with
  | O => acc
  | S f =>
      if n <? 10 then digit n :: acc
      else digits_onto f (n / 10) (digit (n mod 10) :: acc)
  end.

(** The digits of [n >= 0], without leading zero. *)
Definition digits (n : Z) : text := digits_onto (S (Z.to_nat (Z.log2 n))) n [].

Definition is_zero (c : ascii) : bool := (N_of_ascii c =? 48)%N.

Fixpoint drop_zeros (ds : text) : text :=
  match ds with
  | c :: ds' => if is_zero c then drop_zeros ds' else ds
  | [] => []
  end.

Definition strip_zeros (ds : text) : text := rev (drop_zeros (rev ds)).

Definition zeros (n : Z) : text := repeat "0"%char (Z.to_nat n).

(** *** Number::toString *)

(** [floor (log10 (a / b))] for positive [a] and [b]. *)
Fixpoint log10_up (fuel : nat) (a b l : Z) : Z :=
  match fuel with
  | O => l
  | S f => if b * 10 <=? a then log10_up f a (b * 10) (l + 1) else l
  end.

Fixpoint log10_down (fuel : nat) (a b l : Z) : Z :=
  match fuel with
  | O => l
  | S f => if a <? b then log10_down f (a * 10) b (l - 1) else l
  end.

Definition log10 (a b : Z) : Z :=
  let fuel := S (Z.to_nat (Z.log2 a + Z.log2 b)) in
  if b <=? a then log10_up fuel a b 0 else log10_down fuel a b 0.

(** [ds] and [n] write the positive double [m * 2 ^ e] when the decimal
    [0.ds * 10 ^ n] is read as that double. *)
Definition writes (m e : Z) (ds : text) (n : Z) : bool :=
  bool_decide (bits (of_decimal false (value ds) (n - Z.of_nat (length ds)))
               = Finite false m e).

(** The decimals of [k] digits that may write [a / b]: the two integers
    around [a / b * 10 ^ p], where [p] leaves [k] digits before the point,
    the nearer one first (of two as near, the even one first). *)
Definition candidates (a b : Z) (k : Z) : list (text * Z) :=
  let p := k - 1 - log10 a b in
  let '(num, den) := if 0 <=? p then (a * 10 ^ p, b) else (a, b * 10 ^ (- p)) in
  let lo := num / den in
  let ordered :=
    match 2 * (num mod den) ?= den with
    | Lt => [lo; lo + 1]
    | Eq => if Z.even lo then [lo; lo + 1] else [lo + 1; lo]
    | Gt => [lo + 1; lo]
    end in
  map (fun s => (strip_zeros (digits s), Z.of_nat (length (digits s)) - p))
      (List.filter (fun s => 10 ^ (k - 1) <=? s) ordered).

(** The decimal expansion of [m * 2 ^ e], which is finite. *)
Definition expansion (m e : Z) : text * Z :=
  if 0 <=? e then
    let ds := digits (m * 2 ^ e) in (ds, Z.of_nat (length ds))
  else
    let ds := digits (m * 5 ^ (- e)) in (ds, Z.of_nat (length ds) + e).

(** The digits [ds] and the exponent [n] of Number::toString for the
    positive double [m * 2 ^ e]: as few digits as write it, and of the
    decimals of that many digits the one nearest to it.  No double needs
    more than 17 digits; the expansion ends the search all the same, so
    that the function is total. *)
Definition shortest (m e : Z) : text * Z :=
  let '(a, b) := if 0 <=? e then (m * 2 ^ e, 1) else (m, 2 ^ (- e)) in
  match List.find (fun c => writes m e (fst c) (snd c))
                  (flat_map (fun k => candidates a b (Z.of_nat k)) (seq 1 17)) with
  | Some c => c
  | None => expansion m e
  end.

Definition exponent_part (x : Z) : text :=
  "e"%char :: (if 0 <=? x then "+"%char else "-"%char) :: digits (Z.abs x).

(** The text of [0.ds * 10 ^ n]. *)
Definition format (ds : text) (n : Z) : text :=
  let k := Z.of_nat (length ds) in
  if (k <=? n) && (n <=? 21) then ds ++ zeros (n - k)
  else if (0 <? n) && (n <=? 21) then
    firstn (Z.to_nat n) ds ++ "."%char :: skipn (Z.to_nat n) ds
  else if (-6 <? n) && (n <=? 0) then "0"%char :: "."%char :: zeros (- n) ++ ds
  else
    match ds with
    | [] => []
    | [d] => d :: exponent_part (n - 1)
    | d :: ds' => d :: "."%char :: ds' ++ exponent_part (n - 1)
    end.

Definition toString (x : t) : text :=
  match bits x with
  | NaN => list_ascii_of_string "NaN"
  | Infinity negative =>
      list_ascii_of_string (if negative then "-Infinity" else "Infinity")
  | Finite negative m e =>
      if m =? 0 then ["0"%char]
      else
        let '(ds, n) := shortest m e in
        if negative then "-"%char :: format ds n else format ds n
  end.

End Number.

(** ** JSON documents: what [JSON.stringify] writes and [JSON.parse] reads *)

Module JSON.

Unset Elimination Schemes.
Inductive json : Type :=
| JNull
| JBool (b : bool)
| JNum (x : Number.t)
| JStr (s : string)
| JArr (l : list json)
| JObj (m : list (string * json)).
Set Elimination Schemes.

Section json_induction.
Variable P : json -> Prop.
Hypothesis Hnull : P JNull.
Hypothesis Hbool : forall b, P (JBool b).
Hypothesis Hnum : forall x, P (JNum x).
Hypothesis Hstr : forall s, P (JStr s).
Hypothesis Harr : forall l, Forall P l -> P (JArr l).
Hypothesis Hobj : forall m, Forall (fun kv => P (snd kv)) m -> P (JObj m).

Fixpoint json_ind (v : json) : P v :=
  match v with
  | JNull => Hnull
  | JBool b => Hbool b
  | JNum x => Hnum x
  | JStr s => Hstr s
  | JArr l =>
      Harr l ((fix all (l : list json) : Forall P l :=
                 match l with
                 | [] => @List.Forall_nil _ P
                 | x :: l' => @List.Forall_cons _ P x l' (json_ind x) (all l')
                 end) l)
  | JObj m =>
      Hobj m ((fix all (m : list (string * json)) :
                 Forall (fun kv => P (snd kv)) m :=
                 match m with
                 | [] => @List.Forall_nil _ _
                 | kv :: m' =>
                     @List.Forall_cons _ (fun kv => P (snd kv)) kv m'
                       (json_ind (snd kv)) (all m')
                 end) m)
  end.
End json_induction.

(** The empty object [{}], the default metadata. *)
Definition empty_object : json := JObj [].

(** *** Writing *)

Definition hex_digit (n : N) : ascii :=
  match n with
  | 0 => "0" | 1 => "1" | 2 => "2" | 3 => "3" | 4 => "4" | 5 => "5"
  | 6 => "6" | 7 => "7" | 8 => "8" | 9 => "9" | 10 => "a" | 11 => "b"
  | 12 => "c" | 13 => "d" | 14 => "e" | _ => "f"
  end%N%char.

(** One byte of a string as a literal holds it: quote, backslash and the
    control characters below U+0020 are escaped, the rest (the bytes of the
    characters above U+007F among them) is copied. *)
Definition escape_char (c : ascii) : text :=
  let n := N_of_ascii c in
  if (n =? 34)%N then [backslash; dquote]
  else if (n =? 92)%N then [backslash; backslash]
  else if (n =? 8)%N then [backslash; "b"%char]
  else if (n =? 12)%N then [backslash; "f"%char]
  else if (n =? 10)%N then [backslash; "n"%char]
  else if (n =? 13)%N then [backslash; "r"%char]
  else if (n =? 9)%N then [backslash; "t"%char]
  else if (n <? 32)%N then
    [backslash; "u"%char; "0"%char; "0"%char;
     hex_digit (n / 16); hex_digit (n mod 16)]
  else [c].

Definition quote (s : string) : text :=
  (dquote :: flat_map escape_char (list_ascii_of_string s)) ++ [dquote].

(** A number: Number::toString of a finite one, [null] for NaN and the
    infinities. *)
Definition print_number (x : Number.t) : text :=
  if Number.isFinite x then Number.toString x else list_ascii_of_string "null".

Fixpoint join (l : list text) : text :=
  match l with
  | [] => []
  | x :: l' =>
      match l' with
      | [] => x
      | _ => x ++ ","%char :: join l'
      end
  end.

Fixpoint print (v : json) : text :=
  match v with
  | JNull => list_ascii_of_string "null"
  | JBool true => list_ascii_of_string "true"
  | JBool false => list_ascii_of_string "false"
  | JNum x => print_number x
  | JStr s => quote s
  | JArr l => "["%char :: join (map print l) ++ ["]"%char]
  | JObj m =>
      "{"%char
        :: join (map (fun kv => quote (fst kv) ++ ":"%char :: print (snd kv)) m)
        ++ ["}"%char]
  end.

(** [JSON.stringify(v)] *)
Definition stringify (v : json) : string := string_of_list_ascii (print v).

(** *** Reading *)

Definition is_ws (c : ascii) : bool :=
  let n := N_of_ascii c in
  ((n =? 32) || (n =? 9) || (n =? 10) || (n =? 13))%N.

Fixpoint skip_ws (s : text) : text :=
  match s with
  | c :: r => if is_ws c then skip_ws r else s
  | [] => []
  end.

Definition hex_value (c : ascii) : option N :=
  let n := N_of_ascii c in
  if ((48 <=? n) && (n <=? 57))%N then Some (n - 48)%N
  else if ((97 <=? n) && (n <=? 102))%N then Some (n - 87)%N
  else if ((65 <=? n) && (n <=? 70))%N then Some (n - 55)%N
  else None.

Definition hex4 (a b c d : ascii) : option N :=
  match hex_value a, hex_value b, hex_value c, hex_value d with
  | Some x, Some y, Some z, Some w => Some (((x * 16 + y) * 16 + z) * 16 + w)%N
  | _, _, _, _ => None
  end.

Definition unescape (e : ascii) : option ascii :=
  let n := N_of_ascii e in
  if (n =? 34)%N then Some dquote
  else if (n =? 92)%N then Some backslash
  else if (n =? 47)%N then Some "/"%char
  else if (n =? 98)%N then Some (ascii_of_N 8)
  else if (n =? 102)%N then Some (ascii_of_N 12)
  else if (n =? 110)%N then Some (ascii_of_N 10)
  else if (n =? 114)%N then Some (ascii_of_N 13)
  else if (n =? 116)%N then Some (ascii_of_N 9)
  else None.

Definition cons_fst (c : ascii) (r : option (text * text)) : option (text * text) :=
  match r with
  | Some (s, rest) => Some (c :: s, rest)
  | None => None
  end.

Definition app_fst (cs : text) (r : option (text * text)) : option (text * text) :=
  match r with
  | Some (s, rest) => Some (cs ++ s, rest)
  | None => None
  end.

(** The UTF-8 bytes of a code point.  A surrogate without its pair, which a
    JavaScript string can hold and UTF-8 cannot, takes the three bytes the
    same rule gives it. *)
Definition utf8 (cp : N) : text :=
  (if cp <? 128 then [ascii_of_N cp]
   else if cp <? 2048 then
     [ascii_of_N (192 + cp / 64); ascii_of_N (128 + cp mod 64)]
   else if cp <? 65536 then
     [ascii_of_N (224 + cp / 4096); ascii_of_N (128 + cp / 64 mod 64);
      ascii_of_N (128 + cp mod 64)]
   else
     [ascii_of_N (240 + cp / 262144); ascii_of_N (128 + cp / 4096 mod 64);
      ascii_of_N (128 + cp / 64 mod 64); ascii_of_N (128 + cp mod 64)])%N.

Definition is_high_surrogate (n : N) : bool := ((55296 <=? n) && (n <? 56320))%N.
Definition is_low_surrogate (n : N) : bool := ((56320 <=? n) && (n <? 57344))%N.

(** The code point of a surrogate pair. *)
Definition surrogate_pair (high low : N) : N :=
  (65536 + (high - 55296) * 1024 + (low - 56320))%N.

(** The characters of a string literal after its opening quote, up to and
    including the closing quote.  A [\uXXXX] escape gives a UTF-16 code
    unit; a high surrogate followed by the escape of a low one gives one
    code point. *)
Fixpoint parse_chars (s : text) : option (text * text) :=
  match s with
  | [] => None
  | c :: r =>
      if (N_of_ascii c =? 34)%N then Some ([], r)
      else if (N_of_ascii c =? 92)%N then
        match r with
        | [] => None
        | e :: r1 =>
            if (N_of_ascii e =? 117)%N then
              match r1 with
              | h1 :: h2 :: h3 :: h4 :: r2 =>
                  match hex4 h1 h2 h3 h4 with
                  | Some n =>
                      let alone := app_fst (utf8 n) (parse_chars r2) in
                      if is_high_surrogate n then
                        match r2 with
                        | b :: u :: l1 :: l2 :: l3 :: l4 :: r3 =>
                            if ((N_of_ascii b =? 92) && (N_of_ascii u =? 117))%N then
                              match hex4 l1 l2 l3 l4 with
                              | Some low =>
                                  if is_low_surrogate low then
                                    app_fst (utf8 (surrogate_pair n low))
                                            (parse_chars r3)
                                  else alone
                              | None => alone
                              end
                            else alone
                        | _ => alone
                        end
                      else alone
                  | None => None
                  end
              | _ => None
              end
            else
              match unescape e with
              | Some ch => cons_fst ch (parse_chars r1)
              | None => None
              end
        end
      else if (N_of_ascii c <? 32)%N then None
      else cons_fst c (parse_chars r)
  end.

(** What a number starts with: [-] or a digit. *)
Definition is_numchar (c : ascii) : bool :=
  let n := N_of_ascii c in
  ((n =? 45) || ((48 <=? n) && (n <=? 57)))%N.

(** The digits [s] starts with, and what follows them. *)
Fixpoint span_digits (s : text) : text * text :=
  match s with
  | c :: r =>
      if Number.is_digit c then let '(ds, rest) := span_digits r in (c :: ds, rest)
      else ([], s)
  | [] => ([], [])
  end.

(** The fraction of a number, if it has one: a point and digits. *)
Definition fraction (s : text) : option (text * text) :=
  match s with
  | c :: r =>
      if Ascii.eqb c "."%char then
        match span_digits r with
        | ([], _) => None
        | (ds, rest) => Some (ds, rest)
        end
      else Some ([], s)
  | [] => Some ([], [])
  end.

(** The exponent of a number, if it has one: [e] or [E], a sign or none,
    and digits. *)
Definition exponent (s : text) : option (Z * text) :=
  match s with
  | c :: r =>
      if Ascii.eqb c "e"%char || Ascii.eqb c "E"%char then
        let '(negative, r) :=
          match r with
          | sign :: r' =>
              if Ascii.eqb sign "-"%char then (true, r')
              else if Ascii.eqb sign "+"%char then (false, r')
              else (false, r)
          | [] => (false, r)
          end in
        match span_digits r with
        | ([], _) => None
        | (ds, rest) =>
            Some (if negative then - Number.value ds else Number.value ds, rest)
        end
      else Some (0, s)
  | [] => Some (0, [])
  end.

(** A JSON number without its sign: [0] or digits that do not start with
    [0], then a fraction or none, then an exponent or none.  Its value is
    the double nearest to the decimal written. *)
Definition parse_unsigned (negative : bool) (s : text) : option (Number.t * text) :=
  match span_digits s with
  | ([], _) => None
  | (c :: int, s) =>
      if Number.is_zero c && negb (bool_decide (int = [])) then None
      else
        match fraction s with
        | None => None
        | Some (frac, s) =>
            match exponent s with
            | None => None
            | Some (x, s) =>
                Some (Number.of_decimal negative (Number.value (c :: int ++ frac))
                                        (x - Z.of_nat (length frac)), s)
            end
        end
  end.

Definition parse_number (s : text) : option (Number.t * text) :=
  match s with
  | c :: r => if Ascii.eqb c "-"%char then parse_unsigned true r
              else parse_unsigned false s
  | [] => None
  end.

Fixpoint expect (lit s : text) : option text :=
  match lit with
  | [] => Some s
  | c :: lit' =>
      match s with
      | d :: s' => if Ascii.eqb c d then expect lit' s' else None
      | [] => None
      end
  end.

(** Assigning a property: a repeated key keeps its first position and takes
    the later value. *)
Fixpoint obj_set (k : string) (v : json) (m : list (string * json)) :
  list (string * json) :=
  match m with
  | [] => [(k, v)]
  | (k', v') :: m' =>
      if String.eqb k k' then (k', v) :: m' else (k', v') :: obj_set k v m'
  end.

Fixpoint parse_value (fuel : nat) (s : text) {struct fuel} : option (json * text) :=
  match fuel with
  | O => None
  | S f =>
      match skip_ws s with
      | [] => None
      | c :: r =>
          let n := N_of_ascii c in
          if (n =? 110)%N then
            match expect (list_ascii_of_string "ull") r with
            | Some r' => Some (JNull, r')
            | None => None
            end
          else if (n =? 116)%N then
            match expect (list_ascii_of_string "rue") r with
            | Some r' => Some (JBool true, r')
            | None => None
            end
          else if (n =? 102)%N then
            match expect (list_ascii_of_string "alse") r with
            | Some r' => Some (JBool false, r')
            | None => None
            end
          else if (n =? 34)%N then
            match parse_chars r with
            | Some (str, r') => Some (JStr (string_of_list_ascii str), r')
            | None => None
            end
          else if (n =? 91)%N then
            match skip_ws r with
            | c' :: r' =>
                if (N_of_ascii c' =? 93)%N then Some (JArr [], r')
                else parse_elements f r []
            | [] => None
            end
          else if (n =? 123)%N then
            match skip_ws r with
            | c' :: r' =>
                if (N_of_ascii c' =? 125)%N then Some (JObj [], r')
                else parse_members f r []
            | [] => None
            end
          else if is_numchar c then
            match parse_number (c :: r) with
            | Some (x, r') => Some (JNum x, r')
            | None => None
            end
          else None
      end
  end
with parse_elements (fuel : nat) (s : text) (acc : list json) {struct fuel} :
  option (json * text) :=
  match fuel with
  | O => None
  | S f =>
      match parse_value f s with
      | Some (v, r) =>
          match skip_ws r with
          | c :: r' =>
              if (N_of_ascii c =? 44)%N then parse_elements f r' (acc ++ [v])
              else if (N_of_ascii c =? 93)%N then Some (JArr (acc ++ [v]), r')
              else None
          | [] => None
          end
      | None => None
      end
  end
with parse_members (fuel : nat) (s : text) (acc : list (string * json))
  {struct fuel} : option (json * text) :=
  match fuel with
  | O => None
  | S f =>
      match skip_ws s with
      | q :: r =>
          if (N_of_ascii q =? 34)%N then
            match parse_chars r with
            | Some (k, r1) =>
                match skip_ws r1 with
                | c :: r2 =>
                    if (N_of_ascii c =? 58)%N then
                      match parse_value f r2 with
                      | Some (v, r3) =>
                          let acc' := obj_set (string_of_list_ascii k) v acc in
                          match skip_ws r3 with
                          | d :: r4 =>
                              if (N_of_ascii d =? 44)%N then parse_members f r4 acc'
                              else if (N_of_ascii d =? 125)%N then Some (JObj acc', r4)
                              else None
                          | [] => None
                          end
                      | None => None
                      end
                    else None
                | [] => None
                end
            | None => None
            end
          else None
      | [] => None
      end
  end.

(** [JSON.parse(s)]; [None] is the thrown SyntaxError. *)
Definition parse (s : string) : option json :=
  let t := list_ascii_of_string s in
  match parse_value (S (length t)) t with
  | Some (v, rest) =>
      match skip_ws rest with
      | [] => Some v
      | _ :: _ => None
      end
  | None => None
  end.

(** The documents JSON holds as they are: no property name occurs twice
    (as in every JavaScript object), and every number is finite and is not
    the negative zero. *)
Fixpoint wf (v : json) : bool :=
  match v with
  | JNum x => Number.isFinite x && negb (Number.is_negative_zero x)
  | JArr l => forallb wf l
  | JObj m =>
      (if decide (NoDup (map fst m)) then true else false)
        && forallb (fun kv => wf (snd kv)) m
  | _ => true
  end.

(** Auxiliary definitions for the facts about [parse]: what may follow a
    number for it to end where it does, the parts of a number as they are
    written, and the fuel a value needs. *)
Definition continues (c : ascii) : bool :=
  Number.is_digit c || Ascii.eqb c "."%char || Ascii.eqb c "e"%char
  || Ascii.eqb c "E"%char.

Definition rest_ok (r : text) : Prop :=
  match r with
  | [] => True
  | c :: _ => continues c = false
  end.

Definition fraction_text (frac : text) : text :=
  match frac with
  | [] => []
  | _ => "."%char :: frac
  end.

Definition exponent_text (x : option Z) : text :=
  match x with
  | Some x => Number.exponent_part x
  | None => []
  end.

Fixpoint weight (v : json) : nat :=
  match v with
  | JArr l => S (list_sum (map (fun x => S (weight x)) l))
  | JObj m => S (list_sum (map (fun kv => S (weight (snd kv))) m))
  | _ => 1%nat
  end.

Definition member (kv : string * json) : text :=
  quote (fst kv) ++ ":"%char :: print (snd kv).

Definition reads_back (v : json) : Prop :=
  wf v = true ->
  forall fuel rest, (weight v <= fuel)%nat -> rest_ok rest ->
  parse_value fuel (print v ++ rest) = Some (v, rest).

End JSON.

(** ** The SQL operators the statements use *)

Module SQL.

(** ASCII lower-casing, the only case folding [LIKE] knows. *)
Definition to_lower (c : ascii) : ascii :=
  let n := N_of_ascii c in
  if ((65 <=? n) && (n <=? 90))%N then ascii_of_N (n + 32) else c.

(** Equality of two characters up to ASCII case. *)
Definition nocase (c d : ascii) : bool := Ascii.eqb (to_lower c) (to_lower d).

Definition is_percent (c : ascii) : bool := (N_of_ascii c =? 37)%N.
Definition is_underscore (c : ascii) : bool := (N_of_ascii c =? 95)%N.

(** What is left of a text after its first character, [d] being its first
    byte: SQLite reads one byte and, when that byte starts a UTF-8 sequence
    (it is 0xC0 or above), the continuation bytes (0x80 to 0xBF) that
    follow. *)
Definition is_continuation (c : ascii) : bool :=
  let n := N_of_ascii c in ((128 <=? n) && (n <? 192))%N.

Fixpoint drop_continuation (s : text) : text :=
  match s with
  | c :: s' => if is_continuation c then drop_continuation s' else s
  | [] => []
  end.

Definition after_character (d : ascii) (s : text) : text :=
  if (192 <=? N_of_ascii d)%N then drop_continuation s else s.

(** [s LIKE p] with the default settings: [%] matches any run of bytes,
    [_] any one character, every other byte itself up to ASCII case; there
    is no escape character. *)
Fixpoint like (p s : text) {struct p} : bool :=
  match p with
  | [] => match s with [] => true | _ :: _ => false end
  | c :: p' =>
      if is_percent c then
        (fix any (s : text) : bool :=
           like p' s || match s with [] => false | _ :: s' => any s' end) s
      else
        match s with
        | [] => false
        | d :: s' =>
            if is_underscore c then like p' (after_character d s')
            else nocase c d && like p' s'
        end
  end.

Definition LIKE (s p : string) : bool :=
  like (list_ascii_of_string p) (list_ascii_of_string s).

(** [LIMIT n]: a negative bound means no bound. *)
Definition LIMIT {A} (n : Z) (rows : list A) : list A :=
  if n <? 0 then rows else firstn (Z.to_nat n) rows.

(** [ORDER BY]: rows are inserted one by one in front of the first row they
    are allowed to precede; rows the order does not separate keep the
    order of the table. *)
Fixpoint insert_by {A} (before : A -> A -> bool) (x : A) (l : list A) : list A :=
  match l with
  | [] => [x]
  | y :: l' => if before x y then x :: l else y :: insert_by before x l'
  end.

Fixpoint ORDER_BY {A} (before : A -> A -> bool) (l : list A) : list A :=
  match l with
  | [] => []
  | x :: l' => insert_by before x (ORDER_BY before l')
  end.

Definition Qltb (a b : Q) : bool := negb (Qle_bool b a).

(** SELECT ... WHERE keep ORDER BY before LIMIT n *)
Definition select {A} (before : A -> A -> bool) (keep : A -> bool) (n : Z)
           (table : list A) : list A :=
  LIMIT n (ORDER_BY before (List.filter keep table)).

(** A list in which every row comes before all the rows after it. *)
Definition ordered {A} (before : A -> A -> bool) : list A -> Prop :=
  StronglySorted (fun a b => before a b = true).

End SQL.

(** ** Plain substring tests (what the specification speaks of) *)

Fixpoint starts_with (eqc : ascii -> ascii -> bool) (q s : text) : bool :=
  match q, s with
  | [], _ => true
  | _ :: _, [] => false
  | c :: q', d :: s' => eqc c d && starts_with eqc q' s'
  end.

Fixpoint occurs_in (eqc : ascii -> ascii -> bool) (q s : text) : bool :=
  starts_with eqc q s
  || match s with [] => false | _ :: s' => occurs_in eqc q s' end.

(** [content.includes(query)]: case-sensitive containment. *)
Definition includes (content query : string) : bool :=
  occurs_in Ascii.eqb (list_ascii_of_string query) (list_ascii_of_string content).


(** ** Outcomes *)

Inductive error : Type :=
| ProviderError (message : string)   (* thrown by generateEmbedding *)
| ConstraintError                    (* PRIMARY KEY / FOREIGN KEY violated *)
| VectorError                        (* vec0 table or function unusable *)
| SyntaxError                        (* thrown by JSON.parse *)
| Unfinished.                        (* a loop left its modelled bound; never
                                        produced, see [traverse_finishes] *)

Inductive outcome (A : Type) : Type :=
| Ok (a : A)
| Err (e : error).
Arguments Ok {A} a.
Arguments Err {A} e.

Definition bind {A B} (r : outcome A) (k : A -> outcome B) : outcome B :=
  match r with
  | Ok a => k a
  | Err e => Err e
  end.

Fixpoint mapM {A B} (f : A -> outcome B) (l : list A) : outcome (list B) :=
  match l with
  | [] => Ok []
  | x :: l' =>
      bind (f x) (fun y => bind (mapM f l') (fun ys => Ok (y :: ys)))
  end.

(** ** Rows and records *)

Definition vector := list Q.

(** The dimension of [embedding FLOAT[768]]. *)
Definition DIMENSION : nat := 768.

Module MemoryRow.
Record t : Type := mk {
  id : string;
  content : string;
  metadata : option string;     (* TEXT DEFAULT '{}', may be NULL *)
  created_at : Z;
  updated_at : Z }.
End MemoryRow.

Module Memory.
Record t : Type := mk {
  id : string;
  content : string;
  metadata : JSON.json;
  created_at : Z;
  updated_at : Z }.
End Memory.

Module RelationshipRow.
Record t : Type := mk {
  id : string;
  from_memory_id : string;
  to_memory_id : string;
  relationship_type : string;
  strength : Q;
  metadata : option string;
  created_at : Z }.
End RelationshipRow.

Module Relationship.
Record t : Type := mk {
  id : string;
  from_memory_id : string;
  to_memory_id : string;
  relationship_type : string;
  strength : Q;
  metadata : JSON.json;
  created_at : Z }.
End Relationship.

(** The database behind the connection [db]: the three tables, and the two
    properties of the connection that no statement of the service changes:
    whether the vec0 extension was loaded, and whether foreign keys are
    enforced. *)
Record DB : Type := mkDB {
  memories : list MemoryRow.t;
  relationships : list RelationshipRow.t;
  memory_embeddings : list (string * vector);
  vec0 : bool;
  foreign_keys : bool }.

(** What a call takes from outside the process: the identifier
    [randomUUID()] gives, the clock of the process ([now]: the timestamp
    [new Date().toISOString()] gives), the clock of SQLite
    ([CURRENT_TIMESTAMP]: the timestamp the statement being run gets from
    it), the embedding provider and sqlite-vec's distance function (which
    raises on vectors of different dimensions). *)
Record Env : Type := mkEnv {
  randomUUID : string;
  now : Z;
  CURRENT_TIMESTAMP : Z;
  generateEmbedding : string -> outcome vector;
  vec_distance_cosine : vector -> vector -> outcome Q }.

(** A database file that does not exist yet. *)
Definition fresh : DB :=
  {| memories := []; relationships := []; memory_embeddings := [];
     vec0 := false; foreign_keys := true |}.

(** [initializeDatabase]: opens the file, keeping what it holds (every
    CREATE is IF NOT EXISTS); [vec_loaded] tells whether [sqliteVec.load]
    went through.  The connection is never given a [foreign_keys] pragma, so
    the engine's default decides; better-sqlite3 compiles SQLite with
    SQLITE_DEFAULT_FOREIGN_KEYS=1. *)
Definition initializeDatabase (vec_loaded : bool) (file : DB) : DB :=
  {| memories := memories file;
     relationships := relationships file;
     memory_embeddings := memory_embeddings file;
     vec0 := vec_loaded; foreign_keys := true |}.

(** ** Statements *)

Definition has_memory (db : DB) (id : string) : bool :=
  existsb (fun r => String.eqb (MemoryRow.id r) id) (memories db).

Definition has_relationship (db : DB) (id : string) : bool :=
  existsb (fun r => String.eqb (RelationshipRow.id r) id) (relationships db).

Definition has_embedding (db : DB) (id : string) : bool :=
  existsb (fun r => String.eqb (fst r) id) (memory_embeddings db).

(** INSERT INTO memories: the primary key must be new. *)
Definition insert_memory (row : MemoryRow.t) (db : DB) : outcome DB :=
  if has_memory db (MemoryRow.id row) then Err ConstraintError
  else Ok {| memories := memories db ++ [row];
             relationships := relationships db;
             memory_embeddings := memory_embeddings db;
             vec0 := vec0 db; foreign_keys := foreign_keys db |}.

(** INSERT INTO memory_embeddings: needs the extension, a vector of the
    declared dimension and a new key. *)
Definition insert_embedding (id : string) (v : vector) (db : DB) : outcome DB :=
  if negb (vec0 db) then Err VectorError
  else if negb (Nat.eqb (length v) DIMENSION) then Err VectorError
  else if has_embedding db id then Err ConstraintError
  else Ok {| memories := memories db;
             relationships := relationships db;
             memory_embeddings := memory_embeddings db ++ [(id, v)];
             vec0 := vec0 db; foreign_keys := foreign_keys db |}.

(** UPDATE memory_embeddings SET embedding = ? WHERE id = ? *)
Definition update_embedding (id : string) (v : vector) (db : DB) : outcome DB :=
  if negb (vec0 db) then Err VectorError
  else if has_embedding db id && negb (Nat.eqb (length v) DIMENSION)
       then Err VectorError
  else Ok {| memories := memories db;
             relationships := relationships db;
             memory_embeddings :=
               map (fun r => if String.eqb (fst r) id then (id, v) else r)
                   (memory_embeddings db);
             vec0 := vec0 db; foreign_keys := foreign_keys db |}.

(** DELETE FROM memory_embeddings WHERE id = ? *)
Definition delete_embedding (id : string) (db : DB) : outcome DB :=
  if negb (vec0 db) then Err VectorError
  else Ok {| memories := memories db;
             relationships := relationships db;
             memory_embeddings :=
               List.filter (fun r => negb (String.eqb (fst r) id))
                           (memory_embeddings db);
             vec0 := vec0 db; foreign_keys := foreign_keys db |}.

(** A statement inside [try { ... } catch { }]. *)
Definition swallow (r : outcome DB) (db : DB) : DB :=
  match r with
  | Ok db' => db'
  | Err _ => db
  end.

Definition touches (id : string) (r : RelationshipRow.t) : bool :=
  String.eqb (RelationshipRow.from_memory_id r) id
  || String.eqb (RelationshipRow.to_memory_id r) id.

(** DELETE FROM memories WHERE id = ?, with the number of rows deleted.
    When a row goes and foreign keys are enforced, ON DELETE CASCADE takes
    the relationships that name it as either endpoint. *)
Definition delete_memory_row (id : string) (db : DB) : nat * DB :=
  let gone := List.filter (fun r => String.eqb (MemoryRow.id r) id) (memories db) in
  let changes := length gone in
  (changes,
   {| memories :=
        List.filter (fun r => negb (String.eqb (MemoryRow.id r) id)) (memories db);
      relationships :=
        if foreign_keys db && negb (Nat.eqb changes 0)
        then List.filter (fun r => negb (touches id r)) (relationships db)
        else relationships db;
      memory_embeddings := memory_embeddings db;
      vec0 := vec0 db; foreign_keys := foreign_keys db |}).

(** UPDATE memories SET [content = ?,] [metadata = ?,]
    updated_at = CURRENT_TIMESTAMP WHERE id = ?  (the AFTER UPDATE trigger
    writes the same timestamp again). *)
Definition update_memory_row (id : string) (content metadata : option string)
           (time : Z) (db : DB) : nat * DB :=
  let hit r := String.eqb (MemoryRow.id r) id in
  let upd r :=
    if hit r then
      {| MemoryRow.id := MemoryRow.id r;
         MemoryRow.content :=
           match content with Some c => c | None => MemoryRow.content r end;
         MemoryRow.metadata :=
           match metadata with
           | Some m => Some m
           | None => MemoryRow.metadata r
           end;
         MemoryRow.created_at := MemoryRow.created_at r;
         MemoryRow.updated_at := time |}
    else r in
  (length (List.filter hit (memories db)),
   {| memories := map upd (memories db);
      relationships := relationships db;
      memory_embeddings := memory_embeddings db;
      vec0 := vec0 db; foreign_keys := foreign_keys db |}).

(** INSERT INTO relationships: new primary key, and both endpoints present
    when foreign keys are enforced. *)
Definition insert_relationship (row : RelationshipRow.t) (db : DB) : outcome DB :=
  if has_relationship db (RelationshipRow.id row) then Err ConstraintError
  else if foreign_keys db
          && negb (has_memory db (RelationshipRow.from_memory_id row)
                   && has_memory db (RelationshipRow.to_memory_id row))
       then Err ConstraintError
  else Ok {| memories := memories db;
             relationships := relationships db ++ [row];
             memory_embeddings := memory_embeddings db;
             vec0 := vec0 db; foreign_keys := foreign_keys db |}.

(** ** The memory service *)

(** [JSON.parse(row.metadata || '{}')] *)
Definition parse_metadata (column : option string) : outcome JSON.json :=
  let source :=
    match column with
    | Some s => if String.eqb s "" then "{}"%string else s
    | None => "{}"%string
    end in
  match JSON.parse source with
  | Some v => Ok v
  | None => Err SyntaxError
  end.

(** The object literal every read builds from a row.  Each Date,
    [new Date(row.created_at)] and [new Date(row.updated_at)], is named by
    the timestamp it is built from. *)
Definition memory_of (row : MemoryRow.t) (metadata : JSON.json) : Memory.t :=
  {| Memory.id := MemoryRow.id row;
     Memory.content := MemoryRow.content row;
     Memory.metadata := metadata;
     Memory.created_at := MemoryRow.created_at row;
     Memory.updated_at := MemoryRow.updated_at row |}.

Definition toMemory (row : MemoryRow.t) : outcome Memory.t :=
  bind (parse_metadata (MemoryRow.metadata row)) (fun md => Ok (memory_of row md)).

Definition relationship_of (row : RelationshipRow.t) (metadata : JSON.json) :
  Relationship.t :=
  {| Relationship.id := RelationshipRow.id row;
     Relationship.from_memory_id := RelationshipRow.from_memory_id row;
     Relationship.to_memory_id := RelationshipRow.to_memory_id row;
     Relationship.relationship_type := RelationshipRow.relationship_type row;
     Relationship.strength := RelationshipRow.strength row;
     Relationship.metadata := metadata;
     Relationship.created_at := RelationshipRow.created_at row |}.

Definition toRelationship (row : RelationshipRow.t) : outcome Relationship.t :=
  bind (parse_metadata (RelationshipRow.metadata row))
       (fun md => Ok (relationship_of row md)).

Definition default {A} (d : A) (o : option A) : A :=
  match o with
  | Some a => a
  | None => d
  end.

Definition addMemory (env : Env) (content : string) (metadata : option JSON.json)
           (db : DB) : outcome string * DB :=
  let metadata := default JSON.empty_object metadata in
  let id := randomUUID env in
  match generateEmbedding env content with
  | Err e => (Err e, db)
  | Ok embedding =>
      match insert_memory
              {| MemoryRow.id := id;
                 MemoryRow.content := content;
                 MemoryRow.metadata := Some (JSON.stringify metadata);
                 MemoryRow.created_at := now env;
                 MemoryRow.updated_at := now env |} db with
      | Err e => (Err e, db)
      | Ok db1 => (Ok id, swallow (insert_embedding id embedding db1) db1)
      end
  end.

Definition getMemory (db : DB) (id : string) : outcome (option Memory.t) :=
  match List.find (fun r => String.eqb (MemoryRow.id r) id) (memories db) with
  | None => Ok None
  | Some row => bind (toMemory row) (fun m => Ok (Some m))
  end.

Definition updateMemory (env : Env) (id : string) (content : option string)
           (metadata : option JSON.json) (db : DB) : outcome bool * DB :=
  match getMemory db id with
  | Err e => (Err e, db)
  | Ok None => (Ok false, db)
  | Ok (Some _) =>
      let embedded :=
        match content with
        | Some c =>
            match generateEmbedding env c with
            | Err e => Err e
            | Ok embedding => Ok (swallow (update_embedding id embedding db) db)
            end
        | None => Ok db
        end in
      match embedded with
      | Err e => (Err e, db)
      | Ok db1 =>
          match content, metadata with
          | None, None => (Ok true, db1)
          | _, _ =>
              let '(changes, db2) :=
                update_memory_row id content (option_map JSON.stringify metadata)
                                  (CURRENT_TIMESTAMP env) db1 in
              (Ok (negb (Nat.eqb changes 0)), db2)
          end
      end
  end.

Definition deleteMemory (id : string) (db : DB) : bool * DB :=
  let '(changes, db1) := delete_memory_row id db in
  (negb (Nat.eqb changes 0), swallow (delete_embedding id db1) db1).

(** *** Search *)

Module SearchOptions.
Record t : Type := mk {
  limit : option Z;
  threshold : option Q }.
End SearchOptions.

(** FROM memories m JOIN memory_embeddings v ON m.id = v.id *)
Definition joined (db : DB) : list (MemoryRow.t * vector) :=
  flat_map (fun m =>
              map (fun v => (m, snd v))
                  (List.filter (fun v => String.eqb (fst v) (MemoryRow.id m))
                               (memory_embeddings db)))
           (memories db).

Definition nearer (a b : MemoryRow.t * Q) : bool := Qle_bool (snd a) (snd b).

(** The rows of the vector statement, each with its distance. *)
Definition vector_rows (env : Env) (q : vector) (limit : Z) (bound : Q) (db : DB) :
  outcome (list (MemoryRow.t * Q)) :=
  if negb (vec0 db) then Err VectorError
  else
    bind (mapM (fun mv => bind (vec_distance_cosine env (snd mv) q)
                               (fun d => Ok (fst mv, d)))
               (joined db)) (fun scored =>
    Ok (SQL.select nearer (fun md => SQL.Qltb (snd md) bound) limit scored)).

(** The [try] block of [searchMemories]. *)
Definition vector_search (env : Env) (query : string) (limit : Z) (threshold : Q)
           (db : DB) : outcome (list Memory.t) :=
  bind (generateEmbedding env query) (fun q =>
  bind (vector_rows env q limit (1 - threshold) db) (fun rows =>
  mapM toMemory (map fst rows))).

Definition newer (a b : MemoryRow.t) : bool :=
  MemoryRow.created_at b <=? MemoryRow.created_at a.

Definition pattern_of (query : string) : string := ("%" ++ query ++ "%")%string.

(** The rows of the statement in the [catch] block. *)
Definition text_rows (query : string) (limit : Z) (db : DB) : list MemoryRow.t :=
  SQL.select newer (fun r => SQL.LIKE (MemoryRow.content r) (pattern_of query))
             limit (memories db).

Definition text_search (query : string) (limit : Z) (db : DB) :
  outcome (list Memory.t) :=
  mapM toMemory (text_rows query limit db).


(** [row] has an embedding, at distance [d] from the vector [q]. *)
Definition embedded_at (env : Env) (db : DB) (q : vector) (row : MemoryRow.t) (d : Q) :
  Prop :=
  In row (memories db)
  /\ exists v, In (MemoryRow.id row, v) (memory_embeddings db)
               /\ vec_distance_cosine env v q = Ok d.

Definition searchMemories (env : Env) (query : string) (options : SearchOptions.t)
           (db : DB) : outcome (list Memory.t) :=
  let limit := default 10 (SearchOptions.limit options) in
  let threshold := default (1 # 2)%Q (SearchOptions.threshold options) in
  match vector_search env query limit threshold db with
  | Ok memories => Ok memories
  | Err _ => text_search query limit db
  end.

(** *** Relationships *)

Inductive direction : Type := dir_from | dir_to | dir_both.

Module RelationshipQuery.
Record t : Type := mk {
  memoryId : option string;
  relationshipType : option string;
  direction : option direction;
  minStrength : option Q;
  limit : option Z }.
End RelationshipQuery.

(** [if (s)] on an optional string: given and not empty. *)
Definition truthy (s : option string) : option string :=
  match s with
  | Some x => if String.eqb x "" then None else Some x
  | None => None
  end.

Definition addRelationship (env : Env) (fromMemoryId toMemoryId relationshipType : string)
           (strength : option Q) (metadata : option JSON.json) (db : DB) :
  outcome string * DB :=
  let strength := default 1%Q strength in
  let metadata := default JSON.empty_object metadata in
  let id := randomUUID env in
  match insert_relationship
          {| RelationshipRow.id := id;
             RelationshipRow.from_memory_id := fromMemoryId;
             RelationshipRow.to_memory_id := toMemoryId;
             RelationshipRow.relationship_type := relationshipType;
             RelationshipRow.strength := strength;
             RelationshipRow.metadata := Some (JSON.stringify metadata);
             RelationshipRow.created_at := CURRENT_TIMESTAMP env |} db with
  | Err e => (Err e, db)
  | Ok db1 => (Ok id, db1)
  end.

(** The WHERE clause [getRelationships] assembles. *)
Definition where_clause (query : RelationshipQuery.t) (r : RelationshipRow.t) : bool :=
  let direction := default dir_both (RelationshipQuery.direction query) in
  let minStrength := default 0%Q (RelationshipQuery.minStrength query) in
  Qle_bool minStrength (RelationshipRow.strength r)
  && match truthy (RelationshipQuery.memoryId query) with
     | Some memoryId =>
         match direction with
         | dir_from => String.eqb (RelationshipRow.from_memory_id r) memoryId
         | dir_to => String.eqb (RelationshipRow.to_memory_id r) memoryId
         | dir_both =>
             String.eqb (RelationshipRow.from_memory_id r) memoryId
             || String.eqb (RelationshipRow.to_memory_id r) memoryId
         end
     | None => true
     end
  && match truthy (RelationshipQuery.relationshipType query) with
     | Some relationshipType =>
         String.eqb (RelationshipRow.relationship_type r) relationshipType
     | None => true
     end.

(** ORDER BY strength DESC, created_at DESC *)
Definition stronger (a b : RelationshipRow.t) : bool :=
  SQL.Qltb (RelationshipRow.strength b) (RelationshipRow.strength a)
  || (Qle_bool (RelationshipRow.strength b) (RelationshipRow.strength a)
      && (RelationshipRow.created_at b <=? RelationshipRow.created_at a)).

Definition relationship_rows (query : RelationshipQuery.t) (db : DB) :
  list RelationshipRow.t :=
  SQL.select stronger (where_clause query)
             (default 100 (RelationshipQuery.limit query)) (relationships db).

Definition getRelationships (query : RelationshipQuery.t) (db : DB) :
  outcome (list Relationship.t) :=
  mapM toRelationship (relationship_rows query db).

(** UPDATE relationships SET [strength = ?,] [metadata = ?] WHERE id = ? *)
Definition update_relationship_row (id : string) (strength : option Q)
           (metadata : option string) (db : DB) : nat * DB :=
  let hit r := String.eqb (RelationshipRow.id r) id in
  let upd r :=
    if hit r then
      {| RelationshipRow.id := RelationshipRow.id r;
         RelationshipRow.from_memory_id := RelationshipRow.from_memory_id r;
         RelationshipRow.to_memory_id := RelationshipRow.to_memory_id r;
         RelationshipRow.relationship_type := RelationshipRow.relationship_type r;
         RelationshipRow.strength :=
           match strength with Some x => x | None => RelationshipRow.strength r end;
         RelationshipRow.metadata :=
           match metadata with
           | Some m => Some m
           | None => RelationshipRow.metadata r
           end;
         RelationshipRow.created_at := RelationshipRow.created_at r |}
    else r in
  (length (List.filter hit (relationships db)),
   {| memories := memories db;
      relationships := map upd (relationships db);
      memory_embeddings := memory_embeddings db;
      vec0 := vec0 db; foreign_keys := foreign_keys db |}).

Definition updateRelationship (id : string) (strength : option Q)
           (metadata : option JSON.json) (db : DB) : bool * DB :=
  match strength, metadata with
  | None, None => (true, db)
  | _, _ =>
      let '(changes, db1) :=
        update_relationship_row id strength (option_map JSON.stringify metadata) db in
      (negb (Nat.eqb changes 0), db1)
  end.

Definition deleteRelationship (id : string) (db : DB) : bool * DB :=
  let hit r := String.eqb (RelationshipRow.id r) id in
  (negb (Nat.eqb (length (List.filter hit (relationships db))) 0),
   {| memories := memories db;
      relationships := List.filter (fun r => negb (hit r)) (relationships db);
      memory_embeddings := memory_embeddings db;
      vec0 := vec0 db; foreign_keys := foreign_keys db |}).

(** *** Traversal *)

(** The three collections the loop of [getConnectedMemories] maintains:
    [visited], [connectedIds] (a Set, kept in insertion order) and [queue]. *)
Record frontier : Type := mkFrontier {
  visited : gset string;
  connectedIds : list string;
  queue : list (string * Z) }.

Definition other_end (id : string) (rel : Relationship.t) : string :=
  if String.eqb (Relationship.from_memory_id rel) id
  then Relationship.to_memory_id rel
  else Relationship.from_memory_id rel.

Definition set_add (x : string) (l : list string) : list string :=
  if existsb (String.eqb x) l then l else l ++ [x].

(** What the inner [for] loop does with [nextId]. *)
Definition arrive (depth : Z) (st : frontier) (nextId : string) : frontier :=
  if decide (nextId ∈ visited st) then st
  else {| visited := visited st ∪ {[nextId]};
          connectedIds := set_add nextId (connectedIds st);
          queue := queue st ++ [(nextId, depth + 1)] |}.

(** The body of the inner [for] loop. *)
Definition visit (id : string) (depth : Z) (st : frontier) (rel : Relationship.t) :
  frontier :=
  arrive depth st (other_end id rel).

(** The query [{ memoryId: id }]. *)
Definition only_memory (id : string) : RelationshipQuery.t :=
  {| RelationshipQuery.memoryId := Some id;
     RelationshipQuery.relationshipType := None;
     RelationshipQuery.direction := None;
     RelationshipQuery.minStrength := None;
     RelationshipQuery.limit := None |}.

(** The [while] loop; [fuel] bounds the number of nodes taken from the
    queue, and [None] means the bound was too small. *)
Fixpoint traverse (db : DB) (maxDepth : Z) (fuel : nat) (st : frontier) :
  option (outcome (list string)) :=
  match queue st with
  | [] => Some (Ok (connectedIds st))
  | (id, depth) :: rest =>
      match fuel with
      | O => None
      | S fuel' =>
          let st' := {| visited := visited st;
                        connectedIds := connectedIds st;
                        queue := rest |} in
          if maxDepth <=? depth then traverse db maxDepth fuel' st'
          else
            match getRelationships (only_memory id) db with
            | Err e => Some (Err e)
            | Ok rels => traverse db maxDepth fuel' (fold_left (visit id depth) rels st')
            end
      end
  end.

(** Every node enters the queue once, and a node other than the start is an
    endpoint of some relationship. *)
Definition loop_bound (db : DB) : nat := S (2 * length (relationships db)).

Definition endpoint_list (db : DB) : list string :=
  flat_map (fun r => [RelationshipRow.from_memory_id r; RelationshipRow.to_memory_id r])
           (relationships db).

Definition endpoints (db : DB) : gset string := list_to_set (endpoint_list db).

(** What is left of the loop: the nodes waiting in the queue and the
    endpoints not yet visited. *)
Definition remaining (db : DB) (st : frontier) : nat :=
  (length (queue st) + size (endpoints db ∖ visited st))%nat.

(** The start node is visited, and is not among the connected ones. *)
Definition excludes (memoryId : string) (st : frontier) : Prop :=
  memoryId ∈ visited st /\ ~ In memoryId (connectedIds st).

(** The ids the inner loop meets when it expands [id], in order. *)
Definition neighbours (db : DB) (id : string) (ids : list string) : Prop :=
  exists rels, getRelationships (only_memory id) db = Ok rels
               /\ map (other_end id) rels = ids.

(** [other_end], read off the row. *)
Definition far_end (id : string) (row : RelationshipRow.t) : string :=
  if String.eqb (RelationshipRow.from_memory_id row) id
  then RelationshipRow.to_memory_id row
  else RelationshipRow.from_memory_id row.

(** The row [r] joins [x] and [y], in one direction or the other. *)
Definition links (r : RelationshipRow.t) (x y : string) : Prop :=
  (RelationshipRow.from_memory_id r = x /\ RelationshipRow.to_memory_id r = y)
  \/ (RelationshipRow.from_memory_id r = y /\ RelationshipRow.to_memory_id r = x).

Definition start (memoryId : string) : frontier :=
  {| visited := {[memoryId]}; connectedIds := []; queue := [(memoryId, 0)] |}.

Definition non_null {A} (l : list (option A)) : list A :=
  flat_map (fun o => match o with Some a => [a] | None => [] end) l.

Definition getConnectedMemories (memoryId : string) (maxDepth : option Z) (db : DB) :
  outcome (list Memory.t) :=
  match traverse db (default 2 maxDepth) (loop_bound db) (start memoryId) with
  | None => Err Unfinished
  | Some found =>
      bind found (fun ids =>
      bind (mapM (getMemory db) ids) (fun memories =>
      Ok (non_null memories)))
  end.

(** The databases the service can be left with: a file is opened, any number
    of times, and the operations that write are called in between, each
    with an identifier from [randomUUID], which is never empty. *)
Inductive reachable : DB -> Prop :=
| reach_fresh : reachable fresh
| reach_open vec_loaded db :
    reachable db -> reachable (initializeDatabase vec_loaded db)
| reach_addMemory env content metadata db :
    reachable db -> randomUUID env <> ""%string ->
    reachable (snd (addMemory env content metadata db))
| reach_updateMemory env id content metadata db :
    reachable db -> reachable (snd (updateMemory env id content metadata db))
| reach_deleteMemory id db :
    reachable db -> reachable (snd (deleteMemory id db))
| reach_addRelationship env from to type strength metadata db :
    reachable db -> randomUUID env <> ""%string ->
    reachable (snd (addRelationship env from to type strength metadata db))
| reach_updateRelationship id strength metadata db :
    reachable db -> reachable (snd (updateRelationship id strength metadata db))
| reach_deleteRelationship id db :
    reachable db -> reachable (snd (deleteRelationship id db)).

(** What holds of every such database: foreign keys are enforced, and no
    memory has the empty id. *)
Definition sound (db : DB) : Prop :=
  foreign_keys db = true
  /\ forall row, In row (memories db) -> MemoryRow.id row <> ""%string.

(** A chain A - B - C - D: four different, non-empty ids, and a
    relationships table of exactly three rows, one for each consecutive
    pair, each of strength at least 0 and with metadata that parses. *)
Record chain (db : DB) (A B C D : string) : Prop := mkChain {
  chain_distinct : A <> B /\ A <> C /\ A <> D /\ B <> C /\ B <> D /\ C <> D;
  chain_named :
    A <> ""%string /\ B <> ""%string /\ C <> ""%string /\ D <> ""%string;
  chain_links :
    exists r1 r2 r3,
      Permutation (relationships db) [r1; r2; r3]
      /\ links r1 A B /\ links r2 B C /\ links r3 C D
      /\ Forall (fun r => (0 <= RelationshipRow.strength r)%Q
                          /\ exists rel, toRelationship r = Ok rel) [r1; r2; r3] }.

(** ** Sample environments and databases *)

Module Examples.

(** A provider that is down, and one that answers with a unit vector. *)
Definition offline (uuid : string) (time : Z) : Env :=
  {| randomUUID := uuid; now := time; CURRENT_TIMESTAMP := time;
     generateEmbedding := fun _ => Err (ProviderError "Failed to generate embedding");
     vec_distance_cosine := fun _ _ => Err VectorError |}.

Definition online (uuid : string) (time : Z) : Env :=
  {| randomUUID := uuid; now := time; CURRENT_TIMESTAMP := time;
     generateEmbedding := fun _ => Ok (repeat 1%Q DIMENSION);
     vec_distance_cosine := fun _ _ => Ok 0%Q |}.

(** [env] with the two clocks set: the process's and SQLite's. *)
Definition clocks (env : Env) (process sqlite : Z) : Env :=
  {| randomUUID := randomUUID env; now := process; CURRENT_TIMESTAMP := sqlite;
     generateEmbedding := generateEmbedding env;
     vec_distance_cosine := vec_distance_cosine env |}.

Definition no_options : SearchOptions.t :=
  {| SearchOptions.limit := None; SearchOptions.threshold := None |}.

Definition fact : JSON.json := JSON.JObj [("type", JSON.JStr "fact")].

(** One memory whose metadata column does not hold JSON. *)
Definition db_malformed : DB :=
  {| memories :=
       [ {| MemoryRow.id := "m1"; MemoryRow.content := "a note";
            MemoryRow.metadata := Some "{oops";
            MemoryRow.created_at := 1; MemoryRow.updated_at := 1 |} ];
     relationships := [];
     memory_embeddings := [("m1", repeat 1%Q DIMENSION)];
     vec0 := true; foreign_keys := true |}.

(** An embedding row that outlived its memory: the memory was added with
    the extension loaded and deleted in a run in which it could not be
    loaded; then the file is opened with the extension again. *)
Definition db_stale : DB :=
  let db1 := snd (addMemory (online "m1" 1) "a note" None
                            (initializeDatabase true fresh)) in
  let db2 := snd (deleteMemory "m1" (initializeDatabase false db1)) in
  initializeDatabase true db2.

(** One memory, added through the service. *)
Definition db_paris : DB :=
  snd (addMemory (online "m1" 1) "Paris is the capital of France" (Some fact)
                 (initializeDatabase true fresh)).

Definition noon (uuid : string) : Env := online uuid 12.

(** A toy provider: the vector of a text starts with the code of its first
    character, and two vectors of the right dimension are as far apart as
    these codes, in 128ths. *)
Definition toy_vector (s : string) : vector :=
  match s with
  | EmptyString => repeat 0%Q DIMENSION
  | String c _ => (Z.of_N (N_of_ascii c) # 1)%Q :: repeat 0%Q (DIMENSION - 1)
  end.

Definition toy_distance (a b : vector) : outcome Q :=
  if Nat.eqb (length a) DIMENSION && Nat.eqb (length b) DIMENSION
  then Ok (Qabs (hd 0%Q a - hd 0%Q b) / 128)%Q
  else Err VectorError.

Definition toy (uuid : string) (time : Z) : Env :=
  {| randomUUID := uuid; now := time; CURRENT_TIMESTAMP := time;
     generateEmbedding := fun s => Ok (toy_vector s);
     vec_distance_cosine := toy_distance |}.

(** Two embedded memories. *)
Definition db_cities : DB :=
  let db1 := snd (addMemory (toy "m1" 1) "Paris is the capital of France" None
                            (initializeDatabase true fresh)) in
  snd (addMemory (toy "m2" 2) "Tokyo is the capital of Japan" None db1).

(** Two memories and one relationship between them, added through the
    service; [strength] is what the caller passes to [addRelationship]. *)
Definition db_pair (strength : option Q) : DB :=
  let db1 := snd (addMemory (noon "m1") "Paris is the capital of France" None
                            (initializeDatabase true fresh)) in
  let db2 := snd (addMemory (noon "m2") "France is in Europe" None db1) in
  snd (addRelationship (noon "r1") "m1" "m2" "relates_to" strength None db2).

(** The same pair, joined by a relationship of negative strength. *)
Definition db_weak : DB := db_pair (Some (-1)%Q).

(** A hub with 101 relationships of strength 1, written one per tick,
    added through the service. *)
Definition leaf (i : nat) : string :=
  ("leaf" ++ NilZero.string_of_uint (Nat.to_uint i))%string.

Definition add_leaf (db : DB) (i : nat) : DB :=
  let db1 := snd (addMemory (online (leaf i) 0) "leaf" None db) in
  snd (addRelationship (online ("r" ++ leaf i) (Z.of_nat i)) "hub" (leaf i) "has"
                       None None db1).

Definition db_star : DB :=
  fold_left add_leaf (seq 0 101)
            (snd (addMemory (online "hub" 0) "hub" None (initializeDatabase true fresh))).

(** Four memories in a chain m1 - m2 - m3 - m4, added through the service;
    the middle relationship points backwards, and [strength] is the
    strength of the first one. *)
Definition db_chain (strength : option Q) : DB :=
  let db1 := snd (addMemory (noon "m1") "A" None (initializeDatabase true fresh)) in
  let db2 := snd (addMemory (noon "m2") "B" None db1) in
  let db3 := snd (addMemory (noon "m3") "C" None db2) in
  let db4 := snd (addMemory (noon "m4") "D" None db3) in
  let db5 := snd (addRelationship (noon "r1") "m1" "m2" "next" strength None db4) in
  let db6 := snd (addRelationship (noon "r2") "m3" "m2" "next" (Some (1 # 2)%Q) None db5) in
  snd (addRelationship (noon "r3") "m3" "m4" "next" None None db6).

(** The row [addRelationship] writes at noon, without metadata. *)
Definition edge (id from to type : string) (strength : Q) : RelationshipRow.t :=
  {| RelationshipRow.id := id;
     RelationshipRow.from_memory_id := from;
     RelationshipRow.to_memory_id := to;
     RelationshipRow.relationship_type := type;
     RelationshipRow.strength := strength;
     RelationshipRow.metadata := Some "{}"%string;
     RelationshipRow.created_at := 12 |}.

Definition chain_row (id from to : string) (strength : Q) : RelationshipRow.t :=
  edge id from to "next" strength.

(** The three memories of the repository's relationship tests. *)
Definition db_tests : DB :=
  let db1 := snd (addMemory (noon "m1") "The capital of France is Paris" (Some fact)
                            (initializeDatabase true fresh)) in
  let db2 := snd (addMemory (noon "m2")
                            "Paris is a beautiful city with the Eiffel Tower" None db1) in
  snd (addMemory (noon "m3") "The Eiffel Tower was built in 1889" (Some fact) db2).

Definition about (id : string) (minStrength : option Q) (type : option string) :
  RelationshipQuery.t :=
  {| RelationshipQuery.memoryId := Some id;
     RelationshipQuery.relationshipType := type;
     RelationshipQuery.direction := None;
     RelationshipQuery.minStrength := minStrength;
     RelationshipQuery.limit := None |}.

Definition sample (id content : string) : Memory.t :=
  {| Memory.id := id; Memory.content := content; Memory.metadata := JSON.empty_object;
     Memory.created_at := 12; Memory.updated_at := 12 |}.

End Examples.

(** ** What the engine's constraints promise, and reading written documents *)

(** What [JSON.parse] makes of the text [JSON.stringify] wrote for a tree:
    the same tree, except that a property name written twice is assigned
    twice ([obj_set]), that NaN and the infinities, written [null], are
    read as null, and that the negative zero, written [0], is read as 0. *)
Module Normal.
Import JSON.

Definition assign (acc : list (string * json)) (kv : string * json) :
  list (string * json) :=
  obj_set (fst kv) (snd kv) acc.

Fixpoint normal (v : json) : json :=
  match v with
  | JNum x =>
      if Number.isFinite x
      then JNum (if Number.is_negative_zero x then Number.zero else x)
      else JNull
  | JArr l => JArr (map normal l)
  | JObj m => JObj (fold_left assign (map (fun kv => (fst kv, normal (snd kv))) m) [])
  | _ => v
  end.

Definition reads_normal (v : json) : Prop :=
  forall fuel rest, (weight v <= fuel)%nat -> rest_ok rest ->
  parse_value fuel (print v ++ rest) = Some (normal v, rest).

End Normal.


(** The primary keys of the three tables, the declared dimension of the
    embedding column and the two foreign keys of [relationships]. *)
Record consistent (db : DB) : Prop := mkConsistent {
  memory_ids_unique : NoDup (map MemoryRow.id (memories db));
  relationship_ids_unique : NoDup (map RelationshipRow.id (relationships db));
  embedding_ids_unique : NoDup (map fst (memory_embeddings db));
  embedding_dimension :
    forall id v, In (id, v) (memory_embeddings db) -> length v = DIMENSION;
  endpoints_stored :
    forall r, In r (relationships db) ->
              has_memory db (RelationshipRow.from_memory_id r) = true
              /\ has_memory db (RelationshipRow.to_memory_id r) = true }.

(** Every metadata column holds a document [JSON.parse] accepts. *)
Definition readable (db : DB) : Prop :=
  (forall row, In row (memories db) -> exists m, toMemory row = Ok m)
  /\ (forall row, In row (relationships db) -> exists rel, toRelationship row = Ok rel).

(** Some relationship joins [x] and [y]; a walk of [n] relationships. *)
Definition adjacent (db : DB) (x y : string) : Prop :=
  exists r, In r (relationships db) /\ links r x y.

Inductive walk (db : DB) (x : string) : nat -> string -> Prop :=
| walk_here : walk db x 0 x
| walk_step n y z : walk db x n y -> adjacent db y z -> walk db x (S n) z.

(** The order of the rows [getRelationships] returns, on the records. *)
Definition not_weaker (a b : Relationship.t) : Prop :=
  (Relationship.strength b < Relationship.strength a)%Q
  \/ ((Relationship.strength b == Relationship.strength a)%Q
      /\ Relationship.created_at b <= Relationship.created_at a).

(** What a query asks of a relationship. *)
Definition asked (query : RelationshipQuery.t) (rel : Relationship.t) : Prop :=
  (default 0%Q (RelationshipQuery.minStrength query) <= Relationship.strength rel)%Q
  /\ (forall memoryId,
        truthy (RelationshipQuery.memoryId query) = Some memoryId ->
        match default dir_both (RelationshipQuery.direction query) with
        | dir_from => Relationship.from_memory_id rel = memoryId
        | dir_to => Relationship.to_memory_id rel = memoryId
        | dir_both =>
            Relationship.from_memory_id rel = memoryId
            \/ Relationship.to_memory_id rel = memoryId
        end)
  /\ (forall relationshipType,
        truthy (RelationshipQuery.relationshipType query) = Some relationshipType ->
        Relationship.relationship_type rel = relationshipType).

(** What the loop of [getConnectedMemories] keeps true of its collections:
    a queued node is named and lies at the end of a walk from the start as
    long as its depth, and a connected id at the end of a walk of at least
    one and at most [maxDepth] relationships. *)
Definition linked (db : DB) (memoryId : string) (maxDepth : Z) (st : frontier) : Prop :=
  (forall x d, In (x, d) (queue st) ->
               x <> ""%string /\ exists n, d = Z.of_nat n /\ walk db memoryId n x)
  /\ (forall x, In x (connectedIds st) ->
                exists n, (1 <= n)%nat /\ Z.of_nat n <= maxDepth
                          /\ walk db memoryId n x).

(** The breadth-first order of the loop, for the proof that it misses
    nothing: [depth_of] gives every visited node the depth at which it
    entered the queue, the start being at depth 0; while the nodes of depth
    [cur] are being expanded, the queue holds depths [cur] and [cur + 1],
    in this order, every visited node other than the start is among the
    connected ones, and a node that has left the queue was entered no
    deeper than [cur] and, if its depth is below [maxDepth], has all its
    neighbours visited, none more than one level below it. *)
Record explored (db : DB) (memoryId : string) (maxDepth cur : Z)
       (depth_of : string -> option Z) (st : frontier) : Prop := mkExplored {
  ex_visited : forall x, x ∈ visited st <-> depth_of x <> None;
  ex_named : forall x, depth_of x <> None -> x <> ""%string;
  ex_start : depth_of memoryId = Some 0;
  ex_queue : forall x d, In (x, d) (queue st) ->
                         depth_of x = Some d /\ cur <= d <= cur + 1;
  ex_sorted : StronglySorted (fun a b : string * Z => snd a <= snd b) (queue st);
  ex_connected : forall x, x ∈ visited st -> x <> memoryId -> In x (connectedIds st);
  ex_left : forall x d, depth_of x = Some d -> ~ In x (map fst (queue st)) -> d <= cur;
  ex_closed : forall x d y,
      depth_of x = Some d -> ~ In x (map fst (queue st)) -> d < maxDepth ->
      adjacent db x y -> exists d', depth_of y = Some d' /\ d' <= d + 1 }.

(** ** Starting the embedding provider (ollama.ts) *)

Module Ollama.

(** What [ensureOllamaRunning] meets outside the process: whether the
    request number [n] to [/api/version] is answered ([fetch] resolves,
    with whatever status) or not ([fetch] rejects), the first request
    being number 0, and whether [which ollama] finds the program. *)
Record World : Type := mkWorld {
  answered : nat -> bool;
  installed : bool }.

(** A thrown [Error] with its message. *)
Inductive thrown : Type := Thrown (message : string).

(** What a run did: how it ended ([None]: the promise resolved), the
    requests it sent, the milliseconds it spent in [setTimeout], and
    whether it spawned [ollama serve]. *)
Record run : Type := mkRun {
  result : option thrown;
  requests : nat;
  waited : Z;
  spawned : bool }.

(** The line feed, and the bullet U+2022 as the three bytes of its UTF-8 form. *)
Definition newline : string := String (ascii_of_nat 10) "".
Definition bullet : string :=
  String (ascii_of_nat 226) (String (ascii_of_nat 128) (String (ascii_of_nat 162) "")).

Definition not_installed_message : string :=
  ("Ollama is not installed. Please install Ollama first:" ++ newline
   ++ bullet ++ " macOS: brew install ollama" ++ newline
   ++ bullet ++ " Linux: curl -fsSL https://ollama.ai/install.sh | sh" ++ newline
   ++ bullet ++ " Windows: Download from https://ollama.ai/download")%string.

Definition timeout_message : string :=
  ("Failed to start Ollama after 30 seconds. Please check:" ++ newline
   ++ bullet ++ " Ollama is properly installed" ++ newline
   ++ bullet ++ " No other process is using port 11434" ++ newline
   ++ bullet ++ " Try running 'ollama serve' manually first")%string.

(** The outer [catch (startError)]: an error that says [not installed] is
    thrown again, any other is wrapped ([`${startError}`] is the name
    [Error], a colon and the message). *)
Definition rethrow (startError : thrown) : thrown :=
  let 'Thrown message := startError in
  if includes message "not installed" then startError
  else Thrown ("Failed to ensure Ollama is running: " ++ "Error: " ++ message ++ newline
               ++ "Please try starting Ollama manually: 'ollama serve'")%string.

(** The [while (retries > 0)] loop: the retries left when it ends, and the
    number of the next request. *)
Fixpoint poll (answered : nat -> bool) (request retries : nat) : nat * nat :=
  match retries with
  | O => (O, request)
  | S retries' =>
      if answered request then (retries, S request)
      else poll answered (S request) retries'
  end.

Definition ensureOllamaRunning (w : World) : run :=
  if answered w 0 then
    {| result := None; requests := 1; waited := 0; spawned := false |}
  else if negb (installed w) then
    (* startOllama throws before it spawns or waits *)
    {| result := Some (rethrow (Thrown not_installed_message));
       requests := 1; waited := 0; spawned := false |}
  else
    let '(retries, request) := poll (answered w) 1 30 in
    let waited := 2000 + 1000 * Z.of_nat (30 - retries) in
    if Nat.eqb retries 0 then
      {| result := Some (rethrow (Thrown timeout_message));
         requests := request; waited := waited; spawned := true |}
    else
      {| result := None; requests := request; waited := waited; spawned := true |}.

(** A server that comes up after [n] unanswered requests. *)
Definition up_after (n : nat) : World :=
  {| answered := fun request => Nat.leb n request; installed := true |}.

End Ollama.

(* ===================================================================== *)
(** * Facts *)

(** ** JSON: reading back what was written *)

(** ** Numbers: digits, rounding, and what Number::toString writes *)

Module NumberFacts.
Import Number.

Lemma number_eq (x y : t) : bits x = bits y -> x = y.
Proof.
  destruct x as [x Hx], y as [y Hy]. cbn. intros <-.
  f_equal. apply Eqdep_dec.UIP_dec, Bool.bool_dec.
Qed.

Lemma bits_make x : valid x = true -> bits (make x) = x.
Proof.
  intros H. unfold make.
  assert (G : forall b (E : valid x = b),
             b = true ->
             bits (match b as b0 return valid x = b0 -> t with
                   | true => fun H => {| bits := x; bits_valid := H |}
                   | false => fun _ => nan
                   end E) = x).
  { intros b E ->. reflexivity. }
  apply G, H.
Qed.

Lemma make_bits (x : t) : make (bits x) = x.
Proof. apply number_eq, bits_make, bits_valid. Qed.

(** *** Digits *)

Lemma digit_value_digit d : 0 <= d < 10 -> digit_value (digit d) = d.
Proof.
  intros H. unfold digit_value, digit.
  rewrite N_ascii_embedding by lia. lia.
Qed.

Lemma is_digit_digit d : 0 <= d < 10 -> is_digit (digit d) = true.
Proof.
  intros H. unfold is_digit, digit. cbv zeta.
  rewrite N_ascii_embedding by lia.
  apply andb_true_intro. split; apply N.leb_le; lia.
Qed.

Lemma is_zero_digit d : 0 < d < 10 -> is_zero (digit d) = false.
Proof.
  intros H. unfold is_zero, digit.
  rewrite N_ascii_embedding by lia. apply N.eqb_neq. lia.
Qed.

Lemma value_snoc ds c : value (ds ++ [c]) = 10 * value ds + digit_value c.
Proof. unfold value. rewrite fold_left_app. reflexivity. Qed.

Lemma value_app ds ds' :
  value (ds ++ ds') = value ds * 10 ^ Z.of_nat (length ds') + value ds'.
Proof.
  induction ds' as [|c ds' IH] using rev_ind.
  - rewrite app_nil_r. change (value []) with 0. cbn [length Z.of_nat]. lia.
  - rewrite app_assoc, !value_snoc, IH, length_app. cbn [length].
    rewrite Nat.add_1_r, Nat2Z.inj_succ, Z.pow_succ_r by lia. lia.
Qed.

Lemma digits_onto_app fuel n acc :
  digits_onto fuel n acc = digits_onto fuel n [] ++ acc.
Proof.
  revert n acc. induction fuel as [|f IH]; intros n acc; [reflexivity|].
  cbn [digits_onto]. destruct (n <? 10); [reflexivity|].
  rewrite (IH _ (_ :: acc)), (IH _ [_]), <- app_assoc. reflexivity.
Qed.

Lemma digits_onto_spec fuel n :
  0 <= n < 2 ^ Z.of_nat fuel ->
  value (digits_onto fuel n []) = n
  /\ Forall (fun c => is_digit c = true) (digits_onto fuel n [])
  /\ (0 < n -> exists c t, digits_onto fuel n [] = c :: t /\ is_zero c = false).
Proof.
  revert n. induction fuel as [|f IH]; intros n Hn.
  - cbn in Hn. assert (n = 0) as -> by lia. repeat split; [constructor|lia].
  - cbn [digits_onto]. destruct (Z.ltb_spec n 10) as [Hlt|Hge].
    + repeat split.
      * unfold value. cbn. rewrite digit_value_digit; lia.
      * repeat constructor. apply is_digit_digit. lia.
      * intros Hpos. eexists _, _. split; [reflexivity|]. apply is_zero_digit. lia.
    + rewrite Nat2Z.inj_succ, Z.pow_succ_r in Hn by lia.
      destruct (IH (n / 10)) as (Hv & Hd & Hh).
      { split; [apply Z.div_pos; lia|]. apply Z.div_lt_upper_bound; lia. }
      rewrite digits_onto_app. repeat split.
      * rewrite value_snoc, Hv, digit_value_digit by (apply Z.mod_pos_bound; lia).
        pose proof (Z.div_mod n 10). lia.
      * apply Forall_app. split; [exact Hd|]. repeat constructor.
        apply is_digit_digit, Z.mod_pos_bound. lia.
      * intros _. destruct Hh as (c & t & E & Hc).
        { apply Z.div_str_pos. lia. }
        rewrite E. cbn. eauto.
Qed.

Lemma digits_spec n :
  0 <= n ->
  value (digits n) = n
  /\ Forall (fun c => is_digit c = true) (digits n)
  /\ (0 < n -> exists c t, digits n = c :: t /\ is_zero c = false).
Proof.
  intros Hn. apply digits_onto_spec. split; [assumption|].
  rewrite Nat2Z.inj_succ, Z2Nat.id by apply Z.log2_nonneg.
  destruct (Z.eq_dec n 0) as [->|]; [reflexivity|].
  apply Z.log2_spec. lia.
Qed.

Lemma digits_nonempty n : digits n <> [].
Proof.
  unfold digits. cbn [digits_onto]. destruct (n <? 10); [discriminate|].
  rewrite digits_onto_app. intros H. apply app_eq_nil in H as [_ H]. discriminate.
Qed.

Lemma drop_zeros_digits ds :
  Forall (fun c => is_digit c = true) ds ->
  Forall (fun c => is_digit c = true) (drop_zeros ds).
Proof.
  induction 1 as [|c ds Hc Hds IH]; [constructor|].
  cbn. destruct (is_zero c); [assumption|now constructor].
Qed.

Lemma drop_zeros_snoc ds c :
  is_zero c = false -> drop_zeros (ds ++ [c]) = drop_zeros ds ++ [c].
Proof.
  intros Hc. induction ds as [|d ds IH]; cbn; [now rewrite Hc|].
  destruct (is_zero d); [assumption|reflexivity].
Qed.

Lemma strip_zeros_spec c ds :
  is_zero c = false -> Forall (fun c => is_digit c = true) (c :: ds) ->
  exists ds', strip_zeros (c :: ds) = c :: ds'
              /\ Forall (fun c => is_digit c = true) (c :: ds').
Proof.
  intros Hc Hd. unfold strip_zeros. cbn [rev].
  rewrite drop_zeros_snoc, rev_app_distr by assumption. cbn.
  eexists. split; [reflexivity|].
  inversion Hd; subst. constructor; [assumption|].
  apply Forall_rev, drop_zeros_digits, Forall_rev. assumption.
Qed.

Lemma value_zeros n : value (zeros n) = 0.
Proof.
  unfold zeros. induction (Z.to_nat n) as [|k IH]; [reflexivity|].
  change (repeat "0"%char (S k)) with (["0"%char] ++ repeat "0"%char k).
  rewrite value_app, IH. reflexivity.
Qed.

Lemma zeros_digits n : Forall (fun c => is_digit c = true) (zeros n).
Proof.
  unfold zeros. induction (Z.to_nat n); cbn; constructor; auto.
Qed.

Lemma length_zeros n : 0 <= n -> Z.of_nat (length (zeros n)) = n.
Proof. intros H. unfold zeros. rewrite repeat_length. lia. Qed.

(** *** Rounding *)

Lemma round_half_even_exact m b : 0 < b -> round_half_even (m * b) b = m.
Proof.
  intros Hb. unfold round_half_even.
  rewrite Z.mod_mul, Z.div_mul by lia.
  destruct (Z.compare_spec (2 * 0) b); lia.
Qed.

Lemma log2_shift m k : 0 < m -> 0 <= k -> Z.log2 (m * 2 ^ k) = Z.log2 m + k.
Proof. intros Hm Hk. rewrite <- Z.shiftl_mul_pow2 by lia. apply Z.log2_shiftl; lia. Qed.

(** A rational that is a double is its own nearest double. *)
Lemma nearest_exact negative a b m e :
  valid (Finite negative m e) = true -> 0 < b ->
  (if 0 <=? e then a = m * 2 ^ e * b else a * 2 ^ (- e) = m * b) ->
  nearest negative a b = Finite negative m e.
Proof.
  intros Hv Hb Hab. cbn [valid] in Hv.
  repeat (apply andb_prop in Hv as [Hv ?]).
  assert (Hm0 : 0 <= m) by lia. assert (Hm1 : m < 2 ^ 53) by lia.
  assert (He0 : -1074 <= e) by lia. assert (He1 : e <= 971) by lia.
  assert (Hn : 2 ^ 52 <= m \/ e = -1074).
  { apply orb_prop in H as [H|H]; [left|right]; lia. }
  clear Hv H H0 H1 H2.
  assert (Hq : a * 2 ^ 1074 / b = m * 2 ^ (e + 1074)).
  { destruct (Z.leb_spec 0 e) as [He|He].
    - subst a. rewrite Z.pow_add_r by lia.
      replace (m * 2 ^ e * b * 2 ^ 1074) with (m * (2 ^ e * 2 ^ 1074) * b) by ring.
      apply Z.div_mul. lia.
    - replace (2 ^ 1074) with (2 ^ (- e) * 2 ^ (e + 1074))
        by (rewrite <- Z.pow_add_r by lia; f_equal; lia).
      replace (a * (2 ^ (- e) * 2 ^ (e + 1074)))
        with (a * 2 ^ (- e) * 2 ^ (e + 1074)) by ring.
      rewrite Hab.
      replace (m * b * 2 ^ (e + 1074)) with (m * 2 ^ (e + 1074) * b) by ring.
      apply Z.div_mul. lia. }
  assert (Hexp : Z.max (-1074) (Z.log2 (a * 2 ^ 1074 / b) - 1126) = e).
  { rewrite Hq. destruct (Z.eq_dec m 0) as [->|Hm].
    - rewrite Z.mul_0_l. change (Z.log2 0) with 0. lia.
    - rewrite log2_shift by lia.
      assert (Z.log2 m < 53) by (apply Z.log2_lt_pow2; lia).
      destruct Hn as [Hn| ->]; [|lia].
      assert (52 <= Z.log2 m) by (apply Z.log2_le_pow2; lia). lia. }
  unfold nearest. rewrite Hexp. cbv zeta.
  assert (Hr : (if 0 <=? e then round_half_even a (b * 2 ^ e)
                else round_half_even (a * 2 ^ (- e)) b) = m).
  { destruct (Z.leb_spec 0 e) as [He|He].
    - subst a. replace (m * 2 ^ e * b) with (m * (b * 2 ^ e)) by ring.
      apply round_half_even_exact.
      apply Z.mul_pos_pos; [lia|]. apply Z.pow_pos_nonneg; lia.
    - rewrite Hab. apply round_half_even_exact. lia. }
  rewrite Hr.
  destruct (Z.eqb_spec m (2 ^ 53)); [lia|].
  destruct (Z.ltb_spec 971 e); [lia|reflexivity].
Qed.


Lemma bits_make_if x : bits (make x) = if valid x then x else NaN.
Proof.
  unfold make.
  assert (G : forall b (E : valid x = b),
             bits (match b as b0 return valid x = b0 -> t with
                   | true => fun H => {| bits := x; bits_valid := H |}
                   | false => fun _ => nan
                   end E) = if b then x else NaN).
  { intros [] E; reflexivity. }
  apply G.
Qed.

Lemma nearest_sign negative a b :
  nearest negative a b
  = match nearest false a b with
    | Finite _ m e => Finite negative m e
    | Infinity _ => Infinity negative
    | NaN => NaN
    end.
Proof.
  unfold nearest. cbv zeta.
  destruct (if _ =? 2 ^ 53 then _ else _) as [m e].
  destruct (971 <? e); reflexivity.
Qed.

Lemma of_decimal_sign negative d x m e :
  bits (of_decimal false d x) = Finite false m e ->
  bits (of_decimal negative d x) = Finite negative m e.
Proof.
  unfold of_decimal. rewrite !bits_make_if.
  set (a := if 0 <=? x then d * 10 ^ x else d).
  set (b := if 0 <=? x then 1 else 10 ^ (- x)).
  replace (if 0 <=? x then nearest false (d * 10 ^ x) 1
           else nearest false d (10 ^ (- x))) with (nearest false a b)
    by (subst a b; now destruct (0 <=? x)).
  replace (if 0 <=? x then nearest negative (d * 10 ^ x) 1
           else nearest negative d (10 ^ (- x))) with (nearest negative a b)
    by (subst a b; now destruct (0 <=? x)).
  rewrite (nearest_sign negative).
  destruct (nearest false a b) as [|s|s m' e'] eqn:E; cbn [valid].
  - discriminate.
  - discriminate.
  - destruct (_ && _); [|discriminate]. intros [= _ -> ->]. reflexivity.
Qed.

(** The decimal expansion of a double is read as that double. *)
Lemma expansion_writes m e :
  valid (Finite false m e) = true -> 0 < m ->
  let ds := fst (expansion m e) in
  let n := snd (expansion m e) in
  bits (of_decimal false (value ds) (n - Z.of_nat (length ds))) = Finite false m e
  /\ Forall (fun c => is_digit c = true) ds
  /\ exists c t, ds = c :: t /\ is_zero c = false.
Proof.
  intros Hv Hm. unfold expansion, of_decimal.
  assert (He : -1074 <= e).
  { cbn [valid] in Hv. repeat (apply andb_prop in Hv as [Hv ?]). lia. }
  destruct (Z.leb_spec 0 e) as [Hpos|Hneg]; cbn [fst snd].
  - assert (Hc : 0 < m * 2 ^ e)
      by (apply Z.mul_pos_pos; [lia|apply Z.pow_pos_nonneg; lia]).
    destruct (digits_spec (m * 2 ^ e)) as (Hval & Hd & Hh); [lia|].
    rewrite Hval, Z.sub_diag. cbn [Z.leb Z.compare].
    repeat split; [|exact Hd|exact (Hh Hc)].
    rewrite bits_make_if.
    rewrite (nearest_exact false _ 1 m e Hv); [now rewrite Hv|lia|].
    destruct (Z.leb_spec 0 e); [|lia]. change (10 ^ 0) with 1. lia.
  - assert (Hc : 0 < m * 5 ^ (- e))
      by (apply Z.mul_pos_pos; [lia|apply Z.pow_pos_nonneg; lia]).
    destruct (digits_spec (m * 5 ^ (- e))) as (Hval & Hd & Hh); [lia|].
    rewrite Hval.
    replace (Z.of_nat (length (digits (m * 5 ^ (- e)))) + e
             - Z.of_nat (length (digits (m * 5 ^ (- e))))) with e by lia.
    destruct (Z.leb_spec 0 e); [lia|].
    repeat split; [|exact Hd|exact (Hh Hc)].
    rewrite bits_make_if.
    rewrite (nearest_exact false _ (10 ^ (- e)) m e Hv); [now rewrite Hv| |].
    + apply Z.pow_pos_nonneg; lia.
    + destruct (Z.leb_spec 0 e); [lia|].
      change 10 with (5 * 2). rewrite Z.pow_mul_l. ring.
Qed.

(** What Number::toString writes is read as the double written. *)
Lemma shortest_writes m e :
  valid (Finite false m e) = true -> 0 < m ->
  exists c ds n,
    shortest m e = (c :: ds, n)
    /\ is_zero c = false
    /\ Forall (fun c => is_digit c = true) (c :: ds)
    /\ bits (of_decimal false (value (c :: ds)) (n - Z.of_nat (length (c :: ds))))
       = Finite false m e.
Proof.
  intros Hv Hm. unfold shortest.
  destruct (if 0 <=? e then _ else _) as [a b].
  destruct (List.find _ _) as [[ds n]|] eqn:Hfind.
  - apply find_some in Hfind as [Hin Hw]. cbn [fst snd] in Hw.
    apply in_flat_map in Hin as (k & Hk & Hin). apply in_seq in Hk.
    unfold candidates in Hin.
    destruct (if 0 <=? _ then _ else _) as [num den].
    apply in_map_iff in Hin as (s & [= <- <-] & Hin).
    apply filter_In in Hin as [_ Hs]. apply Z.leb_le in Hs.
    assert (Hpos : 0 < s).
    { assert (0 < 10 ^ (Z.of_nat k - 1)) by (apply Z.pow_pos_nonneg; lia). lia. }
    destruct (digits_spec s) as (_ & Hd & Hh); [lia|].
    destruct (Hh Hpos) as (c & t & E & Hc). rewrite E in Hd.
    destruct (strip_zeros_spec c t Hc Hd) as (ds' & Hstrip & Hd').
    rewrite E, Hstrip in *. eexists c, ds', _.
    split; [reflexivity|]. repeat split; try assumption.
    unfold writes in Hw. now apply bool_decide_eq_true in Hw.
  - destruct (expansion_writes m e Hv Hm) as (Hw & Hd & c & t & E & Hc).
    destruct (expansion m e) as [ds n]. cbn [fst snd] in *. subst ds.
    exists c, t, n. repeat split; assumption.
Qed.

Lemma of_decimal_zeros negative v k :
  0 <= k -> of_decimal negative (v * 10 ^ k) 0 = of_decimal negative v k.
Proof.
  intros Hk. unfold of_decimal. destruct (Z.leb_spec 0 k); [|lia].
  cbn [Z.leb Z.compare]. change (10 ^ 0) with 1. now rewrite Z.mul_1_r.
Qed.

Lemma valid_zero negative e : valid (Finite negative 0 e) = true -> e = -1074.
Proof.
  cbn [valid]. intros H. apply andb_prop in H as [_ H].
  change (2 ^ 52 <=? 0) with false in H. cbn [orb] in H. lia.
Qed.

Lemma valid_mantissa negative m e : valid (Finite negative m e) = true -> 0 <= m.
Proof.
  cbn [valid]. intros H. repeat (apply andb_prop in H as [H _]). lia.
Qed.

End NumberFacts.

Module JSONFacts.
Import JSON Number NumberFacts.

Example stringify_sample :
  stringify (JObj [("type", JStr "fact"); ("n", JNum (of_Z (-12)));
                   ("l", JArr [JNull; JBool true])])
  = ("{" ++ quoted "type" ++ ":" ++ quoted "fact" ++ "," ++ quoted "n" ++ ":-12,"
         ++ quoted "l" ++ ":[null,true]}")%string.
Proof. vm_compute. reflexivity. Qed.

(** 0.5 and 0.1 as doubles; the decimal 9007199254740993, half way between
    two doubles, is read as the even one. *)
Example doubles :
  bits (of_decimal false 5 (-1)) = Finite false (2 ^ 52) (-53)
  /\ bits (of_decimal false 1 (-1)) = Finite false 7205759403792794 (-56)
  /\ of_decimal false 9007199254740993 0 = of_Z 9007199254740992
  /\ bits (of_decimal false 1 400) = Infinity false.
Proof. repeat split; vm_compute; reflexivity. Qed.

Example stringify_numbers :
  stringify (JArr [JNum (of_decimal false 5 (-1)); JNum (of_decimal false 1 21);
                   JNum (of_decimal false 1 20); JNum (of_decimal false 1 (-7));
                   JNum (of_decimal false 30000000000000004 (-17));
                   JNum (of_decimal true 0 0); JNum nan;
                   JNum (of_decimal true 1 400)])
  = "[0.5,1e+21,100000000000000000000,1e-7,0.30000000000000004,0,null,null]"%string.
Proof. vm_compute. reflexivity. Qed.

Example parse_numbers :
  parse "[0.5, 1e+21, 1E2, -0.0, 1e400]"
  = Some (JArr [JNum (of_decimal false 5 (-1)); JNum (of_decimal false 1 21);
                JNum (of_Z 100); JNum (of_decimal true 0 0);
                JNum (make (Infinity false))])
  /\ parse "01" = None /\ parse "1." = None /\ parse ".5" = None
  /\ parse "1e" = None /\ parse "-" = None /\ parse "+1" = None.
Proof. repeat split; vm_compute; reflexivity. Qed.

(** Escapes: U+00E9 is the bytes C3 A9, the pair D83D DE00 is U+1F600. *)
Example parse_escapes :
  parse (quoted "\u00e9") = Some (JStr (string_of_list_ascii (utf8 233)))
  /\ utf8 233 = [ascii_of_N 195; ascii_of_N 169]
  /\ parse (quoted "\ud83d\ude00")
     = Some (JStr (string_of_list_ascii
                     [ascii_of_N 240; ascii_of_N 159; ascii_of_N 152; ascii_of_N 128]))
  /\ parse (quoted "a\nb") = Some (JStr (String "a" (String (ascii_of_N 10) "b"))).
Proof. repeat split; vm_compute; reflexivity. Qed.

Example parse_malformed : parse "{oops" = None.
Proof. vm_compute. reflexivity. Qed.

Example parse_empty_text : parse "" = None.
Proof. vm_compute. reflexivity. Qed.

Example parse_empty_object : parse "{}" = Some empty_object.
Proof. vm_compute. reflexivity. Qed.

Lemma parse_chars_escape c r :
  parse_chars (escape_char c ++ r) = cons_fst c (parse_chars r).
Proof.
  destruct c as [[] [] [] [] [] [] [] []]; reflexivity.
Qed.

Lemma parse_chars_quoted l r :
  parse_chars (flat_map escape_char l ++ dquote :: r) = Some (l, r).
Proof.
  induction l as [|c l IH]; [reflexivity|].
  cbn [flat_map]. rewrite <- app_assoc, parse_chars_escape, IH. reflexivity.
Qed.

Lemma digit_not_continued c :
  is_digit c = true ->
  Ascii.eqb c "-"%char = false /\ Ascii.eqb c "."%char = false
  /\ Ascii.eqb c "e"%char = false /\ Ascii.eqb c "E"%char = false
  /\ Ascii.eqb c "+"%char = false.
Proof.
  destruct c as [[] [] [] [] [] [] [] []]; intros H;
    try (vm_compute in H; discriminate H); repeat split.
Qed.

Lemma span_digits_app ds r :
  Forall (fun c => is_digit c = true) ds ->
  match r with c :: _ => is_digit c = false | [] => True end ->
  span_digits (ds ++ r) = (ds, r).
Proof.
  induction 1 as [|c ds Hc _ IH]; intros Hr.
  - destruct r as [|c r]; [reflexivity|]. cbn. now rewrite Hr.
  - cbn. rewrite Hc, IH by assumption. reflexivity.
Qed.

Lemma rest_ok_digit r :
  rest_ok r -> match r with c :: _ => is_digit c = false | [] => True end.
Proof.
  destruct r as [|c r]; [trivial|]. unfold rest_ok, continues.
  intros H. repeat (apply orb_false_elim in H as [H _]). exact H.
Qed.

Lemma exponent_read x rest :
  rest_ok rest ->
  exponent (exponent_text x ++ rest) = Some (default 0 x, rest).
Proof.
  intros Hr. destruct x as [x|]; cbn [exponent_text app]; cbv [default from_option id].
  - unfold exponent_part, exponent. cbn [app].
    change (Ascii.eqb "e" "e") with true. cbn [orb].
    destruct (digits_spec (Z.abs x)) as (Hv & Hd & _); [lia|].
    pose proof (digits_nonempty (Z.abs x)) as Hne.
    destruct (Z.leb_spec 0 x).
    + change (Ascii.eqb "+" "-") with false. change (Ascii.eqb "+" "+") with true.
      cbv iota. rewrite span_digits_app by (try assumption; now apply rest_ok_digit).
      rewrite Hv. destruct (digits (Z.abs x)); [contradiction|]. f_equal. f_equal. lia.
    + change (Ascii.eqb "-" "-") with true.
      cbv iota. rewrite span_digits_app by (try assumption; now apply rest_ok_digit).
      rewrite Hv. destruct (digits (Z.abs x)); [contradiction|]. f_equal. f_equal. lia.
  - destruct rest as [|c r]; [reflexivity|]. unfold exponent.
    unfold rest_ok, continues in Hr.
    apply orb_false_elim in Hr as [Hr HE]. apply orb_false_elim in Hr as [_ He].
    now rewrite He, HE.
Qed.

Lemma exponent_text_head x rest :
  rest_ok rest ->
  match exponent_text x ++ rest with
  | c :: _ => is_digit c = false /\ Ascii.eqb c "."%char = false
  | [] => True
  end.
Proof.
  intros Hr. destruct x as [x|]; cbn; [split; reflexivity|].
  destruct rest as [|c r]; [trivial|]. unfold rest_ok, continues in Hr.
  apply orb_false_elim in Hr as [Hr _]. apply orb_false_elim in Hr as [Hr _].
  apply orb_false_elim in Hr as [Hd Hp]. now split.
Qed.

Lemma fraction_read frac x rest :
  Forall (fun c => is_digit c = true) frac -> rest_ok rest ->
  fraction (fraction_text frac ++ exponent_text x ++ rest)
  = Some (frac, exponent_text x ++ rest).
Proof.
  intros Hd Hr. pose proof (exponent_text_head x rest Hr) as Hh.
  destruct frac as [|f frac]; cbn [fraction_text app].
  - unfold fraction. destruct (exponent_text x ++ rest) as [|c r]; [reflexivity|].
    destruct Hh as [_ ->]. reflexivity.
  - unfold fraction. change (Ascii.eqb "." ".") with true. cbv iota.
    change (f :: frac ++ exponent_text x ++ rest)
      with ((f :: frac) ++ exponent_text x ++ rest).
    rewrite span_digits_app; [reflexivity|assumption|].
    destruct (exponent_text x ++ rest); [trivial|apply Hh].
Qed.

Lemma fraction_text_head frac x rest :
  rest_ok rest ->
  match fraction_text frac ++ exponent_text x ++ rest with
  | c :: _ => is_digit c = false
  | [] => True
  end.
Proof.
  intros Hr. destruct frac; cbn [fraction_text app]; [|reflexivity].
  pose proof (exponent_text_head x rest Hr).
  destruct (exponent_text x ++ rest); [trivial|tauto].
Qed.

(** A number in the form JSON gives it is read whole. *)
Lemma parse_number_token (negative : bool) c int frac x rest :
  Forall (fun c => is_digit c = true) (c :: int) ->
  Forall (fun c => is_digit c = true) frac ->
  (is_zero c = true -> int = []) ->
  rest_ok rest ->
  parse_number ((if negative then ["-"%char] else [])
                  ++ (c :: int) ++ fraction_text frac ++ exponent_text x ++ rest)
  = Some (of_decimal negative (value (c :: int ++ frac))
                     (default 0 x - Z.of_nat (length frac)), rest).
Proof.
  intros Hint Hfrac Hzero Hr.
  assert (Hc : Ascii.eqb c "-"%char = false).
  { inversion Hint; subst. now apply digit_not_continued. }
  assert (Hlead : is_zero c && negb (bool_decide (int = [])) = false).
  { destruct (is_zero c); [|reflexivity]. rewrite Hzero by reflexivity. reflexivity. }
  assert (Hu : parse_unsigned negative
                 ((c :: int) ++ fraction_text frac ++ exponent_text x ++ rest)
               = Some (of_decimal negative (value (c :: int ++ frac))
                                  (default 0 x - Z.of_nat (length frac)), rest)).
  { unfold parse_unsigned.
    rewrite span_digits_app by (try assumption; now apply fraction_text_head).
    rewrite Hlead, fraction_read, exponent_read by assumption. reflexivity. }
  unfold parse_number. destruct negative; cbn [app].
  - change (Ascii.eqb "-" "-") with true. cbv iota. exact Hu.
  - rewrite Hc. exact Hu.
Qed.

Lemma fraction_text_cons frac : frac <> [] -> fraction_text frac = "."%char :: frac.
Proof. destruct frac; [contradiction|reflexivity]. Qed.

(** The text of a decimal is read as the double nearest to the decimal. *)
Lemma parse_number_format (negative : bool) c ds n rest :
  is_zero c = false -> Forall (fun c => is_digit c = true) (c :: ds) ->
  rest_ok rest ->
  parse_number ((if negative then ["-"%char] else []) ++ format (c :: ds) n ++ rest)
  = Some (of_decimal negative (value (c :: ds)) (n - Z.of_nat (length (c :: ds))),
          rest).
Proof.
  intros Hc Hd Hr. unfold format. cbv zeta.
  set (k := Z.of_nat (length (c :: ds))).
  assert (Hk : k = Z.of_nat (length ds) + 1) by (subst k; cbn [length]; lia).
  destruct ((k <=? n) && (n <=? 21)) eqn:H6.
  - apply andb_prop in H6 as [H6 _]. apply Z.leb_le in H6.
    pose proof (parse_number_token negative c (ds ++ zeros (n - k)) [] None rest) as H.
    cbn [fraction_text exponent_text app length Z.of_nat] in H.
    cbv [default from_option id] in H.
    rewrite <- app_assoc. cbn [app]. rewrite <- ?app_assoc in H; cbn [app] in H;
      rewrite <- ?app_assoc; cbn [app]; rewrite H; clear H; try assumption.
    + rewrite app_nil_r. f_equal. f_equal.
      change (c :: ds ++ zeros (n - k)) with ((c :: ds) ++ zeros (n - k)).
      rewrite value_app, value_zeros, length_zeros, Z.add_0_r by lia.
      apply of_decimal_zeros. lia.
    + change (c :: ds ++ zeros (n - k)) with ((c :: ds) ++ zeros (n - k)).
      apply Forall_app. split; [assumption|apply zeros_digits].
    + constructor.
    + congruence.
  - destruct ((0 <? n) && (n <=? 21)) eqn:H7.
    + apply andb_prop in H7 as [H7 H21]. apply Z.ltb_lt in H7.
      assert (Hn : n < k).
      { apply andb_false_iff in H6 as [H6|H6]; [apply Z.leb_gt in H6; lia|].
        congruence. }
      destruct (Z.to_nat n) as [|j] eqn:Ej; [lia|].
      cbn [firstn skipn].
      assert (Hj : (j < length ds)%nat) by lia.
      assert (Hne : skipn j ds <> []).
      { intros E. apply (f_equal (@length _)) in E. rewrite length_skipn in E.
        cbn in E. lia. }
      pose proof (parse_number_token negative c (firstn j ds) (skipn j ds) None rest)
        as H.
      rewrite (fraction_text_cons _ Hne) in H.
      cbn [exponent_text app] in H. cbv [default from_option id] in H.
      cbn [app]. rewrite <- !app_assoc. cbn [app]. rewrite <- ?app_assoc in H; cbn [app] in H;
      rewrite <- ?app_assoc; cbn [app]; rewrite H; clear H; try assumption.
      * rewrite firstn_skipn. f_equal. f_equal. f_equal.
        rewrite length_skipn. lia.
      * inversion Hd; subst. constructor; [assumption|]. now apply Forall_take.
      * inversion Hd; subst. now apply Forall_drop.
      * congruence.
    + destruct ((-6 <? n) && (n <=? 0)) eqn:H8.
      * apply andb_prop in H8 as [_ H8]. apply Z.leb_le in H8.
        pose proof (parse_number_token negative "0"%char [] (zeros (- n) ++ c :: ds)
                      None rest) as H.
        rewrite fraction_text_cons in H by (now destruct (zeros (- n))).
        cbn [exponent_text app] in H. cbv [default from_option id] in H.
        cbn [app]. rewrite <- !app_assoc. cbn [app].
        rewrite <- !app_assoc in H. cbn [app] in H.
        rewrite <- ?app_assoc in H; cbn [app] in H;
      rewrite <- ?app_assoc; cbn [app]; rewrite H; clear H; try assumption.
        -- f_equal. f_equal. f_equal.
           ++ change ("0"%char :: zeros (- n) ++ c :: ds)
                with (("0"%char :: zeros (- n)) ++ c :: ds).
              rewrite value_app.
              change ("0"%char :: zeros (- n)) with (["0"%char] ++ zeros (- n)).
              rewrite value_app, value_zeros. change (value ["0"%char]) with 0. lia.
           ++ rewrite length_app. pose proof (length_zeros (- n)).
              fold k. lia.
        -- repeat constructor.
        -- apply Forall_app. split; [apply zeros_digits|assumption].
        -- reflexivity.
      * destruct ds as [|d ds'].
        -- pose proof (parse_number_token negative c [] [] (Some (n - 1)) rest) as H.
           cbn [fraction_text exponent_text app length Z.of_nat] in H.
           cbv [default from_option id] in H.
           cbn [app]. rewrite <- ?app_assoc in H; cbn [app] in H;
      rewrite <- ?app_assoc; cbn [app]; rewrite H; clear H; try assumption.
           ++ f_equal. f_equal. f_equal. cbn [length] in *. lia.
           ++ constructor.
           ++ congruence.
        -- pose proof (parse_number_token negative c [] (d :: ds') (Some (n - 1)) rest)
             as H.
           cbn [fraction_text exponent_text app] in H.
           cbv [default from_option id] in H.
           cbn [app]. rewrite <- !app_assoc. cbn [app]. rewrite <- ?app_assoc in H; cbn [app] in H;
      rewrite <- ?app_assoc; cbn [app]; rewrite H; clear H;
             try assumption.
           ++ f_equal. f_equal. f_equal. cbn [length] in *. lia.
           ++ inversion Hd; subst. now repeat constructor.
           ++ now inversion Hd.
           ++ congruence.
Qed.

(** What Number::toString writes for a finite Number is read as that Number
    (as 0 when it is -0), provided the number ends where the text does. *)
Lemma parse_number_toString x rest :
  isFinite x = true -> rest_ok rest ->
  parse_number (toString x ++ rest)
  = Some (if is_negative_zero x then zero else x, rest).
Proof.
  unfold isFinite, is_negative_zero, toString.
  destruct x as [[| |negative m e] Hv]; cbn [bits]; try discriminate.
  intros _ Hr. destruct (Z.eqb_spec m 0) as [->|Hm].
  - pose proof (valid_zero _ _ Hv) as ->.
    pose proof (parse_number_token false "0"%char [] [] None rest) as H.
    cbn [fraction_text exponent_text app] in H. cbn [app].
    rewrite H; clear H; try assumption; [|repeat constructor..].
    f_equal. f_equal. transitivity zero; [now vm_compute|].
    destruct negative; [reflexivity|]. now apply number_eq.
  - pose proof (valid_mantissa _ _ _ Hv) as Hm0.
    destruct (shortest_writes m e) as (c & ds & n & E & Hc & Hd & Hw);
      [exact Hv|lia|].
    rewrite E.
    pose proof (parse_number_format negative c ds n rest Hc Hd Hr) as H.
    apply (of_decimal_sign negative) in Hw.
    assert (Hx : of_decimal negative (value (c :: ds))
                            (n - Z.of_nat (length (c :: ds)))
                 = {| bits := Finite negative m e; bits_valid := Hv |})
      by now apply number_eq.
    rewrite Hx in H.
    destruct negative; [|exact H].
    destruct m as [|p|p]; [contradiction|exact H..].
Qed.

Lemma format_head c ds n :
  exists c' t, format (c :: ds) n = c' :: t /\ (c' = c \/ c' = "0"%char).
Proof.
  unfold format. cbv zeta.
  destruct ((Z.of_nat (length (c :: ds)) <=? n) && (n <=? 21));
    [cbn [app]; eexists _, _; split; [reflexivity|now left]|].
  destruct ((0 <? n) && (n <=? 21)) eqn:H7.
  - apply andb_prop in H7 as [H7 _]. apply Z.ltb_lt in H7.
    destruct (Z.to_nat n) eqn:E; [lia|]. cbn [firstn app].
    eexists _, _; split; [reflexivity|now left].
  - destruct ((-6 <? n) && (n <=? 0));
      [eexists _, _; split; [reflexivity|now right]|].
    destruct ds; eexists _, _; (split; [reflexivity|now left]).
Qed.

Lemma digit_starts c :
  is_digit c = true ->
  is_numchar c = true /\ is_ws c = false /\ (N_of_ascii c =? 93)%N = false.
Proof.
  destruct c as [[] [] [] [] [] [] [] []]; intros H;
    try (vm_compute in H; discriminate H); repeat split.
Qed.

(** The first character of a number as it is written. *)
Lemma print_number_head x :
  exists c t, print_number x = c :: t /\ is_ws c = false
              /\ (N_of_ascii c =? 93)%N = false
              /\ (isFinite x = true -> is_numchar c = true).
Proof.
  unfold print_number, isFinite, toString.
  destruct x as [[| |negative m e] Hv]; cbn [bits];
    try (eexists _, _; split; [reflexivity|];
         split; [reflexivity|]; split; [reflexivity|discriminate]).
  destruct (Z.eqb_spec m 0) as [->|Hm]; [eexists _, _; repeat split|].
  pose proof (valid_mantissa _ _ _ Hv) as Hm0.
  destruct (shortest_writes m e) as (c & ds & n & E & Hc & Hd & _); [exact Hv|lia|].
  rewrite E. destruct negative; [eexists _, _; repeat split|].
  destruct (format_head c ds n) as (c' & t & Ef & Hc').
  rewrite Ef. exists c', t. split; [reflexivity|].
  assert (Hdigit : is_digit c' = true).
  { destruct Hc' as [->| ->]; [now inversion Hd|reflexivity]. }
  destruct (digit_starts c' Hdigit) as (H1 & H2 & H3). auto.
Qed.

Lemma parse_number_print_normal x rest :
  isFinite x = true -> rest_ok rest ->
  parse_number (print_number x ++ rest)
  = Some (if is_negative_zero x then zero else x, rest).
Proof.
  intros Hx Hr. unfold print_number. rewrite Hx. now apply parse_number_toString.
Qed.

Lemma parse_number_print x rest :
  wf (JNum x) = true -> rest_ok rest ->
  parse_number (print_number x ++ rest) = Some (x, rest).
Proof.
  cbn [wf]. intros Hx Hr. apply andb_prop in Hx as [Hx Hz].
  rewrite (parse_number_print_normal x rest Hx Hr).
  apply negb_true_iff in Hz. now rewrite Hz.
Qed.

Lemma parse_value_num f c t :
  is_numchar c = true ->
  parse_value (S f) (c :: t) =
  match parse_number (c :: t) with
  | Some (x, r') => Some (JNum x, r')
  | None => None
  end.
Proof.
  destruct c as [[] [] [] [] [] [] [] []]; intros H;
    try (vm_compute in H; discriminate H); reflexivity.
Qed.

Lemma parse_value_arr f r :
  parse_value (S f) ("["%char :: r) =
  match skip_ws r with
  | c' :: r' =>
      if (N_of_ascii c' =? 93)%N then Some (JArr [], r') else parse_elements f r []
  | [] => None
  end.
Proof. reflexivity. Qed.

Lemma parse_value_obj f r :
  parse_value (S f) ("{"%char :: r) =
  match skip_ws r with
  | c' :: r' =>
      if (N_of_ascii c' =? 125)%N then Some (JObj [], r') else parse_members f r []
  | [] => None
  end.
Proof. reflexivity. Qed.

Lemma parse_value_str f r :
  parse_value (S f) (dquote :: r) =
  match parse_chars r with
  | Some (str, r') => Some (JStr (string_of_list_ascii str), r')
  | None => None
  end.
Proof. reflexivity. Qed.

Lemma parse_elements_S f s acc :
  parse_elements (S f) s acc =
  match parse_value f s with
  | Some (v, r) =>
      match skip_ws r with
      | c :: r' =>
          if (N_of_ascii c =? 44)%N then parse_elements f r' (acc ++ [v])
          else if (N_of_ascii c =? 93)%N then Some (JArr (acc ++ [v]), r')
          else None
      | [] => None
      end
  | None => None
  end.
Proof. reflexivity. Qed.

(** The first character of a printed value is never white space nor a
    closing bracket. *)
Lemma print_head v :
  exists c t, print v = c :: t /\ is_ws c = false
              /\ (N_of_ascii c =? 93)%N = false.
Proof.
  destruct v as [|[]|x|s|l|m]; try (eexists _, _; repeat split; fail).
  destruct (print_number_head x) as (c & t & E & Hc & Hb & _).
  exists c, t. cbn [print]. auto.
Qed.

Lemma parse_members_S f s acc :
  parse_members (S f) s acc =
  match skip_ws s with
  | q :: r =>
      if (N_of_ascii q =? 34)%N then
        match parse_chars r with
        | Some (k, r1) =>
            match skip_ws r1 with
            | c :: r2 =>
                if (N_of_ascii c =? 58)%N then
                  match parse_value f r2 with
                  | Some (v, r3) =>
                      let acc' := obj_set (string_of_list_ascii k) v acc in
                      match skip_ws r3 with
                      | d :: r4 =>
                          if (N_of_ascii d =? 44)%N then parse_members f r4 acc'
                          else if (N_of_ascii d =? 125)%N then Some (JObj acc', r4)
                          else None
                      | [] => None
                      end
                  | None => None
                  end
                else None
            | [] => None
            end
        | None => None
        end
      else None
  | [] => None
  end.
Proof. reflexivity. Qed.

Lemma obj_set_fresh k v acc :
  ~ In k (map fst acc) -> obj_set k v acc = acc ++ [(k, v)].
Proof.
  induction acc as [|[k' v'] acc IH]; intros Hk; [reflexivity|].
  cbn in *. destruct (String.eqb_spec k k') as [->|_].
  - exfalso. apply Hk. now left.
  - rewrite IH; [reflexivity|]. intros Hin. apply Hk. now right.
Qed.

Lemma skip_ws_keep c r : is_ws c = false -> skip_ws (c :: r) = c :: r.
Proof. intros H. cbn [skip_ws]. rewrite H. reflexivity. Qed.

Lemma join_cons_app x l r : exists t, join (x :: l) ++ r = x ++ t.
Proof.
  destruct l; cbn [join]; [eauto|]. rewrite <- app_assoc. eauto.
Qed.

Lemma parse_elements_print l :
  Forall reads_back l -> forallb wf l = true -> l <> [] ->
  forall f acc rest,
    (list_sum (map (fun x => S (weight x)) l) <= f)%nat ->
    parse_elements f (join (map print l) ++ "]"%char :: rest) acc
    = Some (JArr (acc ++ l), rest).
Proof.
  induction 1 as [|x l Hx Hl IH]; intros Hwf Hne f acc rest Hf; [contradiction|].
  cbn in Hwf. apply andb_prop in Hwf as [Hwx Hwl].
  rewrite map_cons in Hf. change (list_sum (?a :: ?b)) with (a + list_sum b)%nat in Hf.
  destruct f as [|f]; [lia|]. rewrite parse_elements_S.
  destruct l as [|y l'].
  - cbn [map join]. rewrite (Hx Hwx f ("]"%char :: rest)) by (lia || reflexivity).
    reflexivity.
  - change (join (map print (x :: y :: l')))
      with (print x ++ ","%char :: join (map print (y :: l'))).
    rewrite <- app_assoc. cbn [app].
    rewrite (Hx Hwx f) by (lia || reflexivity).
    rewrite skip_ws_keep by reflexivity.
    change (N_of_ascii ","%char =? 44)%N with true. cbv iota.
    rewrite (IH Hwl) by (try discriminate; lia).
    rewrite <- app_assoc. reflexivity.
Qed.

Lemma quote_app k r :
  quote k ++ r
  = dquote :: flat_map escape_char (list_ascii_of_string k) ++ dquote :: r.
Proof. unfold quote. cbn [app]. rewrite <- app_assoc. reflexivity. Qed.

Lemma parse_members_print m :
  Forall (fun kv => reads_back (snd kv)) m ->
  forallb (fun kv => wf (snd kv)) m = true -> m <> [] ->
  forall f acc rest,
    (list_sum (map (fun kv => S (weight (snd kv))) m) <= f)%nat ->
    NoDup (map fst acc ++ map fst m) ->
    parse_members f (join (map member m) ++ "}"%char :: rest) acc
    = Some (JObj (acc ++ m), rest).
Proof.
  induction 1 as [|[k v] m Hv Hm IH]; intros Hwf Hne f acc rest Hf Hnd;
    [contradiction|].
  cbn in Hwf. apply andb_prop in Hwf as [Hwv Hwm].
  rewrite map_cons in Hf.
  change (list_sum (?a :: ?b)) with (a + list_sum b)%nat in Hf.
  cbn [snd] in Hf, Hv.
  destruct f as [|f]; [lia|]. rewrite parse_members_S.
  assert (Hk : ~ In k (map fst acc)).
  { apply NoDup_app in Hnd as (_ & Hd & _). intros Hin.
    apply (Hd k); [apply list_elem_of_In, Hin|apply list_elem_of_here]. }
  assert (Hnd' : NoDup (map fst (acc ++ [(k, v)]) ++ map fst m)).
  { rewrite map_app, <- app_assoc. exact Hnd. }
  destruct m as [|kv' m'].
  - cbn [map join]. unfold member at 1. cbn [fst snd].
    rewrite <- app_assoc, quote_app. cbn [app].
    rewrite skip_ws_keep by reflexivity.
    change (N_of_ascii dquote =? 34)%N with true. cbv iota.
    rewrite parse_chars_quoted, skip_ws_keep by reflexivity.
    change (N_of_ascii ":"%char =? 58)%N with true. cbv iota.
    rewrite (Hv Hwv f) by (lia || reflexivity). cbv zeta.
    rewrite skip_ws_keep by reflexivity.
    change (N_of_ascii "}"%char =? 44)%N with false.
    change (N_of_ascii "}"%char =? 125)%N with true. cbv iota.
    rewrite string_of_list_ascii_of_string, obj_set_fresh by assumption.
    reflexivity.
  - change (join (map member ((k, v) :: kv' :: m')))
      with (member (k, v) ++ ","%char :: join (map member (kv' :: m'))).
    unfold member at 1. cbn [fst snd].
    rewrite <- !app_assoc, quote_app. cbn [app].
    rewrite skip_ws_keep by reflexivity.
    change (N_of_ascii dquote =? 34)%N with true. cbv iota.
    rewrite parse_chars_quoted, skip_ws_keep by reflexivity.
    change (N_of_ascii ":"%char =? 58)%N with true. cbv iota.
    rewrite (Hv Hwv f) by (lia || reflexivity). cbv zeta.
    rewrite skip_ws_keep by reflexivity.
    change (N_of_ascii ","%char =? 44)%N with true. cbv iota.
    rewrite string_of_list_ascii_of_string, obj_set_fresh by assumption.
    rewrite (IH Hwm) by (try discriminate; try lia; exact Hnd').
    rewrite <- app_assoc. reflexivity.
Qed.

(** Every well-formed document is read back from its own text, whatever
    follows it (as long as a number is not followed by a digit). *)
Lemma parse_value_print v : reads_back v.
Proof.
  induction v as [|b|z|s|l IH|m IH] using json_ind; intros Hwf fuel rest Hfuel Hrest;
    (destruct fuel as [|f]; [cbn in Hfuel; lia|]).
  - reflexivity.
  - destruct b; reflexivity.
  - cbn [print]. destruct (print_number_head z) as (c & t & E & _ & _ & Hc).
    pose proof (parse_number_print z rest Hwf Hrest) as Hn.
    cbn [wf] in Hwf. apply andb_prop in Hwf as [Hfin _].
    rewrite E in *. cbn [app] in *. rewrite (parse_value_num f c _ (Hc Hfin)), Hn.
    reflexivity.
  - cbn [print]. rewrite quote_app, parse_value_str, parse_chars_quoted.
    rewrite string_of_list_ascii_of_string. reflexivity.
  - cbn [print]. cbn [app]. rewrite <- app_assoc. cbn [app].
    rewrite parse_value_arr.
    destruct l as [|x l'].
    + reflexivity.
    + destruct (print_head x) as (c & t & E & Hc & Hb).
      assert (Hs : exists t', join (map print (x :: l')) ++ "]"%char :: rest = c :: t').
      { rewrite map_cons. destruct (join_cons_app (print x) (map print l')
                                      ("]"%char :: rest)) as [t0 Ht].
        rewrite Ht, E. cbn. eauto. }
      destruct Hs as [t' Hs]. rewrite Hs, skip_ws_keep, Hb by assumption.
      rewrite <- Hs.
      rewrite (parse_elements_print _ IH) by (try discriminate; try exact Hwf; cbn [weight] in Hfuel; lia).
      reflexivity.
  - cbn [print]. cbn [app]. rewrite <- app_assoc. cbn [app].
    rewrite parse_value_obj.
    change (map (fun kv => quote (fst kv) ++ ":"%char :: print (snd kv)) m)
      with (map member m).
    destruct m as [|[k v] m'].
    + reflexivity.
    + cbn in Hwf. apply andb_prop in Hwf as [Hnd Hwf].
      destruct (decide (NoDup (k :: map fst m'))) as [Hnd'|]; [|discriminate].
      assert (Hs : exists t', join (map member ((k, v) :: m')) ++ "}"%char :: rest
                              = dquote :: t').
      { rewrite map_cons. destruct (join_cons_app (member (k, v)) (map member m')
                                      ("}"%char :: rest)) as [t Ht].
        rewrite Ht. unfold member, quote. cbn. eauto. }
      destruct Hs as [t' Hs]. rewrite Hs, skip_ws_keep by reflexivity.
      change (N_of_ascii dquote =? 125)%N with false. cbv iota.
      rewrite <- Hs.
      rewrite (parse_members_print _ IH)
        by (try discriminate; try exact Hwf; try exact Hnd'; cbn [weight] in Hfuel; lia).
      reflexivity.
Qed.

Lemma join_weight {A} (w : A -> nat) (p : A -> text) (l : list A) :
  Forall (fun x => (w x <= length (p x))%nat) l ->
  (list_sum (map (fun x => S (w x)) l) <= S (length (join (map p l))))%nat.
Proof.
  induction 1 as [|x l Hx Hl IH]; [cbn; lia|].
  rewrite !map_cons. change (list_sum (?a :: ?b)) with (a + list_sum b)%nat.
  destruct l as [|y l'].
  - cbn. lia.
  - change (join (p x :: map p (y :: l')))
      with (p x ++ ","%char :: join (map p (y :: l'))).
    rewrite length_app. cbn [length]. lia.
Qed.

Lemma weight_le_length v : (weight v <= length (print v))%nat.
Proof.
  induction v as [|b|z|s|l IH|m IH] using json_ind.
  - cbn. lia.
  - destruct b; cbn; lia.
  - cbn [print weight]. destruct (print_number_head z) as (c & t & E & _).
    rewrite E. cbn. lia.
  - cbn [print weight]. unfold quote. cbn. lia.
  - cbn [print weight]. cbn [length]. rewrite length_app. cbn [length].
    pose proof (join_weight weight print l IH). lia.
  - cbn [print weight]. cbn [length]. rewrite length_app. cbn [length].
    change (map (fun kv => quote (fst kv) ++ ":"%char :: print (snd kv)) m)
      with (map member m).
    assert (H : Forall (fun kv => (weight (snd kv) <= length (member kv))%nat) m).
    { eapply Forall_impl; [exact IH|]. intros [k v] Hkv. unfold member.
      cbn [fst snd] in *. rewrite length_app. cbn [length]. lia. }
    pose proof (join_weight (fun kv => weight (snd kv)) member m H). lia.
Qed.

(** [JSON.parse(JSON.stringify(v))] is [v], for every document without a
    repeated property name. *)
Lemma parse_stringify v : wf v = true -> parse (stringify v) = Some v.
Proof.
  intros Hwf. unfold parse, stringify.
  rewrite list_ascii_of_string_of_list_ascii.
  pose proof (parse_value_print v Hwf (S (length (print v))) []) as H.
  rewrite app_nil_r in H. rewrite H; [reflexivity| |exact I].
  pose proof (weight_le_length v). lia.
Qed.

Lemma stringify_nonempty v : stringify v <> ""%string.
Proof.
  unfold stringify. destruct (print_head v) as (c & t & E & _).
  rewrite E. discriminate.
Qed.

End JSONFacts.

(** ** JSON: reading back any written document *)

Module NormalFacts.
Import JSON Normal Number JSONFacts.

Lemma parse_elements_normal l :
  Forall reads_normal l -> l <> [] ->
  forall f acc rest,
    (list_sum (map (fun x => S (weight x)) l) <= f)%nat ->
    parse_elements f (join (map print l) ++ "]"%char :: rest) acc
    = Some (JArr (acc ++ map normal l), rest).
Proof.
  induction 1 as [|x l Hx Hl IH]; intros Hne f acc rest Hf; [contradiction|].
  rewrite map_cons in Hf. change (list_sum (?a :: ?b)) with (a + list_sum b)%nat in Hf.
  destruct f as [|f]; [lia|]. rewrite parse_elements_S.
  destruct l as [|y l'].
  - cbn [map join]. rewrite (Hx f ("]"%char :: rest)) by (lia || reflexivity).
    reflexivity.
  - change (join (map print (x :: y :: l')))
      with (print x ++ ","%char :: join (map print (y :: l'))).
    rewrite <- app_assoc. cbn [app].
    rewrite (Hx f) by (lia || reflexivity).
    rewrite skip_ws_keep by reflexivity.
    change (N_of_ascii ","%char =? 44)%N with true. cbv iota.
    rewrite IH by (try discriminate; lia).
    rewrite <- app_assoc. reflexivity.
Qed.

Lemma parse_members_normal m :
  Forall (fun kv => reads_normal (snd kv)) m -> m <> [] ->
  forall f acc rest,
    (list_sum (map (fun kv => S (weight (snd kv))) m) <= f)%nat ->
    parse_members f (join (map member m) ++ "}"%char :: rest) acc
    = Some (JObj (fold_left assign (map (fun kv => (fst kv, normal (snd kv))) m) acc),
            rest).
Proof.
  induction 1 as [|[k v] m Hv Hm IH]; intros Hne f acc rest Hf; [contradiction|].
  rewrite map_cons in Hf.
  change (list_sum (?a :: ?b)) with (a + list_sum b)%nat in Hf.
  cbn [snd] in Hf, Hv.
  destruct f as [|f]; [lia|]. rewrite parse_members_S.
  destruct m as [|kv' m'].
  - cbn [map join]. unfold member at 1. cbn [fst snd].
    rewrite <- app_assoc, quote_app. cbn [app].
    rewrite skip_ws_keep by reflexivity.
    change (N_of_ascii dquote =? 34)%N with true. cbv iota.
    rewrite parse_chars_quoted, skip_ws_keep by reflexivity.
    change (N_of_ascii ":"%char =? 58)%N with true. cbv iota.
    rewrite (Hv f) by (lia || reflexivity). cbv zeta.
    rewrite skip_ws_keep by reflexivity.
    change (N_of_ascii "}"%char =? 44)%N with false.
    change (N_of_ascii "}"%char =? 125)%N with true. cbv iota.
    rewrite string_of_list_ascii_of_string. reflexivity.
  - change (join (map member ((k, v) :: kv' :: m')))
      with (member (k, v) ++ ","%char :: join (map member (kv' :: m'))).
    unfold member at 1. cbn [fst snd].
    rewrite <- !app_assoc, quote_app. cbn [app].
    rewrite skip_ws_keep by reflexivity.
    change (N_of_ascii dquote =? 34)%N with true. cbv iota.
    rewrite parse_chars_quoted, skip_ws_keep by reflexivity.
    change (N_of_ascii ":"%char =? 58)%N with true. cbv iota.
    rewrite (Hv f) by (lia || reflexivity). cbv zeta.
    rewrite skip_ws_keep by reflexivity.
    change (N_of_ascii ","%char =? 44)%N with true. cbv iota.
    rewrite string_of_list_ascii_of_string.
    rewrite IH by (try discriminate; lia).
    reflexivity.
Qed.

(** Whatever tree was written, its text is read back as [normal] of it. *)
Lemma parse_value_normal v : reads_normal v.
Proof.
  induction v as [|b|z|s|l IH|m IH] using json_ind; intros fuel rest Hfuel Hrest;
    (destruct fuel as [|f]; [cbn in Hfuel; lia|]).
  - reflexivity.
  - destruct b; reflexivity.
  - cbn [print normal]. destruct (isFinite z) eqn:Hfin.
    + destruct (print_number_head z) as (c & t & E & _ & _ & Hc).
      pose proof (parse_number_print_normal z rest Hfin Hrest) as Hn.
      rewrite E in *. cbn [app] in *. rewrite (parse_value_num f c _ (Hc Hfin)), Hn.
      reflexivity.
    + unfold print_number. rewrite Hfin. reflexivity.
  - cbn [print]. rewrite quote_app, parse_value_str, parse_chars_quoted.
    rewrite string_of_list_ascii_of_string. reflexivity.
  - cbn [print]. cbn [app]. rewrite <- app_assoc. cbn [app].
    rewrite parse_value_arr.
    destruct l as [|x l'].
    + reflexivity.
    + destruct (print_head x) as (c & t & E & Hc & Hb).
      assert (Hs : exists t', join (map print (x :: l')) ++ "]"%char :: rest = c :: t').
      { rewrite map_cons. destruct (join_cons_app (print x) (map print l')
                                      ("]"%char :: rest)) as [t0 Ht].
        rewrite Ht, E. cbn. eauto. }
      destruct Hs as [t' Hs]. rewrite Hs, skip_ws_keep, Hb by assumption.
      rewrite <- Hs.
      rewrite (parse_elements_normal _ IH) by (try discriminate; cbn [weight] in Hfuel; lia).
      reflexivity.
  - cbn [print]. cbn [app]. rewrite <- app_assoc. cbn [app].
    rewrite parse_value_obj.
    change (map (fun kv => quote (fst kv) ++ ":"%char :: print (snd kv)) m)
      with (map member m).
    destruct m as [|[k v] m'].
    + reflexivity.
    + assert (Hs : exists t', join (map member ((k, v) :: m')) ++ "}"%char :: rest
                              = dquote :: t').
      { rewrite map_cons. destruct (join_cons_app (member (k, v)) (map member m')
                                      ("}"%char :: rest)) as [t Ht].
        rewrite Ht. unfold member, quote. cbn. eauto. }
      destruct Hs as [t' Hs]. rewrite Hs, skip_ws_keep by reflexivity.
      change (N_of_ascii dquote =? 125)%N with false. cbv iota.
      rewrite <- Hs.
      rewrite (parse_members_normal _ IH)
        by (try discriminate; cbn [weight] in Hfuel; lia).
      reflexivity.
Qed.

Lemma parse_stringify_normal v : parse (stringify v) = Some (normal v).
Proof.
  unfold parse, stringify.
  rewrite list_ascii_of_string_of_list_ascii.
  pose proof (parse_value_normal v (S (length (print v))) []) as H.
  rewrite app_nil_r in H. rewrite H; [reflexivity| |exact I].
  pose proof (weight_le_length v). lia.
Qed.

(** A document JSON holds as it is is its own normal form. *)
Lemma normal_wf v : wf v = true -> normal v = v.
Proof.
  intros Hwf. pose proof (parse_stringify v Hwf) as H.
  rewrite parse_stringify_normal in H. now injection H.
Qed.

(** A metadata column written by the service is read without error. *)
Lemma parse_metadata_written v :
  parse_metadata (Some (stringify v)) = Ok (normal v).
Proof.
  unfold parse_metadata.
  destruct (String.eqb_spec (stringify v) "") as [E|_].
  - now apply stringify_nonempty in E.
  - now rewrite parse_stringify_normal.
Qed.

End NormalFacts.

(** ** SQL: ORDER BY and LIMIT *)

Module SQLFacts.
Import SQL.

(** [_] takes one character, here the two bytes of U+00E9, and one only. *)
Example like_underscore :
  let cafe := ("caf" ++ String (ascii_of_N 195) (String (ascii_of_N 169) ""))%string in
  LIKE cafe "caf_" = true /\ LIKE cafe "caf__" = false /\ LIKE cafe "%_" = true
  /\ LIKE "cafe" "CAF_" = true /\ LIKE "cafe" "caf" = false.
Proof. repeat split; vm_compute; reflexivity. Qed.

Section order_by.
Context {A : Type} (before : A -> A -> bool).

Lemma insert_by_perm x l : Permutation (insert_by before x l) (x :: l).
Proof.
  induction l as [|y l IH]; cbn; [reflexivity|].
  destruct (before x y); [reflexivity|].
  rewrite IH. apply perm_swap.
Qed.

Lemma ORDER_BY_perm l : Permutation (ORDER_BY before l) l.
Proof.
  induction l as [|x l IH]; cbn; [reflexivity|].
  rewrite insert_by_perm. now apply perm_skip.
Qed.

Lemma ORDER_BY_In x l : In x (ORDER_BY before l) <-> In x l.
Proof.
  split; apply Permutation_in; [|symmetry]; apply ORDER_BY_perm.
Qed.

Lemma ORDER_BY_length l : length (ORDER_BY before l) = length l.
Proof. apply Permutation_length, ORDER_BY_perm. Qed.

Hypothesis before_total : forall a b, before a b = true \/ before b a = true.
Hypothesis before_trans :
  forall a b c, before a b = true -> before b c = true -> before a c = true.

Lemma insert_by_ordered x l :
  ordered before l -> ordered before (insert_by before x l).
Proof using before_total before_trans.
  induction 1 as [|y l Hl IH Hy]; cbn.
  - repeat constructor.
  - destruct (before x y) eqn:E.
    + constructor; [now constructor|].
      constructor; [exact E|].
      eapply List.Forall_impl; [|exact Hy]. intros z Hz. cbn in Hz. eauto.
    + constructor; [exact IH|].
      apply List.Forall_forall. intros z Hz.
      apply (Permutation_in _ (insert_by_perm x l)) in Hz.
      destruct Hz as [<-|Hz].
      * destruct (before_total x y) as [H|H]; [congruence|exact H].
      * rewrite List.Forall_forall in Hy. now apply Hy.
Qed.

Lemma ORDER_BY_ordered l : ordered before (ORDER_BY before l).
Proof using before_total before_trans.
  induction l as [|x l IH]; cbn; [constructor|]. now apply insert_by_ordered.
Qed.

End order_by.

Lemma LIMIT_prefix {A} n (l : list A) : exists rest, l = LIMIT n l ++ rest.
Proof.
  unfold LIMIT. destruct (n <? 0).
  - exists []. now rewrite app_nil_r.
  - exists (skipn (Z.to_nat n) l). now rewrite firstn_skipn.
Qed.

Lemma LIMIT_length {A} n (l : list A) :
  0 <= n -> (length (LIMIT n l) <= Z.to_nat n)%nat.
Proof.
  intros Hn. unfold LIMIT. destruct (Z.ltb_spec n 0); [lia|].
  rewrite length_firstn. lia.
Qed.

Lemma LIMIT_all {A} n (l : list A) :
  n < 0 \/ (length l <= Z.to_nat n)%nat -> LIMIT n l = l.
Proof.
  intros H. unfold LIMIT. destruct (Z.ltb_spec n 0); [reflexivity|].
  destruct H as [H|H]; [lia|]. now apply firstn_all2.
Qed.

Lemma LIMIT_nil {A} n : LIMIT n (@nil A) = [].
Proof. unfold LIMIT. destruct (n <? 0); [reflexivity|apply firstn_nil]. Qed.

Lemma LIMIT_cut {A} n (l : list A) rest :
  l = LIMIT n l ++ rest -> rest <> [] ->
  0 <= n /\ length (LIMIT n l) = Z.to_nat n.
Proof.
  unfold LIMIT. destruct (Z.ltb_spec n 0); intros E Hrest.
  - exfalso. apply Hrest. apply (f_equal (@length A)) in E.
    rewrite length_app in E. destruct rest; [reflexivity|cbn in E; lia].
  - split; [assumption|]. rewrite length_firstn.
    apply (f_equal (@length A)) in E. rewrite length_app, length_firstn in E.
    destruct rest; [contradiction|cbn in E; lia].
Qed.

Section select.
Context {A : Type} (before : A -> A -> bool) (keep : A -> bool).
Hypothesis before_total : forall a b, before a b = true \/ before b a = true.
Hypothesis before_trans :
  forall a b c, before a b = true -> before b c = true -> before a c = true.

Lemma select_sound n table x :
  In x (select before keep n table) -> In x table /\ keep x = true.
Proof.
  intros H. destruct (LIMIT_prefix n (ORDER_BY before (List.filter keep table)))
    as [rest E].
  apply filter_In, (ORDER_BY_In before). rewrite E. apply in_or_app. now left.
Qed.

Lemma ordered_app_l (l rest : list A) : ordered before (l ++ rest) -> ordered before l.
Proof.
  unfold ordered. induction l as [|y l IH]; intros H; [constructor|].
  cbn in H. inversion H as [|? ? Hl Hy]; subst.
  constructor; [auto|]. apply List.Forall_app in Hy. tauto.
Qed.

Lemma ordered_app_before (l rest : list A) x y :
  ordered before (l ++ rest) -> In y l -> In x rest -> before y x = true.
Proof.
  unfold ordered. induction l as [|z l IH]; intros H Hy Hx; [contradiction|].
  cbn in H. inversion H as [|? ? Hl Hz]; subst.
  destruct Hy as [<-|Hy]; [|now apply IH].
  rewrite List.Forall_forall in Hz. apply Hz, in_or_app. now right.
Qed.

Lemma select_ordered n table : ordered before (select before keep n table).
Proof using before_total before_trans.
  destruct (LIMIT_prefix n (ORDER_BY before (List.filter keep table))) as [rest E].
  pose proof (ORDER_BY_ordered before before_total before_trans
                (List.filter keep table)) as H.
  rewrite E in H. now apply ordered_app_l in H.
Qed.

Lemma select_length n table :
  0 <= n -> (length (select before keep n table) <= Z.to_nat n)%nat.
Proof. apply LIMIT_length. Qed.

Lemma select_all n table :
  n < 0 \/ (length (List.filter keep table) <= Z.to_nat n)%nat ->
  select before keep n table = ORDER_BY before (List.filter keep table).
Proof.
  intros Hn. unfold select. rewrite LIMIT_all; [reflexivity|].
  now rewrite ORDER_BY_length.
Qed.

(** A kept row is returned, unless LIMIT cut the result, and then every
    returned row comes before it in the order. *)
Lemma select_complete n table x :
  In x table -> keep x = true ->
  In x (select before keep n table)
  \/ (0 <= n /\ length (select before keep n table) = Z.to_nat n
      /\ forall y, In y (select before keep n table) -> before y x = true).
Proof using before_total before_trans.
  intros Hx Hk.
  destruct (LIMIT_prefix n (ORDER_BY before (List.filter keep table))) as [rest E].
  assert (Hin : In x (select before keep n table ++ rest)).
  { unfold select. rewrite <- E. apply ORDER_BY_In, filter_In. now split. }
  apply in_app_or in Hin as [Hin|Hin]; [now left|right].
  assert (Hrest : rest <> []) by (intros ->; contradiction).
  destruct (LIMIT_cut _ _ _ E Hrest) as [Hn Hlen].
  repeat split; [assumption|exact Hlen|].
  pose proof (ORDER_BY_ordered before before_total before_trans
                (List.filter keep table)) as H.
  rewrite E in H. intros y Hy. eapply ordered_app_before; eauto.
Qed.

End select.

End SQLFacts.

(** ** Outcomes *)

Lemma mapM_Ok {A B} (f : A -> outcome B) l r :
  mapM f l = Ok r -> Forall2 (fun x y => f x = Ok y) l r.
Proof.
  revert r. induction l as [|x l IH]; cbn; intros r H.
  - injection H as <-. constructor.
  - destruct (f x) as [y|e] eqn:Ex; [|discriminate]. cbn in H.
    destruct (mapM f l) as [ys|e]; [|discriminate]. cbn in H.
    injection H as <-. constructor; auto.
Qed.

Lemma mapM_Err {A B} (f : A -> outcome B) l e :
  mapM f l = Err e -> exists x, In x l /\ f x = Err e.
Proof.
  induction l as [|x l IH]; cbn; intros H; [discriminate|].
  destruct (f x) as [y|e'] eqn:Ex; cbn in H.
  - destruct (mapM f l) as [ys|e']; [discriminate|]. cbn in H.
    injection H as <-. destruct IH as (z & Hz & Ez); [reflexivity|].
    exists z. split; [now right|exact Ez].
  - injection H as <-. exists x. split; [now left|exact Ex].
Qed.

Lemma Forall2_In_r {A B} (R : A -> B -> Prop) l r y :
  Forall2 R l r -> In y r -> exists x, In x l /\ R x y.
Proof.
  induction 1 as [|x y' l r Hxy _ IH]; intros Hy; [contradiction|].
  destruct Hy as [<-|Hy].
  - exists x. split; [now left|exact Hxy].
  - destruct (IH Hy) as (z & Hz & Rz). exists z. split; [now right|exact Rz].
Qed.

Lemma Forall2_In_l {A B} (R : A -> B -> Prop) l r x :
  Forall2 R l r -> In x l -> exists y, In y r /\ R x y.
Proof.
  induction 1 as [|x' y l r Hxy _ IH]; intros Hx; [contradiction|].
  destruct Hx as [<-|Hx].
  - exists y. split; [now left|exact Hxy].
  - destruct (IH Hx) as (z & Hz & Rz). exists z. split; [now right|exact Rz].
Qed.

(** ** The memory service *)

Module MemoryFacts.
Import Examples.

Lemma find_none_has_memory db id :
  has_memory db id = false <->
  List.find (fun r => String.eqb (MemoryRow.id r) id) (memories db) = None.
Proof.
  unfold has_memory. induction (memories db) as [|r l IH]; cbn; [tauto|].
  destruct (String.eqb (MemoryRow.id r) id); cbn; [split; discriminate|exact IH].
Qed.

Lemma find_app_last {A} (p : A -> bool) l x :
  List.find p l = None -> p x = true -> List.find p (l ++ [x]) = Some x.
Proof.
  induction l as [|y l IH]; cbn; intros Hl Hx; [now rewrite Hx|].
  destruct (p y); [discriminate|auto].
Qed.

Lemma swallow_insert_embedding_memories id v db :
  memories (swallow (insert_embedding id v db) db) = memories db.
Proof.
  unfold insert_embedding.
  destruct (negb (vec0 db)), (negb (Nat.eqb (length v) DIMENSION)),
    (has_embedding db id); reflexivity.
Qed.

Lemma parse_metadata_stringify v :
  JSON.wf v = true -> parse_metadata (Some (JSON.stringify v)) = Ok v.
Proof.
  intros Hwf. unfold parse_metadata.
  destruct (String.eqb_spec (JSON.stringify v) "") as [E|_].
  - now apply JSONFacts.stringify_nonempty in E.
  - now rewrite JSONFacts.parse_stringify.
Qed.

(** *** Reachable databases *)

Lemma swallow_embedding_tables r db :
  (exists id v, r = insert_embedding id v db)
  \/ (exists id v, r = update_embedding id v db)
  \/ (exists id, r = delete_embedding id db) ->
  memories (swallow r db) = memories db
  /\ relationships (swallow r db) = relationships db
  /\ foreign_keys (swallow r db) = foreign_keys db.
Proof.
  intros [(id & v & ->)|[(id & v & ->)|(id & ->)]];
    unfold insert_embedding, update_embedding, delete_embedding;
    repeat match goal with
           | |- context [if ?b then _ else _] => destruct b
           end; repeat split.
Qed.

Lemma addMemory_tables env content metadata db :
  foreign_keys (snd (addMemory env content metadata db)) = foreign_keys db
  /\ relationships (snd (addMemory env content metadata db)) = relationships db
  /\ forall row, In row (memories (snd (addMemory env content metadata db))) ->
                 In row (memories db) \/ MemoryRow.id row = randomUUID env.
Proof.
  unfold addMemory. destruct (generateEmbedding env content) as [embedding|];
    [|cbn; auto].
  unfold insert_memory. cbn [MemoryRow.id].
  destruct (has_memory db (randomUUID env)); [cbn; auto|]. cbn [snd].
  edestruct swallow_embedding_tables as (Hm & Hr & Hf);
    [left; eexists _, _; reflexivity|].
  rewrite Hm, Hr, Hf. cbn. repeat split.
  intros row Hin. apply in_app_or in Hin as [Hin|[<-|[]]]; auto.
Qed.

Lemma update_memory_row_tables id c m t db :
  foreign_keys (snd (update_memory_row id c m t db)) = foreign_keys db
  /\ relationships (snd (update_memory_row id c m t db)) = relationships db
  /\ map MemoryRow.id (memories (snd (update_memory_row id c m t db)))
     = map MemoryRow.id (memories db).
Proof.
  unfold update_memory_row. cbn. repeat split.
  rewrite map_map. apply map_ext. intros r.
  now destruct (String.eqb (MemoryRow.id r) id).
Qed.

Lemma updateMemory_tables env id content metadata db :
  foreign_keys (snd (updateMemory env id content metadata db)) = foreign_keys db
  /\ relationships (snd (updateMemory env id content metadata db)) = relationships db
  /\ map MemoryRow.id (memories (snd (updateMemory env id content metadata db)))
     = map MemoryRow.id (memories db).
Proof.
  unfold updateMemory.
  destruct (getMemory db id) as [[found|]|]; [|cbn; now auto..].
  destruct content as [c|].
  - destruct (generateEmbedding env c) as [embedding|]; [|cbn; now auto].
    destruct (swallow_embedding_tables (update_embedding id embedding db) db)
      as (Hm & Hr & Hf); [right; left; eexists _, _; reflexivity|].
    set (db1 := swallow (update_embedding id embedding db) db) in *.
    pose proof (update_memory_row_tables id (Some c)
                  (option_map JSON.stringify metadata) (CURRENT_TIMESTAMP env) db1) as H.
    destruct (update_memory_row id (Some c) (option_map JSON.stringify metadata)
                                (CURRENT_TIMESTAMP env) db1) as [changes db2].
    cbn [snd] in *. now rewrite Hm, Hr, Hf in H.
  - destruct metadata as [m|]; [|cbn; now auto].
    pose proof (update_memory_row_tables id None
                  (option_map JSON.stringify (Some m)) (CURRENT_TIMESTAMP env) db) as H.
    destruct (update_memory_row id None (option_map JSON.stringify (Some m))
                                (CURRENT_TIMESTAMP env) db) as [changes db2].
    exact H.
Qed.

Lemma deleteMemory_tables id db :
  foreign_keys (snd (deleteMemory id db)) = foreign_keys db
  /\ forall row, In row (memories (snd (deleteMemory id db))) -> In row (memories db).
Proof.
  unfold deleteMemory. cbn [delete_memory_row snd].
  edestruct swallow_embedding_tables as (Hm & Hr & Hf);
    [right; right; eexists; reflexivity|].
  rewrite Hm, Hf. cbn. split; [reflexivity|].
  intros row Hin. now apply filter_In in Hin.
Qed.

Lemma reachable_sound db : reachable db -> sound db.
Proof.
  unfold sound.
  induction 1 as [|vec db _ [Hf Hid]|env c m db _ [Hf Hid] Hu
                 |env id c m db _ [Hf Hid]|id db _ [Hf Hid]
                 |env from to ty s m db _ [Hf Hid] Hu|id s m db _ [Hf Hid]
                 |id db _ [Hf Hid]].
  - split; [reflexivity|intros row []].
  - split; [reflexivity|exact Hid].
  - destruct (addMemory_tables env c m db) as (Ef & _ & Hin).
    split; [congruence|]. intros row Hrow.
    destruct (Hin row Hrow) as [H| ->]; auto.
  - destruct (updateMemory_tables env id c m db) as (Ef & _ & Eid).
    split; [congruence|]. intros row Hrow.
    apply (in_map MemoryRow.id) in Hrow. rewrite Eid in Hrow.
    apply in_map_iff in Hrow as (row' & <- & Hrow'). auto.
  - destruct (deleteMemory_tables id db) as (Ef & Hin).
    split; [congruence|]. intros row Hrow. auto.
  - unfold addRelationship, insert_relationship.
    repeat match goal with
           | |- context [if ?b then _ else _] => destruct b
           end; cbn; auto.
  - unfold updateRelationship. destruct s, m; cbn; auto.
  - cbn. auto.
Qed.

(** C7, as stated, fails: a number that is NaN or infinite is written
    [null], so the metadata [{score: NaN}] comes back as [{score: null}]. *)
Lemma nan_metadata_is_read_back_null :
  let M := JSON.JObj [("score", JSON.JNum Number.nan)] in
  let added := addMemory (online "m1" 1) "a note" (Some M)
                         (initializeDatabase true fresh) in
  fst added = Ok "m1"%string
  /\ exists m, getMemory (snd added) "m1" = Ok (Some m)
               /\ Memory.content m = "a note"%string
               /\ Memory.metadata m = JSON.JObj [("score", JSON.JNull)]
               /\ Memory.metadata m <> M.
Proof.
  cbv zeta. split; [reflexivity|]. eexists. split; [vm_compute; reflexivity|].
  repeat split. discriminate.
Qed.

(** C7, as amended.  Round trip: when [addMemory(C, M)] succeeds and
    returns [id], [getMemory(id)] returns a memory whose content is [C] and
    whose metadata is what [JSON.parse] reads in the text [JSON.stringify]
    wrote for [M] (for the empty object when [M] was left out): [M] itself
    when every number in [M] is finite and is not the negative zero, and
    in general [M] with null for every NaN and infinity and 0 for every
    negative zero. *)
Theorem get_after_add env C M db id db' :
  addMemory env C M db = (Ok id, db') ->
  exists m, getMemory db' id = Ok (Some m)
            /\ Memory.id m = id
            /\ Memory.content m = C
            /\ Memory.metadata m = Normal.normal (default JSON.empty_object M)
            /\ (JSON.wf (default JSON.empty_object M) = true ->
                Memory.metadata m = default JSON.empty_object M).
Proof.
  unfold addMemory.
  destruct (generateEmbedding env C) as [embedding|e]; [|discriminate].
  unfold insert_memory. cbn [MemoryRow.id].
  destruct (has_memory db (randomUUID env)) eqn:Hnew; [discriminate|].
  intros [= <- <-].
  unfold getMemory. rewrite swallow_insert_embedding_memories. cbn [memories].
  apply find_none_has_memory in Hnew.
  rewrite (find_app_last _ _ _ Hnew) by (cbn; apply String.eqb_refl).
  unfold toMemory. cbn [MemoryRow.metadata].
  rewrite NormalFacts.parse_metadata_written. cbn.
  eexists. repeat split. cbn [Memory.metadata]. apply NormalFacts.normal_wf.
Qed.

Lemma get_after_add_witness :
  exists m, getMemory db_paris "m1" = Ok (Some m)
            /\ Memory.id m = "m1"%string
            /\ Memory.content m = "Paris is the capital of France"%string
            /\ Memory.metadata m = Normal.normal fact
            /\ (JSON.wf fact = true -> Memory.metadata m = fact).
Proof.
  apply (get_after_add (online "m1" 1) "Paris is the capital of France" (Some fact)
                       (initializeDatabase true fresh) "m1" db_paris).
  vm_compute. reflexivity.
Defined.

(** C10. When embedding generation fails, nothing is stored: [addMemory]
    rejects with the provider's error and leaves the database as it was;
    [updateMemory] with that content never changes the database, and for an
    existing memory it rejects with the provider's error. *)
Theorem embedding_failure_keeps_state env content e db :
  generateEmbedding env content = Err e ->
  (forall metadata, addMemory env content metadata db = (Err e, db))
  /\ (forall id metadata,
         snd (updateMemory env id (Some content) metadata db) = db
         /\ (forall m, getMemory db id = Ok (Some m) ->
                       updateMemory env id (Some content) metadata db = (Err e, db))).
Proof.
  intros He. split.
  - intros metadata. unfold addMemory. now rewrite He.
  - intros id metadata. unfold updateMemory. rewrite He.
    destruct (getMemory db id) as [[m|]|e']; cbn; split; try reflexivity;
      intros m' [=]; reflexivity.
Qed.

Lemma embedding_failure_keeps_state_witness :
  (forall metadata,
      addMemory (offline "m2" 2) "Tokyo" metadata db_paris
      = (Err (ProviderError "Failed to generate embedding"), db_paris))
  /\ (forall id metadata,
         snd (updateMemory (offline "m2" 2) id (Some "Tokyo"%string) metadata db_paris)
         = db_paris
         /\ (forall m, getMemory db_paris id = Ok (Some m) ->
                       updateMemory (offline "m2" 2) id (Some "Tokyo"%string) metadata
                                    db_paris
                       = (Err (ProviderError "Failed to generate embedding"), db_paris))).
Proof.
  apply (embedding_failure_keeps_state (offline "m2" 2) "Tokyo"
           (ProviderError "Failed to generate embedding") db_paris).
  reflexivity.
Defined.

Lemma filter_all {A} (p : A -> bool) l :
  (forall x, In x l -> p x = true) -> List.filter p l = l.
Proof.
  induction l as [|x l IH]; cbn; intros H; [reflexivity|].
  rewrite (H x) by now left. f_equal. apply IH. intros y Hy. apply H. now right.
Qed.

Lemma filter_none {A} (p : A -> bool) l :
  (forall x, In x l -> p x = false) -> List.filter p l = [].
Proof.
  induction l as [|x l IH]; cbn; intros H; [reflexivity|].
  rewrite (H x) by now left. apply IH. intros y Hy. apply H. now right.
Qed.

Lemma existsb_false {A} (p : A -> bool) l :
  existsb p l = false <-> forall x, In x l -> p x = false.
Proof.
  induction l as [|x l IH]; cbn; [firstorder|].
  rewrite orb_false_iff, IH. firstorder; subst; auto.
Qed.

Lemma delete_unknown_rows id db :
  has_memory db id = false ->
  delete_memory_row id db
  = (0%nat, {| memories := memories db; relationships := relationships db;
               memory_embeddings := memory_embeddings db;
               vec0 := vec0 db; foreign_keys := foreign_keys db |}).
Proof.
  intros H. unfold delete_memory_row, has_memory in *.
  rewrite existsb_false in H.
  rewrite (filter_none _ _ H). cbn [length Nat.eqb negb].
  rewrite andb_false_r. rewrite filter_all; [reflexivity|].
  intros x Hx. now rewrite (H x Hx).
Qed.

(** C8, as amended.  For an id that is not in the memories table:
    [getMemory] returns null, [updateMemory] resolves to false and
    [deleteMemory] returns false; none of them raises; [getMemory] and
    [updateMemory] leave the database as it was, and [deleteMemory] leaves
    the memories, the relationships and every embedding stored under
    another id as they were.  What [deleteMemory] does to an embedding
    stored under that id depends on the extension: when it is loaded, no
    embedding is left under the id; when it is not, the DELETE on the vector
    table fails, is swallowed, and the database is as it was (as it is when
    no embedding is stored under the id). *)
Theorem unknown_id_is_not_found env id db :
  has_memory db id = false ->
  getMemory db id = Ok None
  /\ (forall content metadata, updateMemory env id content metadata db = (Ok false, db))
  /\ fst (deleteMemory id db) = false
  /\ memories (snd (deleteMemory id db)) = memories db
  /\ relationships (snd (deleteMemory id db)) = relationships db
  /\ (forall k v, k <> id ->
                  (In (k, v) (memory_embeddings (snd (deleteMemory id db)))
                   <-> In (k, v) (memory_embeddings db)))
  /\ (has_embedding db id = false -> snd (deleteMemory id db) = db)
  /\ (vec0 db = true -> has_embedding (snd (deleteMemory id db)) id = false)
  /\ (vec0 db = false -> snd (deleteMemory id db) = db).
Proof.
  intros H.
  assert (Hget : getMemory db id = Ok None).
  { unfold getMemory. apply find_none_has_memory in H. now rewrite H. }
  split; [exact Hget|]. split.
  { intros content metadata. unfold updateMemory. now rewrite Hget. }
  unfold deleteMemory. rewrite (delete_unknown_rows _ _ H).
  unfold delete_embedding. cbn [vec0 memories relationships memory_embeddings foreign_keys].
  destruct (vec0 db) eqn:Hvec; cbn [negb swallow fst snd memories relationships
                                     memory_embeddings].
  - repeat split; try reflexivity; try discriminate.
    + intros Hin. now apply filter_In in Hin.
    + intros Hin. apply filter_In. split; [assumption|]. cbn.
      now destruct (String.eqb_spec k id).
    + intros Hemb. unfold has_embedding in Hemb. rewrite existsb_false in Hemb.
      rewrite filter_all by (intros x Hx; now rewrite (Hemb x Hx)).
      destruct db; cbn in *; now subst.
    + intros _. unfold has_embedding. cbn [memory_embeddings].
      apply existsb_false. intros x Hx. apply filter_In in Hx as [_ Hx].
      now apply negb_true_iff in Hx.
  - repeat split; try reflexivity; try tauto; try discriminate.
    + intros _. destruct db; cbn in *; now subst.
    + intros _. destruct db; cbn in *; now subst.
Qed.

Lemma unknown_id_is_not_found_witness :
  getMemory db_paris "m9" = Ok None
  /\ (forall content metadata,
         updateMemory (online "m2" 2) "m9" content metadata db_paris = (Ok false, db_paris))
  /\ fst (deleteMemory "m9" db_paris) = false
  /\ memories (snd (deleteMemory "m9" db_paris)) = memories db_paris
  /\ relationships (snd (deleteMemory "m9" db_paris)) = relationships db_paris
  /\ (forall k v, k <> "m9"%string ->
                  (In (k, v) (memory_embeddings (snd (deleteMemory "m9" db_paris)))
                   <-> In (k, v) (memory_embeddings db_paris)))
  /\ (has_embedding db_paris "m9" = false -> snd (deleteMemory "m9" db_paris) = db_paris)
  /\ (vec0 db_paris = true -> has_embedding (snd (deleteMemory "m9" db_paris)) "m9" = false)
  /\ (vec0 db_paris = false -> snd (deleteMemory "m9" db_paris) = db_paris).
Proof.
  apply (unknown_id_is_not_found (online "m2" 2) "m9" db_paris). reflexivity.
Defined.

(** C8, as stated, fails: an embedding row left behind under an id that has
    no memory is removed by [deleteMemory], which still returns false. *)
Lemma unknown_id_delete_changes_state :
  reachable db_stale
  /\ has_memory db_stale "m1" = false
  /\ has_embedding db_stale "m1" = true
  /\ fst (deleteMemory "m1" db_stale) = false
  /\ has_embedding (snd (deleteMemory "m1" db_stale)) "m1" = false
  /\ snd (deleteMemory "m1" db_stale) <> db_stale.
Proof.
  split.
  { unfold db_stale. cbv zeta. apply reach_open, reach_deleteMemory, reach_open.
    apply reach_addMemory; [|discriminate]. apply reach_open, reach_fresh. }
  repeat split; try (vm_compute; reflexivity).
  intros H. apply (f_equal (fun db => has_embedding db "m1")) in H.
  vm_compute in H. discriminate H.
Qed.

End MemoryFacts.

(** ** Relationships *)

Module RelationshipFacts.
Import Examples.

(** C5: the code does not do what the claim says.  For an id that no
    relationship has, [updateRelationship] with neither strength nor
    metadata returns true (and touches nothing), although with a strength or
    a metadata document it returns false. *)
Theorem updateRelationship_missing id db :
  has_relationship db id = false ->
  updateRelationship id None None db = (true, db)
  /\ (forall strength metadata,
         strength <> None \/ metadata <> None ->
         fst (updateRelationship id strength metadata db) = false).
Proof.
  intros Hid. split; [reflexivity|].
  assert (Hnone : List.filter (fun r => String.eqb (RelationshipRow.id r) id)
                              (relationships db) = []).
  { apply MemoryFacts.filter_none. now apply MemoryFacts.existsb_false. }
  intros strength metadata Hgiven. unfold updateRelationship, update_relationship_row.
  destruct strength, metadata; cbn [fst]; try (now rewrite Hnone).
  destruct Hgiven; contradiction.
Qed.

Lemma updateRelationship_missing_witness :
  updateRelationship "no-such-id" None None (initializeDatabase true fresh)
  = (true, initializeDatabase true fresh)
  /\ (forall strength metadata,
         strength <> None \/ metadata <> None ->
         fst (updateRelationship "no-such-id" strength metadata
                                 (initializeDatabase true fresh)) = false).
Proof.
  apply (updateRelationship_missing "no-such-id" (initializeDatabase true fresh)).
  reflexivity.
Defined.

Lemma truthy_nonempty id : id <> ""%string -> truthy (Some id) = Some id.
Proof.
  intros H. unfold truthy. now destruct (String.eqb_spec id "").
Qed.

Lemma where_clause_endpoint q id r :
  RelationshipQuery.memoryId q = Some id -> id <> ""%string ->
  where_clause q r = true -> touches id r = true.
Proof.
  intros Hq Hid. unfold where_clause. rewrite Hq, (truthy_nonempty id Hid).
  intros H. apply andb_prop in H as [H _]. apply andb_prop in H as [_ H].
  unfold touches. destruct (default dir_both (RelationshipQuery.direction q));
    rewrite H; auto using orb_true_r.
Qed.

Lemma where_only_memory id r :
  id <> ""%string ->
  where_clause (only_memory id) r
  = Qle_bool 0 (RelationshipRow.strength r) && touches id r.
Proof.
  intros Hid. unfold where_clause, only_memory. cbn -[truthy].
  rewrite (truthy_nonempty id Hid). cbn. now rewrite andb_true_r.
Qed.

Lemma deleteMemory_relationships id db :
  relationships (snd (deleteMemory id db))
  = if foreign_keys db && has_memory db id
    then List.filter (fun r => negb (touches id r)) (relationships db)
    else relationships db.
Proof.
  unfold deleteMemory, delete_memory_row, delete_embedding.
  cbn [vec0 fst snd]. 
  assert (E : negb (Nat.eqb (length (List.filter
                (fun r => String.eqb (MemoryRow.id r) id) (memories db))) 0)
              = has_memory db id).
  { unfold has_memory. induction (memories db) as [|r l IH]; cbn; [reflexivity|].
    destruct (String.eqb (MemoryRow.id r) id); cbn; [reflexivity|exact IH]. }
  rewrite E. destruct (vec0 db); reflexivity.
Qed.

Lemma deleteMemory_result id db : fst (deleteMemory id db) = has_memory db id.
Proof.
  unfold deleteMemory, delete_memory_row, has_memory. cbn [fst].
  induction (memories db) as [|r l IH]; cbn; [reflexivity|].
  destruct (String.eqb (MemoryRow.id r) id); cbn; [reflexivity|exact IH].
Qed.

Lemma cascade_when_enforced A db :
  foreign_keys db = true -> has_memory db A = true -> A <> ""%string ->
  fst (deleteMemory A db) = true
  /\ (forall r, In r (relationships db) -> touches A r = true ->
                ~ In r (relationships (snd (deleteMemory A db))))
  /\ (forall r, In r (relationships (snd (deleteMemory A db))) ->
                RelationshipRow.from_memory_id r <> A
                /\ RelationshipRow.to_memory_id r <> A)
  /\ (forall q, RelationshipQuery.memoryId q = Some A ->
                getRelationships q (snd (deleteMemory A db)) = Ok []).
Proof.
  intros Hfk Hmem HA.
  assert (Hrel : relationships (snd (deleteMemory A db))
                 = List.filter (fun r => negb (touches A r)) (relationships db)).
  { now rewrite deleteMemory_relationships, Hfk, Hmem. }
  split; [now rewrite deleteMemory_result|].
  split; [|split].
  - intros r _ Ht Hin. rewrite Hrel in Hin. apply filter_In in Hin as [_ Hn].
    now rewrite Ht in Hn.
  - intros r Hin. rewrite Hrel in Hin. apply filter_In in Hin as [_ Hn].
    unfold touches in Hn. apply negb_true_iff, orb_false_iff in Hn as [H1 H2].
    split; now apply String.eqb_neq.
  - intros q Hq. unfold getRelationships, relationship_rows, SQL.select.
    rewrite MemoryFacts.filter_none; [cbn; now rewrite SQLFacts.LIMIT_nil|].
    intros r Hin. rewrite Hrel in Hin. apply filter_In in Hin as [_ Hn].
    destruct (where_clause q r) eqn:Hw; [|reflexivity].
    apply (where_clause_endpoint q A r Hq HA) in Hw. now rewrite Hw in Hn.
Qed.

(** C1. Cascade: in every database the service can be left with, deleting
    a stored memory [A] removes every relationship that has [A] as its
    from- or to-endpoint; afterwards no relationship names [A], and
    [getRelationships] with [memoryId: A] returns the empty list, whatever
    the other fields of the query. *)
Theorem deleteMemory_cascades A db :
  reachable db -> has_memory db A = true ->
  fst (deleteMemory A db) = true
  /\ (forall r, In r (relationships db) -> touches A r = true ->
                ~ In r (relationships (snd (deleteMemory A db))))
  /\ (forall r, In r (relationships (snd (deleteMemory A db))) ->
                RelationshipRow.from_memory_id r <> A
                /\ RelationshipRow.to_memory_id r <> A)
  /\ (forall q, RelationshipQuery.memoryId q = Some A ->
                getRelationships q (snd (deleteMemory A db)) = Ok []).
Proof.
  intros Hreach Hmem.
  destruct (MemoryFacts.reachable_sound db Hreach) as [Hfk Hids].
  apply cascade_when_enforced; [exact Hfk|exact Hmem|].
  unfold has_memory in Hmem. apply existsb_exists in Hmem as (row & Hrow & Hid).
  apply String.eqb_eq in Hid. subst A. now apply Hids.
Qed.

Lemma db_pair_reachable strength : reachable (db_pair strength).
Proof.
  unfold db_pair. cbv zeta.
  apply reach_addRelationship; [|discriminate].
  apply reach_addMemory; [|discriminate].
  apply reach_addMemory; [|discriminate].
  apply reach_open, reach_fresh.
Defined.

Lemma deleteMemory_cascades_witness :
  fst (deleteMemory "m1" (db_pair None)) = true
  /\ (forall r, In r (relationships (db_pair None)) -> touches "m1" r = true ->
                ~ In r (relationships (snd (deleteMemory "m1" (db_pair None)))))
  /\ (forall r, In r (relationships (snd (deleteMemory "m1" (db_pair None)))) ->
                RelationshipRow.from_memory_id r <> "m1"%string
                /\ RelationshipRow.to_memory_id r <> "m1"%string)
  /\ (forall q, RelationshipQuery.memoryId q = Some "m1"%string ->
                getRelationships q (snd (deleteMemory "m1" (db_pair None))) = Ok []).
Proof.
  apply (deleteMemory_cascades "m1" (db_pair None)).
  - exact (db_pair_reachable None).
  - vm_compute. reflexivity.
Defined.

(** The cascade is the engine's: on a connection that does not enforce
    foreign keys the same call would leave the relationship behind. *)
Example cascade_needs_enforcement :
  let unenforced :=
    {| memories := memories (db_pair None);
       relationships := relationships (db_pair None);
       memory_embeddings := memory_embeddings (db_pair None);
       vec0 := true; foreign_keys := false |} in
  fst (deleteMemory "m1" unenforced) = true
  /\ map RelationshipRow.id (relationships (snd (deleteMemory "m1" unenforced)))
     = ["r1"%string].
Proof. split; vm_compute; reflexivity. Qed.

Example db_pair_has_relationship :
  map RelationshipRow.id (relationships (db_pair None)) = ["r1"%string]
  /\ relationships (snd (deleteMemory "m1" (db_pair None))) = [].
Proof. split; vm_compute; reflexivity. Qed.

End RelationshipFacts.

(** ** Search *)

Module SearchFacts.
Import Examples SQL SQLFacts.

Lemma Qltb_lt a b : Qltb a b = true <-> (a < b)%Q.
Proof.
  unfold Qltb. rewrite negb_true_iff. split.
  - intros H. apply Qnot_le_lt. intros Hle. apply Qle_bool_iff in Hle. congruence.
  - intros H. destruct (Qle_bool b a) eqn:E; [|reflexivity].
    apply Qle_bool_iff in E. exfalso. now apply (Qlt_not_le a b).
Qed.





(** *** LIKE '%query%' *)








Lemma Forall2_length_eq {A B} (R : A -> B -> Prop) l r :
  Forall2 R l r -> length l = length r.
Proof. induction 1; cbn; congruence. Qed.




(** *** The vector path *)

Lemma joined_In db row v :
  In (row, v) (joined db)
  <-> In row (memories db) /\ In (MemoryRow.id row, v) (memory_embeddings db).
Proof.
  unfold joined. rewrite in_flat_map. split.
  - intros (m & Hm & Hin). apply in_map_iff in Hin as ([k w] & E & Hin).
    apply filter_In in Hin as [Hin Hk]. cbn in E, Hk. injection E as <- <-.
    apply String.eqb_eq in Hk. subst k. now split.
  - intros [Hm Hv]. exists row. split; [exact Hm|].
    apply in_map_iff. exists (MemoryRow.id row, v). split; [reflexivity|].
    apply filter_In. split; [exact Hv|]. cbn. apply String.eqb_refl.
Qed.

Lemma scored_In env db q scored row d :
  mapM (fun mv => bind (vec_distance_cosine env (snd mv) q)
                       (fun d => Ok (fst mv, d))) (joined db) = Ok scored ->
  In (row, d) scored <-> embedded_at env db q row d.
Proof.
  intros H. apply mapM_Ok in H. unfold embedded_at. split.
  - intros Hin. destruct (Forall2_In_r _ _ _ _ H Hin) as ([m v] & Hj & E).
    cbn in E. destruct (vec_distance_cosine env v q) as [d'|] eqn:Ed; [|discriminate].
    cbn in E. injection E as <- <-. apply joined_In in Hj as [Hm Hv]. eauto.
  - intros (Hm & v & Hv & Ed).
    assert (Hj : In (row, v) (joined db)) by now apply joined_In.
    destruct (Forall2_In_l _ _ _ _ H Hj) as (y & Hy & E). cbn in E.
    rewrite Ed in E. cbn in E. now injection E as <-.
Qed.



Example vector_search_threshold :
  exists m,
    searchMemories (toy "x" 3) "Paris?"
                   {| SearchOptions.limit := None;
                      SearchOptions.threshold := Some (99 # 100)%Q |} db_cities
    = Ok [m]
    /\ Memory.id m = "m1"%string.
Proof. eexists. split; [vm_compute; reflexivity|reflexivity]. Qed.

(** *** Metadata on read *)



Lemma vector_rows_stored env q limit bound db rows row d :
  vector_rows env q limit bound db = Ok rows -> In (row, d) rows ->
  In row (memories db).
Proof.
  unfold vector_rows. destruct (negb (vec0 db)); [discriminate|].
  destruct (mapM _ (joined db)) as [scored|] eqn:Hscored; [|discriminate].
  cbn. intros [= <-] Hin.
  apply (select_sound nearer (fun md => Qltb (snd md) bound)) in Hin as [Hin _].
  apply (scored_In env db q scored _ _ Hscored) in Hin. apply Hin.
Qed.


(** A malformed row that only the vector statement returns does not fail
    the search: its SyntaxError is caught with everything else and the LIKE
    statement, which does not return the row here, gives the result. *)
Example malformed_row_off_the_text_path :
  vector_search (online "x" 2) "zzz" 10 (1 # 2) db_malformed = Err SyntaxError
  /\ searchMemories (online "x" 2) "zzz" no_options db_malformed = Ok [].
Proof. split; vm_compute; reflexivity. Qed.

Example metadata_defaults :
  parse_metadata None = Ok JSON.empty_object
  /\ parse_metadata (Some ""%string) = Ok JSON.empty_object
  /\ parse_metadata (Some ("{ " ++ quoted "type" ++ " : " ++ quoted "fact" ++ " }")%string)
     = Ok fact
  /\ parse_metadata (Some "[1, 2]"%string)
     = Ok (JSON.JArr [JSON.JNum (Number.of_Z 1); JSON.JNum (Number.of_Z 2)])
  /\ parse_metadata (Some ("{" ++ quoted "score" ++ ": 0.9, " ++ quoted "n"
                                ++ ": 1e+21}")%string)
     = Ok (JSON.JObj [("score", JSON.JNum (Number.of_decimal false 9 (-1)));
                      ("n", JSON.JNum (Number.of_decimal false 1 21))]).
Proof. repeat split; vm_compute; reflexivity. Qed.

End SearchFacts.

(** ** The order of relationships *)

Module StrengthFacts.
Import SQL.

Lemma stronger_iff a b :
  stronger a b = true <->
  (RelationshipRow.strength b < RelationshipRow.strength a)%Q
  \/ ((RelationshipRow.strength b == RelationshipRow.strength a)%Q
      /\ RelationshipRow.created_at b <= RelationshipRow.created_at a).
Proof.
  unfold stronger.
  rewrite orb_true_iff, andb_true_iff, SearchFacts.Qltb_lt, Qle_bool_iff, Z.leb_le.
  split; intros [H|[H1 H2]]; auto.
  - destruct (Qlt_le_dec (RelationshipRow.strength b) (RelationshipRow.strength a))
      as [Hlt|Hle]; [now left|].
    right. split; [now apply Qle_antisym|exact H2].
  - right. split; [|exact H2]. rewrite H1. apply Qle_refl.
Qed.

Lemma stronger_total a b : stronger a b = true \/ stronger b a = true.
Proof.
  rewrite !stronger_iff.
  destruct (Q_dec (RelationshipRow.strength a) (RelationshipRow.strength b))
    as [[H|H]|H]; auto.
  destruct (Z.le_ge_cases (RelationshipRow.created_at a) (RelationshipRow.created_at b)).
  - right. right. split; [exact H|assumption].
  - left. right. split; [now symmetry|assumption].
Qed.

Lemma stronger_trans a b c :
  stronger a b = true -> stronger b c = true -> stronger a c = true.
Proof.
  rewrite !stronger_iff. intros [H1|[H1 H1']] [H2|[H2 H2']].
  - left. now apply Qlt_trans with (RelationshipRow.strength b).
  - left. now rewrite H2.
  - left. now rewrite <- H1.
  - right. split; [now rewrite H2|lia].
Qed.

Lemma sorted_Forall2 {A B} (P : A -> A -> Prop) (Q : B -> B -> Prop)
      (R : A -> B -> Prop) l r :
  (forall a a' b b', R a b -> R a' b' -> P a a' -> Q b b') ->
  Forall2 R l r -> StronglySorted P l -> StronglySorted Q r.
Proof.
  intros HPQ H. induction H as [|a b l r Hab Hlr IH]; intros Hs; [constructor|].
  inversion Hs as [|? ? Hl Ha]; subst. constructor; [auto|].
  apply List.Forall_forall. intros b' Hb'.
  destruct (Forall2_In_r _ _ _ _ Hlr Hb') as (a' & Ha' & Rab').
  rewrite List.Forall_forall in Ha. eauto.
Qed.

Lemma toRelationship_not_weaker a a' b b' :
  toRelationship a = Ok b -> toRelationship a' = Ok b' ->
  stronger a a' = true -> not_weaker b b'.
Proof.
  unfold toRelationship.
  destruct (parse_metadata (RelationshipRow.metadata a)); cbn; [|discriminate].
  destruct (parse_metadata (RelationshipRow.metadata a')); cbn; [|discriminate].
  intros [= <-] [= <-] H. apply stronger_iff in H. exact H.
Qed.

End StrengthFacts.

(** ** Traversal *)

Module TraversalFacts.
Import Examples SQL SQLFacts StrengthFacts RelationshipFacts.

(** *** The loop ends within its bound *)

Lemma toRelationship_ends row rel :
  toRelationship row = Ok rel ->
  Relationship.from_memory_id rel = RelationshipRow.from_memory_id row
  /\ Relationship.to_memory_id rel = RelationshipRow.to_memory_id row.
Proof.
  unfold toRelationship. destruct (parse_metadata _); cbn; [|discriminate].
  intros [= <-]. split; reflexivity.
Qed.

Lemma getRelationships_rows q db rels :
  getRelationships q db = Ok rels ->
  Forall2 (fun row rel => toRelationship row = Ok rel) (relationship_rows q db) rels.
Proof. apply mapM_Ok. Qed.

Lemma relationship_rows_sound q db row :
  In row (relationship_rows q db) ->
  In row (relationships db) /\ where_clause q row = true.
Proof. apply (select_sound stronger (where_clause q)). Qed.

Lemma endpoints_of_row db row :
  In row (relationships db) ->
  RelationshipRow.from_memory_id row ∈ endpoints db
  /\ RelationshipRow.to_memory_id row ∈ endpoints db.
Proof.
  intros Hin. unfold endpoints, endpoint_list. rewrite !elem_of_list_to_set.
  split; apply list_elem_of_In, in_flat_map; exists row; cbn; auto.
Qed.

Lemma other_end_endpoint q db rels id rel :
  getRelationships q db = Ok rels -> In rel rels -> other_end id rel ∈ endpoints db.
Proof.
  intros Hget Hin. apply getRelationships_rows in Hget.
  destruct (Forall2_In_r _ _ _ _ Hget Hin) as (row & Hrow & Hto).
  apply relationship_rows_sound in Hrow as [Hrow _].
  apply toRelationship_ends in Hto as [Hf Ht].
  destruct (endpoints_of_row db row Hrow) as [H1 H2].
  unfold other_end. destruct (String.eqb _ _); congruence.
Qed.

Lemma arrive_remaining db depth st x :
  x ∈ endpoints db -> remaining db (arrive depth st x) = remaining db st.
Proof.
  intros Hx. unfold arrive. destruct (decide (x ∈ visited st)) as [|Hnew];
    [reflexivity|].
  unfold remaining. cbn [queue visited]. rewrite length_app. cbn [length].
  assert (E : endpoints db ∖ visited st
              = {[x]} ∪ endpoints db ∖ (visited st ∪ {[x]})).
  { apply set_eq. intros y.
    rewrite elem_of_union, !elem_of_difference, elem_of_union, elem_of_singleton.
    destruct (decide (y = x)) as [->|]; tauto. }
  assert (D : ({[x]} : gset string) ## endpoints db ∖ (visited st ∪ {[x]})).
  { intros y. rewrite elem_of_singleton, elem_of_difference, elem_of_union,
      elem_of_singleton. tauto. }
  pose proof (size_union (C:=gset string) _ _ D) as Hsize.
  rewrite size_singleton in Hsize. rewrite E, Hsize. lia.
Qed.

Lemma visits_remaining db id depth rels st :
  (forall rel, In rel rels -> other_end id rel ∈ endpoints db) ->
  remaining db (fold_left (visit id depth) rels st) = remaining db st.
Proof.
  revert st. induction rels as [|rel rels IH]; intros st H; [reflexivity|].
  cbn [fold_left]. rewrite IH by (intros r Hr; apply H; now right).
  apply arrive_remaining, H. now left.
Qed.

Lemma traverse_enough db maxDepth fuel st :
  (remaining db st <= fuel)%nat -> traverse db maxDepth fuel st <> None.
Proof.
  revert st. induction fuel as [|fuel IH]; intros st Hst.
  - destruct st as [vis conn [|[id depth] rest]]; cbn; [discriminate|].
    unfold remaining in Hst. cbn in Hst. lia.
  - destruct st as [vis conn [|[id depth] rest]]; cbn [traverse queue];
      [discriminate|].
    cbn [visited connectedIds].
    assert (Hrest : (remaining db {| visited := vis; connectedIds := conn;
                                      queue := rest |} <= fuel)%nat).
    { unfold remaining in *. cbn in *. lia. }
    destruct (maxDepth <=? depth); [now apply IH|].
    destruct (getRelationships (only_memory id) db) as [rels|e] eqn:Hget;
      [|discriminate].
    apply IH. rewrite visits_remaining; [exact Hrest|].
    intros rel Hrel. eapply other_end_endpoint; eauto.
Qed.

Lemma size_list_to_set_le (l : list string) :
  (size (list_to_set l : gset string) <= length l)%nat.
Proof.
  induction l as [|x l IH]; [now rewrite list_to_set_nil, size_empty|].
  rewrite list_to_set_cons.
  pose proof (size_union_alt (C:=gset string) {[x]} (list_to_set l)) as Hsize.
  rewrite size_singleton in Hsize. cbn [length].
  assert (Hsub : list_to_set l ∖ {[x]} ⊆ (list_to_set l : gset string)).
  { intros y. rewrite elem_of_difference. tauto. }
  apply (subseteq_size (C:=gset string)) in Hsub. lia.
Qed.

Lemma start_remaining db memoryId :
  (remaining db (start memoryId) <= loop_bound db)%nat.
Proof.
  unfold remaining, start, loop_bound. cbn [queue visited length].
  assert (H1 : endpoints db ∖ {[memoryId]} ⊆ endpoints db).
  { intros y. rewrite elem_of_difference. tauto. }
  apply (subseteq_size (C:=gset string)) in H1.
  pose proof (size_list_to_set_le (endpoint_list db)) as H2. fold (endpoints db) in H2.
  assert (H3 : length (endpoint_list db) = (2 * length (relationships db))%nat).
  { unfold endpoint_list. induction (relationships db) as [|r l IH]; cbn; [reflexivity|].
    rewrite IH. lia. }
  lia.
Qed.

(** The loop of [getConnectedMemories] always ends within [loop_bound]. *)
Lemma traverse_finishes db maxDepth memoryId :
  traverse db maxDepth (loop_bound db) (start memoryId) <> None.
Proof. apply traverse_enough, start_remaining. Qed.

Lemma getConnectedMemories_finishes memoryId maxDepth db :
  getConnectedMemories memoryId maxDepth db <> Err Unfinished.
Proof.
  unfold getConnectedMemories.
  destruct (traverse _ _ _ _) as [[ids|e]|] eqn:Ht.
  - cbn [bind]. destruct (mapM (getMemory db) ids) as [ms|e] eqn:Hm; [discriminate|].
    cbn [bind]. apply mapM_Err in Hm as (id & _ & Hid). intros [= ->].
    unfold getMemory in Hid. destruct (List.find _ _) as [row|]; [|discriminate].
    unfold toMemory, parse_metadata in Hid. destruct (JSON.parse _); discriminate.
  - cbn [bind]. intros [= ->]. revert Ht.
    generalize (start memoryId). induction (loop_bound db) as [|fuel IH]; intros st.
    + destruct st as [vis conn [|[id depth] rest]]; cbn; discriminate.
    + destruct st as [vis conn [|[id depth] rest]]; cbn [traverse queue];
        [discriminate|].
      destruct (default 2 maxDepth <=? depth); [apply IH|].
      destruct (getRelationships (only_memory id) db) as [rels|e'] eqn:Hget;
        [apply IH|].
      intros [= ->]. unfold getRelationships in Hget.
      apply mapM_Err in Hget as (row & _ & Hrow).
      unfold toRelationship, parse_metadata in Hrow.
      destruct (JSON.parse _); discriminate.
  - now apply traverse_finishes in Ht.
Qed.

(** *** The start node is never returned *)

Lemma arrive_excludes memoryId depth st x :
  excludes memoryId st -> excludes memoryId (arrive depth st x).
Proof.
  intros [Hv Hc]. unfold arrive.
  destruct (decide (x ∈ visited st)) as [|Hnew]; [now split|].
  split; cbn [visited connectedIds].
  - rewrite elem_of_union. now left.
  - unfold set_add. destruct (existsb _ _); [exact Hc|].
    intros Hin. apply in_app_or in Hin as [Hin|[<-|[]]]; [now apply Hc|].
    now apply Hnew.
Qed.

Lemma visits_exclude memoryId id depth rels st :
  excludes memoryId st -> excludes memoryId (fold_left (visit id depth) rels st).
Proof.
  revert st. induction rels as [|rel rels IH]; intros st H; [exact H|].
  cbn [fold_left]. apply IH. now apply arrive_excludes.
Qed.

Lemma traverse_excludes db maxDepth memoryId fuel st ids :
  excludes memoryId st -> traverse db maxDepth fuel st = Some (Ok ids) ->
  ~ In memoryId ids.
Proof.
  revert st. induction fuel as [|fuel IH]; intros st Hst;
    destruct st as [vis conn [|[id depth] rest]]; cbn [traverse queue connectedIds visited].
  - intros [= <-]. apply Hst.
  - discriminate.
  - intros [= <-]. apply Hst.
  - assert (Hrest : excludes memoryId {| visited := vis; connectedIds := conn;
                                         queue := rest |}) by exact Hst.
    destruct (maxDepth <=? depth); [now apply IH|].
    destruct (getRelationships (only_memory id) db) as [rels|e]; [|discriminate].
    apply IH. now apply visits_exclude.
Qed.

Lemma getMemory_id db id m : getMemory db id = Ok (Some m) -> Memory.id m = id.
Proof.
  unfold getMemory. destruct (List.find _ _) as [row|] eqn:Hfind; [|discriminate].
  apply find_some in Hfind as [_ Hid]. apply String.eqb_eq in Hid.
  unfold toMemory. destruct (parse_metadata _); cbn; [|discriminate].
  now intros [= <-].
Qed.

Lemma non_null_In {A} (l : list (option A)) x : In x (non_null l) <-> In (Some x) l.
Proof.
  unfold non_null. rewrite in_flat_map. split.
  - intros ([y|] & Hy & Hx); cbn in Hx; [|contradiction].
    destruct Hx as [->|[]]. exact Hy.
  - intros H. exists (Some x). split; [exact H|now left].
Qed.

Lemma connected_excludes_start memoryId maxDepth db ms m :
  getConnectedMemories memoryId maxDepth db = Ok ms -> In m ms ->
  Memory.id m <> memoryId.
Proof.
  unfold getConnectedMemories.
  destruct (traverse _ _ _ _) as [[ids|e]|] eqn:Ht; cbn [bind]; try discriminate.
  destruct (mapM (getMemory db) ids) as [found|e] eqn:Hm; cbn [bind]; [|discriminate].
  intros [= <-] Hin. apply non_null_In in Hin. apply mapM_Ok in Hm.
  destruct (Forall2_In_r _ _ _ _ Hm Hin) as (id & Hid & Hget).
  apply getMemory_id in Hget. rewrite Hget. intros ->.
  eapply traverse_excludes; [|exact Ht|exact Hid].
  split; [cbn [start visited]; now rewrite elem_of_singleton|intros []].
Qed.

(** *** One expansion step *)

Lemma arrive_visited depth st x : x ∈ visited (arrive depth st x).
Proof.
  unfold arrive. destruct (decide (x ∈ visited st)); [assumption|].
  cbn [visited]. rewrite elem_of_union, elem_of_singleton. now right.
Qed.

Lemma arrive_grows depth st x y : y ∈ visited st -> y ∈ visited (arrive depth st x).
Proof.
  intros Hy. unfold arrive. destruct (decide (x ∈ visited st)); [assumption|].
  cbn [visited]. rewrite elem_of_union. now left.
Qed.

Lemma visits_grow id depth rels st y :
  y ∈ visited st -> y ∈ visited (fold_left (visit id depth) rels st).
Proof.
  revert st. induction rels as [|rel rels IH]; intros st Hy; [exact Hy|].
  cbn [fold_left]. apply IH. now apply arrive_grows.
Qed.

Lemma visits_reach id depth rels st rel :
  In rel rels -> other_end id rel ∈ visited (fold_left (visit id depth) rels st).
Proof.
  revert st. induction rels as [|r rels IH]; intros st Hin; [contradiction|].
  cbn [fold_left]. destruct Hin as [->|Hin]; [|now apply IH].
  apply visits_grow, arrive_visited.
Qed.

(** C3, as stated, fails, twice over.  A relationship of negative strength
    that touches the popped node is not fetched, so its other end is not
    reached; and of 101 relationships touching the popped node only 100 are
    fetched, so one neighbour is not reached. *)
Lemma db_star_reachable : reachable db_star.
Proof.
  unfold db_star.
  assert (H : forall l db, reachable db -> reachable (fold_left add_leaf l db)).
  { induction l as [|i l IH]; intros db Hdb; [exact Hdb|].
    cbn [fold_left]. apply IH. unfold add_leaf. cbv zeta.
    apply reach_addRelationship; [|discriminate].
    apply reach_addMemory; [exact Hdb|discriminate]. }
  apply H. apply reach_addMemory; [|discriminate]. apply reach_open, reach_fresh.
Qed.

Lemma expansion_misses_relationships :
  reachable db_weak /\ reachable db_star
  /\ (exists row, In row (relationships db_weak)
               /\ touches "m1" row = true
               /\ RelationshipRow.to_memory_id row = "m2"%string)
  /\ getRelationships (only_memory "m1") db_weak = Ok []
  /\ getConnectedMemories "m1" None db_weak = Ok []
  /\ length (List.filter (touches "hub") (relationships db_star)) = 101%nat
  /\ (exists rels, getRelationships (only_memory "hub") db_star = Ok rels
                   /\ length rels = 100%nat)
  /\ (exists ms, getConnectedMemories "hub" None db_star = Ok ms
                 /\ length ms = 100%nat
                 /\ has_memory db_star (leaf 0) = true
                 /\ existsb (fun m => String.eqb (Memory.id m) (leaf 0)) ms = false).
Proof.
  split; [apply db_pair_reachable|]. split; [apply db_star_reachable|].
  split; [|split; [|split; [|split; [|split]]]].
  - exists (edge "r1" "m1" "m2" "relates_to" (-1)).
    split; [vm_compute; left; reflexivity|]. split; reflexivity.
  - vm_compute. reflexivity.
  - vm_compute. reflexivity.
  - vm_compute. reflexivity.
  - eexists. split; [vm_compute; reflexivity|]. reflexivity.
  - eexists. split; [vm_compute; reflexivity|]. repeat split; vm_compute; reflexivity.
Qed.

Lemma traverse_expand db maxDepth fuel id depth rest vis conn rels :
  depth < maxDepth ->
  getRelationships (only_memory id) db = Ok rels ->
  traverse db maxDepth (S fuel)
           {| visited := vis; connectedIds := conn; queue := (id, depth) :: rest |}
  = traverse db maxDepth fuel
             (fold_left (visit id depth) rels
                        {| visited := vis; connectedIds := conn; queue := rest |}).
Proof.
  intros Hd Hget. cbn [traverse queue visited connectedIds].
  destruct (Z.leb_spec maxDepth depth); [lia|]. now rewrite Hget.
Qed.

Lemma traverse_skip db maxDepth fuel id depth rest vis conn :
  maxDepth <= depth ->
  traverse db maxDepth (S fuel)
           {| visited := vis; connectedIds := conn; queue := (id, depth) :: rest |}
  = traverse db maxDepth fuel
             {| visited := vis; connectedIds := conn; queue := rest |}.
Proof.
  intros Hd. cbn [traverse queue visited connectedIds].
  destruct (Z.leb_spec maxDepth depth); [reflexivity|lia].
Qed.

(** C3, as amended.  When a node with a non-empty id at depth < maxDepth is
    popped, the loop goes on from the frontier in which the relationships
    that [getRelationships] returns for it, with the defaults of that
    function, have been considered: at most 100 relationships, each with
    this node as an endpoint and a strength of at least 0; the other
    endpoint of each is visited afterwards; when no more than 100
    relationships of strength at least 0 touch the node, every one of them
    is among those considered.  The relationships considered are the
    strongest ones: they come ordered by strength, the strongest first, and
    among equal strengths by creation time, the newest first, and a
    relationship of strength at least 0 that touches the node is left out
    only when 100 were considered, each of them stronger than it, or as
    strong and no older. *)
Theorem expansion_considers db maxDepth fuel id depth rest vis conn rels :
  let popped := {| visited := vis; connectedIds := conn; queue := (id, depth) :: rest |} in
  let after :=
    fold_left (visit id depth) rels
              {| visited := vis; connectedIds := conn; queue := rest |} in
  id <> ""%string -> depth < maxDepth ->
  getRelationships (only_memory id) db = Ok rels ->
  traverse db maxDepth (S fuel) popped = traverse db maxDepth fuel after
  /\ (length rels <= 100)%nat
  /\ (forall rel, In rel rels ->
        other_end id rel ∈ visited after
        /\ exists row, In row (relationships db)
                       /\ toRelationship row = Ok rel
                       /\ touches id row = true
                       /\ (0 <= RelationshipRow.strength row)%Q)
  /\ ((length (List.filter
                 (fun row => Qle_bool 0 (RelationshipRow.strength row) && touches id row)
                 (relationships db)) <= 100)%nat ->
      forall row, In row (relationships db) -> touches id row = true ->
                  (0 <= RelationshipRow.strength row)%Q ->
                  exists rel, In rel rels /\ toRelationship row = Ok rel
                              /\ other_end id rel ∈ visited after)
  /\ StronglySorted not_weaker rels
  /\ (forall row, In row (relationships db) -> touches id row = true ->
                  (0 <= RelationshipRow.strength row)%Q ->
                  (exists rel, In rel rels /\ toRelationship row = Ok rel)
                  \/ (length rels = 100%nat
                      /\ forall kept, In kept rels ->
                           (RelationshipRow.strength row < Relationship.strength kept)%Q
                           \/ ((RelationshipRow.strength row
                                 == Relationship.strength kept)%Q
                               /\ RelationshipRow.created_at row
                                  <= Relationship.created_at kept))).
Proof.
  intros popped after Hid Hd Hget.
  split; [now apply traverse_expand|].
  pose proof (getRelationships_rows _ _ _ Hget) as Hrows.
  split; [|split; [|split; [|split]]].
  - rewrite <- (SearchFacts.Forall2_length_eq _ _ _ Hrows).
    apply (select_length stronger (where_clause (only_memory id)) 100). lia.
  - intros rel Hrel. split; [now apply visits_reach|].
    destruct (Forall2_In_r _ _ _ _ Hrows Hrel) as (row & Hrow & Hto).
    apply relationship_rows_sound in Hrow as [Hrow Hw].
    rewrite (where_only_memory id row Hid) in Hw. apply andb_prop in Hw as [Hs Ht].
    exists row. repeat split; try assumption. now apply Qle_bool_iff.
  - intros Hfew row Hrow Ht Hs.
    assert (Hin : In row (relationship_rows (only_memory id) db)).
    { unfold relationship_rows. cbn [only_memory RelationshipQuery.limit default].
      rewrite select_all.
      - apply ORDER_BY_In, filter_In. split; [exact Hrow|].
        rewrite (where_only_memory id row Hid), Ht, andb_true_r.
        now apply Qle_bool_iff.
      - right. erewrite filter_ext; [exact Hfew|].
        intros r. apply (where_only_memory id r Hid). }
    destruct (Forall2_In_l _ _ _ _ Hrows Hin) as (rel & Hrel & Hto).
    exists rel. repeat split; try assumption. now apply visits_reach.
  - eapply sorted_Forall2; [|exact Hrows|].
    + intros a a' b b'. apply toRelationship_not_weaker.
    + apply (select_ordered stronger (where_clause (only_memory id))
               stronger_total stronger_trans).
  - intros row Hrow Ht Hs.
    assert (Hw : where_clause (only_memory id) row = true).
    { rewrite (where_only_memory id row Hid), Ht, andb_true_r. now apply Qle_bool_iff. }
    destruct (select_complete stronger (where_clause (only_memory id)) stronger_total
                stronger_trans 100 (relationships db) row Hrow Hw)
      as [Hin|(_ & Hfull & Hbefore)].
    + left. destruct (Forall2_In_l _ _ _ _ Hrows Hin) as (rel & Hrel & Hto). eauto.
    + right. split.
      * rewrite <- (SearchFacts.Forall2_length_eq _ _ _ Hrows). exact Hfull.
      * intros kept Hkept.
        destruct (Forall2_In_r _ _ _ _ Hrows Hkept) as (krow & Hkrow & Hkto).
        apply Hbefore, stronger_iff in Hkrow.
        unfold toRelationship in Hkto.
        destruct (parse_metadata _); cbn in Hkto; [|discriminate].
        injection Hkto as <-. exact Hkrow.
Qed.

Lemma expansion_considers_witness :
  let db := db_pair None in
  let rels := [relationship_of (edge "r1" "m1" "m2" "relates_to" 1)
                              JSON.empty_object] in
  let popped := {| visited := {["m1"%string]}; connectedIds := [];
                   queue := [("m1"%string, 0)] |} in
  let after :=
    fold_left (visit "m1" 0) rels
              {| visited := {["m1"%string]}; connectedIds := []; queue := [] |} in
  traverse db 2 (S 2) popped = traverse db 2 2 after
  /\ (length rels <= 100)%nat
  /\ (forall rel, In rel rels ->
        other_end "m1" rel ∈ visited after
        /\ exists row, In row (relationships db)
                       /\ toRelationship row = Ok rel
                       /\ touches "m1" row = true
                       /\ (0 <= RelationshipRow.strength row)%Q)
  /\ ((length (List.filter
                 (fun row => Qle_bool 0 (RelationshipRow.strength row)
                             && touches "m1" row)
                 (relationships db)) <= 100)%nat ->
      forall row, In row (relationships db) -> touches "m1" row = true ->
                  (0 <= RelationshipRow.strength row)%Q ->
                  exists rel, In rel rels /\ toRelationship row = Ok rel
                              /\ other_end "m1" rel ∈ visited after)
  /\ StronglySorted not_weaker rels
  /\ (forall row, In row (relationships db) -> touches "m1" row = true ->
                  (0 <= RelationshipRow.strength row)%Q ->
                  (exists rel, In rel rels /\ toRelationship row = Ok rel)
                  \/ (length rels = 100%nat
                      /\ forall kept, In kept rels ->
                           (RelationshipRow.strength row < Relationship.strength kept)%Q
                           \/ ((RelationshipRow.strength row
                                 == Relationship.strength kept)%Q
                               /\ RelationshipRow.created_at row
                                  <= Relationship.created_at kept))).
Proof.
  apply (expansion_considers (db_pair None) 2 2 "m1" 0 [] {["m1"%string]} []).
  - discriminate.
  - lia.
  - vm_compute. reflexivity.
Defined.

(** *** A chain of four memories *)

Lemma fold_visit_arrive id depth rels st :
  fold_left (visit id depth) rels st
  = fold_left (arrive depth) (map (other_end id) rels) st.
Proof.
  revert st. induction rels as [|rel rels IH]; intros st; [reflexivity|].
  cbn [fold_left map]. apply IH.
Qed.

Lemma traverse_neighbours db maxDepth fuel id depth rest vis conn ids :
  depth < maxDepth -> neighbours db id ids ->
  traverse db maxDepth (S fuel)
           {| visited := vis; connectedIds := conn; queue := (id, depth) :: rest |}
  = traverse db maxDepth fuel
             (fold_left (arrive depth) ids
                        {| visited := vis; connectedIds := conn; queue := rest |}).
Proof.
  intros Hd (rels & Hget & <-).
  rewrite (traverse_expand _ _ _ _ _ _ _ _ rels Hd Hget). now rewrite fold_visit_arrive.
Qed.

Lemma traverse_done db maxDepth fuel vis conn :
  traverse db maxDepth fuel {| visited := vis; connectedIds := conn; queue := [] |}
  = Some (Ok conn).
Proof. destruct fuel; reflexivity. Qed.

Lemma arrive_new depth vis conn rest x :
  x ∉ vis -> ~ In x conn ->
  arrive depth {| visited := vis; connectedIds := conn; queue := rest |} x
  = {| visited := vis ∪ {[x]}; connectedIds := conn ++ [x];
       queue := rest ++ [(x, depth + 1)] |}.
Proof.
  intros Hv Hc. unfold arrive. cbn [visited connectedIds queue].
  destruct (decide (x ∈ vis)); [contradiction|].
  unfold set_add. destruct (existsb (String.eqb x) conn) eqn:E; [|reflexivity].
  apply existsb_exists in E as (y & Hy & Exy). apply String.eqb_eq in Exy.
  subst y. contradiction.
Qed.

Lemma arrive_seen depth st x : x ∈ visited st -> arrive depth st x = st.
Proof. intros H. unfold arrive. now destruct (decide (x ∈ visited st)). Qed.

Lemma Permutation_filter_keep {A} (keep : A -> bool) l l' :
  Permutation l l' -> Permutation (List.filter keep l) (List.filter keep l').
Proof.
  induction 1 as [|x l l' _ IH|x y l|l l' l'' _ IH1 _ IH2]; cbn.
  - constructor.
  - destruct (keep x); [now constructor|exact IH].
  - destruct (keep x), (keep y); try reflexivity. apply perm_swap.
  - now transitivity (List.filter keep l').
Qed.

Lemma toRelationship_far_end id row rel :
  toRelationship row = Ok rel -> other_end id rel = far_end id row.
Proof.
  intros H. apply toRelationship_ends in H as [Hf Ht].
  unfold other_end, far_end. now rewrite Hf, Ht.
Qed.

Lemma mapM_toRelationship rows :
  (forall r, In r rows -> exists rel, toRelationship r = Ok rel) ->
  exists rels, mapM toRelationship rows = Ok rels
               /\ forall id, map (other_end id) rels = map (far_end id) rows.
Proof.
  induction rows as [|r rows IH]; intros H.
  - exists []. split; [reflexivity|]. reflexivity.
  - destruct (H r) as [rel Hrel]; [now left|].
    destruct IH as (rels & Hrels & Hends); [intros x Hx; apply H; now right|].
    exists (rel :: rels). cbn [mapM]. rewrite Hrel, Hrels. split; [reflexivity|].
    intros id. cbn [map]. now rewrite Hends, (toRelationship_far_end id r rel Hrel).
Qed.

(** In a table of at most 100 rows that all parse, expanding a node meets
    the far ends of the rows of strength at least 0 that touch it, in some
    order. *)
Lemma neighbours_of db id kept :
  id <> ""%string -> (length (relationships db) <= 100)%nat ->
  Permutation (List.filter (where_clause (only_memory id)) (relationships db)) kept ->
  (forall r, In r kept -> exists rel, toRelationship r = Ok rel) ->
  exists rows, Permutation rows kept /\ neighbours db id (map (far_end id) rows).
Proof.
  intros Hid Hlen Hperm Hparse.
  exists (relationship_rows (only_memory id) db).
  assert (E : relationship_rows (only_memory id) db
              = ORDER_BY stronger
                  (List.filter (where_clause (only_memory id)) (relationships db))).
  { unfold relationship_rows. cbn [only_memory RelationshipQuery.limit default].
    apply select_all. right.
    pose proof (filter_length_le (where_clause (only_memory id)) (relationships db)).
    lia. }
  assert (P : Permutation (relationship_rows (only_memory id) db) kept).
  { rewrite E. etransitivity; [apply ORDER_BY_perm|exact Hperm]. }
  split; [exact P|].
  destruct (mapM_toRelationship (relationship_rows (only_memory id) db))
    as (rels & Hrels & Hends).
  { intros r Hr. apply Hparse. eapply Permutation_in; eauto. }
  exists rels. split; [exact Hrels|apply Hends].
Qed.

Lemma touches_links r x y z :
  links r x y -> touches z r = String.eqb x z || String.eqb y z.
Proof.
  unfold touches. intros [[-> ->]|[-> ->]]; [reflexivity|apply orb_comm].
Qed.

Lemma far_end_links r x y :
  links r x y -> x <> y -> far_end x r = y /\ far_end y r = x.
Proof.
  unfold far_end. intros [[-> ->]|[-> ->]] Hxy.
  - rewrite String.eqb_refl. split; [reflexivity|].
    now destruct (String.eqb_spec x y).
  - rewrite String.eqb_refl. split; [|reflexivity].
    now destruct (String.eqb_spec y x) as [E|_]; [symmetry in E|].
Qed.

(** Membership in the small explicit sets and lists of a symbolic run,
    from the disequalities [H] alone. *)
Ltac in_set H :=
  cbn [visited connectedIds queue];
  rewrite ?elem_of_union, ?elem_of_singleton; cbn [In];
  clear - H; intuition congruence.

Ltac step_new H x := rewrite (arrive_new _ _ _ _ x) by in_set H.
Ltac step_seen H x := rewrite (arrive_seen _ _ x) by in_set H.

Section chain_traversal.
Variables (db : DB) (A B C D : string).
Hypothesis distinct : A <> B /\ A <> C /\ A <> D /\ B <> C /\ B <> D /\ C <> D.
Hypothesis at_A : neighbours db A [B].
Hypothesis at_B : neighbours db B [A; C] \/ neighbours db B [C; A].
Hypothesis at_C : neighbours db C [B; D] \/ neighbours db C [D; B].
Hypothesis at_D : neighbours db D [C].

Lemma traverse_chain_1 fuel :
  traverse db 1 (S (S fuel)) (start A) = Some (Ok [B]).
Proof using distinct at_A.
  unfold start. rewrite (traverse_neighbours db _ _ A 0 _ _ _ [B]) by (lia || exact at_A).
  cbn [fold_left]. step_new distinct B. cbn [app].
  rewrite traverse_skip by lia. apply traverse_done.
Qed.

Lemma traverse_chain_to_C n fuel :
  2 <= n ->
  traverse db n (S (S fuel)) (start A)
  = traverse db n fuel
             {| visited := {[A]} ∪ {[B]} ∪ {[C]}; connectedIds := [B; C];
                queue := [(C, 0 + 1 + 1)] |}.
Proof using distinct at_A at_B.
  intros Hn. unfold start.
  rewrite (traverse_neighbours db _ _ A 0 _ _ _ [B]) by (lia || exact at_A).
  cbn [fold_left]. step_new distinct B. cbn [app].
  destruct at_B as [H|H];
    rewrite (traverse_neighbours db n _ B (0 + 1) _ _ _ _ ltac:(lia) H);
    cbn [fold_left].
  - step_seen distinct A. step_new distinct C. reflexivity.
  - step_new distinct C. step_seen distinct A. reflexivity.
Qed.

Lemma traverse_chain_2 fuel :
  traverse db 2 (S (S (S fuel))) (start A) = Some (Ok [B; C]).
Proof using distinct at_A at_B.
  rewrite traverse_chain_to_C by lia.
  rewrite traverse_skip by lia. apply traverse_done.
Qed.

Lemma traverse_chain_far n fuel :
  3 <= n ->
  traverse db n (S (S (S (S fuel)))) (start A) = Some (Ok [B; C; D]).
Proof using distinct at_A at_B at_C at_D.
  intros Hn. rewrite traverse_chain_to_C by lia.
  assert (E : traverse db n (S (S fuel))
                {| visited := {[A]} ∪ {[B]} ∪ {[C]}; connectedIds := [B; C];
                   queue := [(C, 0 + 1 + 1)] |}
              = traverse db n (S fuel)
                  {| visited := {[A]} ∪ {[B]} ∪ {[C]} ∪ {[D]};
                     connectedIds := [B; C; D];
                     queue := [(D, 0 + 1 + 1 + 1)] |}).
  { destruct at_C as [H|H];
      rewrite (traverse_neighbours db n _ C (0 + 1 + 1) _ _ _ _ ltac:(lia) H);
      cbn [fold_left].
    - step_seen distinct B. step_new distinct D. reflexivity.
    - step_new distinct D. step_seen distinct B. reflexivity. }
  rewrite E. destruct (Z.le_gt_cases n 3).
  - rewrite traverse_skip by lia. apply traverse_done.
  - rewrite (traverse_neighbours db _ _ D (0 + 1 + 1 + 1) _ _ _ [C])
      by (lia || exact at_D).
    cbn [fold_left]. step_seen distinct C. apply traverse_done.
Qed.

End chain_traversal.

Lemma kept_rows db id r1 r2 r3 kept :
  id <> ""%string ->
  Permutation (relationships db) [r1; r2; r3] ->
  Forall (fun r => (0 <= RelationshipRow.strength r)%Q
                   /\ exists rel, toRelationship r = Ok rel) [r1; r2; r3] ->
  List.filter (touches id) [r1; r2; r3] = kept ->
  exists rows, Permutation rows kept /\ neighbours db id (map (far_end id) rows).
Proof.
  intros Hid Hperm Hall Hkept.
  assert (Hin : forall r, In r kept -> In r [r1; r2; r3]).
  { intros r Hr. rewrite <- Hkept in Hr. now apply filter_In in Hr. }
  rewrite List.Forall_forall in Hall.
  apply neighbours_of; [exact Hid| | |].
  - rewrite (Permutation_length Hperm). cbn. lia.
  - rewrite (Permutation_filter_keep _ _ _ Hperm), <- Hkept.
    erewrite filter_ext_in; [reflexivity|]. intros r Hr.
    rewrite (where_only_memory id r Hid).
    destruct (Hall r Hr) as [Hs _]. apply Qle_bool_iff in Hs. now rewrite Hs.
  - intros r Hr. now apply Hall, Hin.
Qed.

Ltac eqb_names H :=
  rewrite ?String.eqb_refl;
  repeat match goal with
         | |- context [String.eqb ?a ?b] =>
             rewrite (proj2 (String.eqb_neq a b)) by (clear - H; intuition congruence)
         end.

Lemma chain_neighbours db A B C D :
  chain db A B C D ->
  neighbours db A [B]
  /\ (neighbours db B [A; C] \/ neighbours db B [C; A])
  /\ (neighbours db C [B; D] \/ neighbours db C [D; B])
  /\ neighbours db D [C].
Proof.
  intros [Hd (HA & HB & HC & HD) (r1 & r2 & r3 & Hp & L1 & L2 & L3 & Hall)].
  assert (F : forall X, List.filter (touches X) [r1; r2; r3]
                        = List.filter (fun r => touches X r) [r1; r2; r3])
    by reflexivity.
  destruct (far_end_links r1 A B L1) as [E1 E1']; [tauto|].
  destruct (far_end_links r2 B C L2) as [E2 E2']; [tauto|].
  destruct (far_end_links r3 C D L3) as [E3 E3']; [tauto|].
  split; [|split; [|split]].
  - destruct (kept_rows db A r1 r2 r3 [r1] HA Hp Hall) as (rows & Hrows & Hn).
    { cbn [List.filter].
      rewrite (touches_links _ _ _ A L1), (touches_links _ _ _ A L2),
        (touches_links _ _ _ A L3).
      eqb_names Hd. reflexivity. }
    apply Permutation_sym, Permutation_length_1_inv in Hrows. subst rows.
    cbn [map] in Hn. now rewrite E1 in Hn.
  - destruct (kept_rows db B r1 r2 r3 [r1; r2] HB Hp Hall) as (rows & Hrows & Hn).
    { cbn [List.filter].
      rewrite (touches_links _ _ _ B L1), (touches_links _ _ _ B L2),
        (touches_links _ _ _ B L3).
      eqb_names Hd. reflexivity. }
    apply Permutation_sym, Permutation_length_2_inv in Hrows as [-> | ->];
      cbn [map] in Hn; rewrite E1', E2 in Hn; auto.
  - destruct (kept_rows db C r1 r2 r3 [r2; r3] HC Hp Hall) as (rows & Hrows & Hn).
    { cbn [List.filter].
      rewrite (touches_links _ _ _ C L1), (touches_links _ _ _ C L2),
        (touches_links _ _ _ C L3).
      eqb_names Hd. reflexivity. }
    apply Permutation_sym, Permutation_length_2_inv in Hrows as [-> | ->];
      cbn [map] in Hn; rewrite E2', E3 in Hn; auto.
  - destruct (kept_rows db D r1 r2 r3 [r3] HD Hp Hall) as (rows & Hrows & Hn).
    { cbn [List.filter].
      rewrite (touches_links _ _ _ D L1), (touches_links _ _ _ D L2),
        (touches_links _ _ _ D L3).
      eqb_names Hd. reflexivity. }
    apply Permutation_sym, Permutation_length_1_inv in Hrows. subst rows.
    cbn [map] in Hn. now rewrite E3' in Hn.
Qed.

Lemma chain_loop_bound db A B C D : chain db A B C D -> loop_bound db = 7%nat.
Proof.
  intros [_ _ (r1 & r2 & r3 & Hp & _)]. unfold loop_bound.
  now rewrite (Permutation_length Hp).
Qed.

(** C9, as stated, fails: when the relationship between the first two
    memories of the chain has a negative strength, nothing is connected to
    the first memory, at any depth. *)
Lemma db_chain_reachable strength : reachable (db_chain strength).
Proof.
  unfold db_chain. cbv zeta.
  do 3 (apply reach_addRelationship; [|discriminate]).
  do 4 (apply reach_addMemory; [|discriminate]).
  apply reach_open, reach_fresh.
Qed.

Lemma chain_broken_by_negative_strength :
  reachable (db_chain (Some (-1)%Q))
  /\ map RelationshipRow.id (relationships (db_chain (Some (-1)%Q)))
  = ["r1"; "r2"; "r3"]%string
  /\ touches "m1" (chain_row "r1" "m1" "m2" (-1)) = true
  /\ In (chain_row "r1" "m1" "m2" (-1)) (relationships (db_chain (Some (-1)%Q)))
  /\ getConnectedMemories "m1" (Some 1) (db_chain (Some (-1)%Q)) = Ok []
  /\ getConnectedMemories "m1" (Some 2) (db_chain (Some (-1)%Q)) = Ok []
  /\ getConnectedMemories "m1" (Some 10) (db_chain (Some (-1)%Q)) = Ok [].
Proof.
  split; [apply db_chain_reachable|].
  split; [vm_compute; reflexivity|]. split; [reflexivity|].
  split; [vm_compute; left; reflexivity|].
  repeat split; vm_compute; reflexivity.
Qed.

(** C9, as amended.  In a chain A - B - C - D whose three relationships
    have a strength of at least 0, [getConnectedMemories(A, 1)] is exactly
    B, with depth 2 (also the default) exactly B and C, and with depth 10 --
    any depth from 3 on -- exactly B, C and D; and for every database,
    start memory and depth, the call ends and its result never includes the
    start memory. *)
Theorem traversal_of_chain :
  (forall db A B C D mB mC mD,
      chain db A B C D ->
      getMemory db B = Ok (Some mB) ->
      getMemory db C = Ok (Some mC) ->
      getMemory db D = Ok (Some mD) ->
      getConnectedMemories A (Some 1) db = Ok [mB]
      /\ getConnectedMemories A (Some 2) db = Ok [mB; mC]
      /\ getConnectedMemories A None db = Ok [mB; mC]
      /\ getConnectedMemories A (Some 10) db = Ok [mB; mC; mD]
      /\ forall n, 3 <= n -> getConnectedMemories A (Some n) db = Ok [mB; mC; mD])
  /\ (forall db memoryId maxDepth,
         getConnectedMemories memoryId maxDepth db <> Err Unfinished
         /\ forall ms m, getConnectedMemories memoryId maxDepth db = Ok ms ->
                         In m ms -> Memory.id m <> memoryId).
Proof.
  split.
  - intros db A B C D mB mC mD Hchain HB HC HD.
    pose proof (chain_loop_bound _ _ _ _ _ Hchain) as Hfuel.
    destruct (chain_neighbours _ _ _ _ _ Hchain) as (NA & NB & NC & ND).
    destruct Hchain as [Hd _ _].
    assert (Hfar : forall n, 3 <= n ->
                             getConnectedMemories A (Some n) db = Ok [mB; mC; mD]).
    { intros n Hn. unfold getConnectedMemories. rewrite Hfuel. cbn [default].
      rewrite (traverse_chain_far db A B C D Hd NA NB NC ND) by exact Hn.
      cbn [bind mapM]. rewrite HB, HC, HD. reflexivity. }
    repeat split.
    + unfold getConnectedMemories. rewrite Hfuel. cbn [default].
      rewrite (traverse_chain_1 db A B C D Hd NA). cbn [bind mapM]. now rewrite HB.
    + unfold getConnectedMemories. rewrite Hfuel. cbn [default].
      rewrite (traverse_chain_2 db A B C D Hd NA NB). cbn [bind mapM].
      now rewrite HB, HC.
    + unfold getConnectedMemories. rewrite Hfuel. cbn [default].
      rewrite (traverse_chain_2 db A B C D Hd NA NB). cbn [bind mapM].
      now rewrite HB, HC.
    + apply Hfar. lia.
    + exact Hfar.
  - intros db memoryId maxDepth. split.
    + apply getConnectedMemories_finishes.
    + intros ms m. apply connected_excludes_start.
Qed.

Lemma db_chain_is_chain : chain (db_chain None) "m1" "m2" "m3" "m4".
Proof.
  split.
  - repeat split; discriminate.
  - repeat split; discriminate.
  - exists (chain_row "r1" "m1" "m2" 1), (chain_row "r2" "m3" "m2" (1 # 2)),
      (chain_row "r3" "m3" "m4" 1).
    split.
    { replace (relationships (db_chain None))
        with [chain_row "r1" "m1" "m2" 1; chain_row "r2" "m3" "m2" (1 # 2);
              chain_row "r3" "m3" "m4" 1] by (vm_compute; reflexivity).
      apply Permutation_refl. }
    split; [left; split; reflexivity|].
    split; [right; split; reflexivity|].
    split; [left; split; reflexivity|].
    repeat constructor; try (unfold Qle; cbn; lia);
      eexists; vm_compute; reflexivity.
Defined.

Lemma traversal_of_chain_witness :
  let db := db_chain None in
  getConnectedMemories "m1" (Some 1) db = Ok [sample "m2" "B"]
  /\ getConnectedMemories "m1" (Some 2) db = Ok [sample "m2" "B"; sample "m3" "C"]
  /\ getConnectedMemories "m1" None db = Ok [sample "m2" "B"; sample "m3" "C"]
  /\ getConnectedMemories "m1" (Some 10) db
     = Ok [sample "m2" "B"; sample "m3" "C"; sample "m4" "D"]
  /\ forall n, 3 <= n ->
               getConnectedMemories "m1" (Some n) db
               = Ok [sample "m2" "B"; sample "m3" "C"; sample "m4" "D"].
Proof.
  apply (proj1 traversal_of_chain (db_chain None) "m1" "m2" "m3" "m4").
  - exact db_chain_is_chain.
  - vm_compute. reflexivity.
  - vm_compute. reflexivity.
  - vm_compute. reflexivity.
Defined.

End TraversalFacts.

(** ** The scenarios of the repository's tests, run on the model *)

Module Tests.
Import Examples.

(** should return null for non-existent memory *)
Example test_nonexistent_memory : getMemory db_tests "non-existent-id" = Ok None.
Proof. vm_compute. reflexivity. Qed.

(** should add and retrieve relationships *)
Example test_add_and_retrieve_relationships :
  let db := snd (addRelationship (noon "r1") "m1" "m2" "relates_to" (Some (8 # 10)%Q)
                                 None db_tests) in
  getRelationships (only_memory "m1") db
  = Ok [relationship_of (edge "r1" "m1" "m2" "relates_to" (8 # 10)) JSON.empty_object].
Proof. vm_compute. reflexivity. Qed.

(** should find connected memories *)
Example test_connected_memories :
  let db1 := snd (addRelationship (noon "r1") "m1" "m2" "relates_to" (Some (8 # 10)%Q)
                                  None db_tests) in
  let db2 := snd (addRelationship (noon "r2") "m2" "m3" "contains" (Some (9 # 10)%Q)
                                  None db1) in
  exists connected,
    getConnectedMemories "m1" None db2 = Ok connected
    /\ map Memory.id connected = ["m2"; "m3"]%string.
Proof. eexists. split; [vm_compute; reflexivity|reflexivity]. Qed.

(** should filter relationships by type *)
Example test_filter_by_type :
  let db1 := snd (addRelationship (noon "r1") "m1" "m2" "relates_to" (Some (8 # 10)%Q)
                                  None db_tests) in
  let db2 := snd (addRelationship (noon "r2") "m1" "m3" "different_type"
                                  (Some (5 # 10)%Q) None db1) in
  exists rels,
    getRelationships (about "m1" None (Some "relates_to"%string)) db2 = Ok rels
    /\ map Relationship.relationship_type rels = ["relates_to"%string].
Proof. eexists. split; [vm_compute; reflexivity|reflexivity]. Qed.

(** should filter relationships by minimum strength *)
Example test_filter_by_strength :
  let db1 := snd (addRelationship (noon "r1") "m1" "m2" "weak" (Some (3 # 10)%Q)
                                  None db_tests) in
  let db2 := snd (addRelationship (noon "r2") "m1" "m3" "strong" (Some (9 # 10)%Q)
                                  None db1) in
  exists rels,
    getRelationships (about "m1" (Some (5 # 10)%Q) None) db2 = Ok rels
    /\ map Relationship.strength rels = [(9 # 10)%Q].
Proof. eexists. split; [vm_compute; reflexivity|reflexivity]. Qed.

(** should fallback to text search when vector search fails *)
Example test_fallback_search :
  let db := snd (addMemory (noon "m1") "Simple text without embeddings" None
                           (initializeDatabase false fresh)) in
  exists m,
    searchMemories (noon "x") "Simple text"
                   {| SearchOptions.limit := Some 1; SearchOptions.threshold := None |}
                   db
    = Ok [m]
    /\ Memory.content m = "Simple text without embeddings"%string.
Proof. eexists. split; [vm_compute; reflexivity|reflexivity]. Qed.

End Tests.

(** ** The constraints of the schema *)

Module InvariantFacts.

(** *** Lists *)

Lemma NoDup_map_filter {A B} (f : A -> B) (p : A -> bool) l :
  NoDup (map f l) -> NoDup (map f (List.filter p l)).
Proof.
  induction l as [|x l IH]; cbn; intros H; [constructor|].
  apply NoDup_cons in H as [Hx Hl].
  destruct (p x); [|auto]. cbn. apply NoDup_cons. split; [|auto].
  rewrite list_elem_of_In in *. intros Hin. apply Hx.
  apply in_map_iff in Hin as (y & E & Hy).
  apply filter_In in Hy as [Hy _]. rewrite <- E. now apply in_map.
Qed.

Lemma NoDup_map_snoc {A B} (f : A -> B) l x :
  NoDup (map f l) -> ~ In (f x) (map f l) -> NoDup (map f (l ++ [x])).
Proof.
  induction l as [|y l IH]; cbn; intros H Hx.
  - apply NoDup_cons. split; [|constructor]. rewrite list_elem_of_In. intros [].
  - apply NoDup_cons in H as [Hy Hl]. apply NoDup_cons. split.
    + rewrite list_elem_of_In in *. rewrite map_app, in_app_iff. cbn.
      intros [Hin|[E|[]]]; [auto|]. apply Hx. left. congruence.
    + apply IH; [exact Hl|]. intros Hin. apply Hx. now right.
Qed.

Lemma existsb_eqb_In {A} (f : A -> string) l id :
  existsb (fun r => String.eqb (f r) id) l = true <-> In id (map f l).
Proof.
  rewrite existsb_exists, in_map_iff. split; intros (r & H1 & H2).
  - exists r. apply String.eqb_eq in H2. auto.
  - exists r. split; [exact H2|]. now apply String.eqb_eq.
Qed.

Lemma has_memory_In db id :
  has_memory db id = true <-> In id (map MemoryRow.id (memories db)).
Proof. apply existsb_eqb_In. Qed.

Lemma has_relationship_In db id :
  has_relationship db id = true <-> In id (map RelationshipRow.id (relationships db)).
Proof. apply existsb_eqb_In. Qed.

Lemma has_embedding_In db id :
  has_embedding db id = true <-> In id (map fst (memory_embeddings db)).
Proof. apply existsb_eqb_In. Qed.

Lemma not_true_false b : b = false <-> ~ b = true.
Proof. destruct b; split; congruence. Qed.

(** *** What the statements on the vector table leave behind *)

Lemma insert_embedding_shape id v db :
  let db' := swallow (insert_embedding id v db) db in
  memories db' = memories db /\ relationships db' = relationships db
  /\ vec0 db' = vec0 db /\ foreign_keys db' = foreign_keys db
  /\ memory_embeddings db'
     = if vec0 db && Nat.eqb (length v) DIMENSION && negb (has_embedding db id)
       then memory_embeddings db ++ [(id, v)]
       else memory_embeddings db.
Proof.
  unfold insert_embedding.
  destruct (vec0 db) eqn:Ev, (Nat.eqb (length v) DIMENSION), (has_embedding db id);
    cbn; repeat split; congruence.
Qed.

Lemma update_embedding_shape id v db :
  let db' := swallow (update_embedding id v db) db in
  memories db' = memories db /\ relationships db' = relationships db
  /\ vec0 db' = vec0 db /\ foreign_keys db' = foreign_keys db
  /\ memory_embeddings db'
     = if vec0 db && Nat.eqb (length v) DIMENSION
       then map (fun r => if String.eqb (fst r) id then (id, v) else r)
                (memory_embeddings db)
       else memory_embeddings db.
Proof.
  unfold update_embedding.
  destruct (vec0 db) eqn:Ev, (Nat.eqb (length v) DIMENSION) eqn:El,
    (has_embedding db id) eqn:Eh; cbn; repeat split; try congruence.
  rewrite <- (map_id (memory_embeddings db)) at 2. apply map_ext_in.
  intros [k w] Hin. cbn. destruct (String.eqb_spec k id) as [->|]; [|reflexivity].
  exfalso. apply not_true_false in Eh. apply Eh, has_embedding_In.
  now apply (in_map fst) in Hin.
Qed.

Lemma delete_embedding_shape id db :
  let db' := swallow (delete_embedding id db) db in
  memories db' = memories db /\ relationships db' = relationships db
  /\ vec0 db' = vec0 db /\ foreign_keys db' = foreign_keys db
  /\ memory_embeddings db'
     = if vec0 db
       then List.filter (fun r => negb (String.eqb (fst r) id)) (memory_embeddings db)
       else memory_embeddings db.
Proof.
  unfold delete_embedding. destruct (vec0 db) eqn:Ev; cbn; repeat split; congruence.
Qed.

(** *** The constraints survive every operation *)

(** The constraints speak of the tables only. *)
Lemma consistent_tables db db' :
  memories db' = memories db -> relationships db' = relationships db ->
  memory_embeddings db' = memory_embeddings db ->
  consistent db -> consistent db'.
Proof.
  intros Em Er Ee [H1 H2 H3 H4 H5].
  constructor; unfold has_memory in *; rewrite ?Em, ?Er, ?Ee; assumption.
Qed.

(** Changing the vector table alone. *)
Lemma consistent_embeddings db db' :
  memories db' = memories db -> relationships db' = relationships db ->
  NoDup (map fst (memory_embeddings db')) ->
  (forall id v, In (id, v) (memory_embeddings db') -> length v = DIMENSION) ->
  consistent db -> consistent db'.
Proof.
  intros Em Er Hn Hd [H1 H2 H3 H4 H5].
  constructor; unfold has_memory in *; rewrite ?Em, ?Er; assumption.
Qed.

Lemma consistent_insert_embedding id v db :
  consistent db -> consistent (swallow (insert_embedding id v db) db).
Proof.
  intros H. destruct (insert_embedding_shape id v db) as (Em & Er & _ & _ & Ee).
  apply (consistent_embeddings db); try assumption; rewrite Ee;
    destruct (vec0 db), (Nat.eqb_spec (length v) DIMENSION),
      (has_embedding db id) eqn:Eh; cbn [andb negb]; try apply H.
  - apply (NoDup_map_snoc fst); [apply H|]. cbn [fst].
    rewrite <- has_embedding_In. congruence.
  - intros k w Hin. apply in_app_or in Hin as [Hin|[[= <- <-]|[]]]; [|assumption].
    eapply embedding_dimension; eauto.
Qed.

Lemma consistent_update_embedding id v db :
  consistent db -> consistent (swallow (update_embedding id v db) db).
Proof.
  intros H. destruct (update_embedding_shape id v db) as (Em & Er & _ & _ & Ee).
  apply (consistent_embeddings db); try assumption; rewrite Ee;
    destruct (vec0 db), (Nat.eqb_spec (length v) DIMENSION);
    cbn [andb]; try apply H.
  - rewrite map_map.
    erewrite map_ext; [apply H|]. intros [k w]. cbn.
    destruct (String.eqb_spec k id); cbn; congruence.
  - intros k w Hin. apply in_map_iff in Hin as ([k' w'] & E & Hin). cbn in E.
    destruct (String.eqb k' id); injection E as <- <-; [assumption|].
    eapply embedding_dimension; eauto.
Qed.

Lemma consistent_delete_embedding id db :
  consistent db -> consistent (swallow (delete_embedding id db) db).
Proof.
  intros H. destruct (delete_embedding_shape id db) as (Em & Er & _ & _ & Ee).
  apply (consistent_embeddings db); try assumption; rewrite Ee;
    destruct (vec0 db); try apply H.
  - apply NoDup_map_filter, H.
  - intros k w Hin. apply filter_In in Hin as [Hin _].
    eapply embedding_dimension; eauto.
Qed.

Lemma has_memory_ids db db' id :
  map MemoryRow.id (memories db') = map MemoryRow.id (memories db) ->
  has_memory db' id = has_memory db id.
Proof.
  intros E. apply eq_true_iff_eq. rewrite !has_memory_In, E. tauto.
Qed.

Lemma consistent_addMemory env content metadata db :
  consistent db -> consistent (snd (addMemory env content metadata db)).
Proof.
  intros H. unfold addMemory.
  destruct (generateEmbedding env content) as [embedding|]; [|exact H].
  unfold insert_memory. cbn [MemoryRow.id].
  destruct (has_memory db (randomUUID env)) eqn:Eh; [exact H|]. cbn [snd].
  apply consistent_insert_embedding.
  destruct H as [H1 H2 H3 H4 H5]. constructor; cbn; try assumption.
  - apply (NoDup_map_snoc MemoryRow.id); [exact H1|]. cbn.
    rewrite <- has_memory_In. congruence.
  - intros r Hr. destruct (H5 r Hr) as [Hf Ht].
    unfold has_memory in *. cbn. rewrite !existsb_app, Hf, Ht. split; reflexivity.
Qed.

Lemma consistent_update_memory_row id c m t db :
  consistent db -> consistent (snd (update_memory_row id c m t db)).
Proof.
  intros [H1 H2 H3 H4 H5].
  destruct (MemoryFacts.update_memory_row_tables id c m t db) as (_ & Er & Ei).
  constructor; rewrite ?Ei, ?Er; try assumption.
  intros r Hr. rewrite !(has_memory_ids db _ _ Ei). auto.
Qed.

Lemma consistent_updateMemory env id content metadata db :
  consistent db -> consistent (snd (updateMemory env id content metadata db)).
Proof.
  intros H. unfold updateMemory.
  destruct (getMemory db id) as [[found|]|]; [|exact H..].
  destruct content as [c|].
  - destruct (generateEmbedding env c) as [embedding|]; [|exact H].
    apply (consistent_update_embedding id embedding) in H.
    apply (consistent_update_memory_row id (Some c)
             (option_map JSON.stringify metadata) (CURRENT_TIMESTAMP env)) in H.
    destruct (update_memory_row id (Some c) (option_map JSON.stringify metadata)
                                (CURRENT_TIMESTAMP env) _). exact H.
  - destruct metadata as [m|]; [|exact H].
    apply (consistent_update_memory_row id None
             (option_map JSON.stringify (Some m)) (CURRENT_TIMESTAMP env)) in H.
    destruct (update_memory_row id None (option_map JSON.stringify (Some m))
                                (CURRENT_TIMESTAMP env) db). exact H.
Qed.

Lemma filter_length_existsb {A} (p : A -> bool) l :
  negb (Nat.eqb (length (List.filter p l)) 0) = existsb p l.
Proof.
  induction l as [|x l IH]; [reflexivity|]. cbn. destruct (p x); [reflexivity|exact IH].
Qed.

Lemma consistent_deleteMemory id db :
  foreign_keys db = true -> consistent db -> consistent (snd (deleteMemory id db)).
Proof.
  intros Hfk H. unfold deleteMemory. cbn [delete_memory_row snd].
  apply consistent_delete_embedding.
  destruct H as [H1 H2 H3 H4 H5]. rewrite Hfk. cbn [andb].
  rewrite filter_length_existsb. fold (has_memory db id).
  constructor; cbn [memories relationships memory_embeddings]; try assumption.
  - now apply NoDup_map_filter.
  - destruct (has_memory db id); [now apply NoDup_map_filter|exact H2].
  - intros r Hr.
    assert (Hkeep : forall x, x <> id -> has_memory db x = true ->
                              existsb (fun r => String.eqb (MemoryRow.id r) x)
                                (List.filter (fun r => negb (String.eqb (MemoryRow.id r) id))
                                   (memories db)) = true).
    { intros x Hx Hm. apply existsb_exists in Hm as (row & Hrow & E).
      apply existsb_exists. exists row. split; [|exact E].
      apply filter_In. split; [exact Hrow|].
      apply String.eqb_eq in E. subst x. now apply negb_true_iff, String.eqb_neq. }
    unfold has_memory at 1 2. cbn [memories].
    destruct (has_memory db id) eqn:Eh.
    + apply filter_In in Hr as [Hr Ht]. destruct (H5 r Hr) as [Hf Hto].
      unfold touches in Ht. apply negb_true_iff, orb_false_iff in Ht as [Ha Hb].
      apply String.eqb_neq in Ha, Hb. split; apply Hkeep; assumption.
    + destruct (H5 r Hr) as [Hf Hto].
      split; apply Hkeep; try assumption; intros E; rewrite E in *; congruence.
Qed.

Lemma consistent_addRelationship env from to type strength metadata db :
  foreign_keys db = true -> consistent db ->
  consistent (snd (addRelationship env from to type strength metadata db)).
Proof.
  intros Hfk H. unfold addRelationship, insert_relationship.
  cbn [RelationshipRow.id RelationshipRow.from_memory_id RelationshipRow.to_memory_id].
  destruct (has_relationship db (randomUUID env)) eqn:Eh; [exact H|].
  rewrite Hfk. cbn [andb].
  destruct (has_memory db from) eqn:Ef; [|exact H].
  destruct (has_memory db to) eqn:Et; [|exact H]. cbn [negb snd].
  destruct H as [H1 H2 H3 H4 H5]. constructor; cbn; try assumption.
  - apply (NoDup_map_snoc RelationshipRow.id); [exact H2|]. cbn.
    rewrite <- has_relationship_In. congruence.
  - intros r Hr. apply in_app_or in Hr as [Hr|[<-|[]]]; [now apply H5|].
    cbn. split; assumption.
Qed.

Lemma consistent_updateRelationship id strength metadata db :
  consistent db -> consistent (snd (updateRelationship id strength metadata db)).
Proof.
  intros H. unfold updateRelationship.
  assert (Hrow : consistent (snd (update_relationship_row id strength
                                    (option_map JSON.stringify metadata) db))).
  { destruct H as [H1 H2 H3 H4 H5]. constructor; cbn; try assumption.
    - rewrite map_map. erewrite map_ext; [exact H2|]. intros r.
      now destruct (String.eqb (RelationshipRow.id r) id).
    - intros r Hr. apply in_map_iff in Hr as (r0 & <- & Hr0).
      destruct (H5 r0 Hr0) as [Hf Ht].
      destruct (String.eqb (RelationshipRow.id r0) id); cbn; auto. }
  destruct strength, metadata; try exact H;
    destruct (update_relationship_row _ _ _ db); exact Hrow.
Qed.

Lemma consistent_deleteRelationship id db :
  consistent db -> consistent (snd (deleteRelationship id db)).
Proof.
  intros [H1 H2 H3 H4 H5]. constructor; cbn; try assumption.
  - now apply NoDup_map_filter.
  - intros r Hr. apply filter_In in Hr as [Hr _]. now apply H5.
Qed.

Lemma reachable_consistent db : reachable db -> consistent db.
Proof.
  intros Hreach. induction Hreach as
      [|vec db Hr IH|env c m db Hr IH Hu|env id c m db Hr IH|id db Hr IH
       |env from to ty s m db Hr IH Hu|id s m db Hr IH|id db Hr IH].
  - constructor; cbn; try constructor; intros; contradiction.
  - now apply (consistent_tables db).
  - now apply consistent_addMemory.
  - now apply consistent_updateMemory.
  - apply consistent_deleteMemory; [|exact IH].
    apply (MemoryFacts.reachable_sound db Hr).
  - apply consistent_addRelationship; [|exact IH].
    apply (MemoryFacts.reachable_sound db Hr).
  - now apply consistent_updateRelationship.
  - now apply consistent_deleteRelationship.
Qed.

End InvariantFacts.

(** ** Metadata written by the service is read without error *)

Module ReadableFacts.
Import NormalFacts InvariantFacts.

Lemma toMemory_written id content v created updated :
  exists m, toMemory {| MemoryRow.id := id; MemoryRow.content := content;
                        MemoryRow.metadata := Some (JSON.stringify v);
                        MemoryRow.created_at := created;
                        MemoryRow.updated_at := updated |} = Ok m.
Proof.
  unfold toMemory. cbn [MemoryRow.metadata]. rewrite parse_metadata_written.
  cbn. eauto.
Qed.

Lemma toMemory_metadata row row' :
  MemoryRow.metadata row' = MemoryRow.metadata row ->
  (exists m, toMemory row = Ok m) -> exists m, toMemory row' = Ok m.
Proof.
  unfold toMemory. intros ->. destruct (parse_metadata _); cbn; [eauto|].
  intros [m [=]].
Qed.

Lemma toRelationship_metadata row row' :
  RelationshipRow.metadata row' = RelationshipRow.metadata row ->
  (exists m, toRelationship row = Ok m) -> exists m, toRelationship row' = Ok m.
Proof.
  unfold toRelationship. intros ->. destruct (parse_metadata _); cbn; [eauto|].
  intros [m [=]].
Qed.

Lemma readable_tables db db' :
  memories db' = memories db -> relationships db' = relationships db ->
  readable db -> readable db'.
Proof. unfold readable. intros -> ->. tauto. Qed.

Lemma readable_addMemory env content metadata db :
  readable db -> readable (snd (addMemory env content metadata db)).
Proof.
  intros H. unfold addMemory.
  destruct (generateEmbedding env content) as [embedding|]; [|exact H].
  unfold insert_memory. cbn [MemoryRow.id].
  destruct (has_memory db (randomUUID env)); [exact H|]. cbn [snd].
  match goal with
  | |- readable (swallow (insert_embedding ?i ?v ?d) ?d) =>
      destruct (insert_embedding_shape i v d) as (Em & Er & _);
      apply (readable_tables d); [exact Em|exact Er|]
  end.
  destruct H as [Hm Hr]. split; cbn [memories relationships]; [|exact Hr].
  intros row Hin. apply in_app_or in Hin as [Hin|[<-|[]]]; [auto|].
  apply toMemory_written.
Qed.

Lemma readable_update_memory_row id c m t db :
  readable db ->
  readable (snd (update_memory_row id c (option_map JSON.stringify m) t db)).
Proof.
  intros [Hm Hr]. split; cbn [update_memory_row snd memories relationships];
    [|exact Hr].
  intros row Hin. apply in_map_iff in Hin as (row0 & <- & Hin).
  destruct (String.eqb (MemoryRow.id row0) id); [|auto].
  destruct m as [v|]; cbn [option_map].
  - apply toMemory_written.
  - apply (toMemory_metadata row0); [reflexivity|auto].
Qed.

Lemma readable_updateMemory env id content metadata db :
  readable db -> readable (snd (updateMemory env id content metadata db)).
Proof.
  intros H. unfold updateMemory.
  destruct (getMemory db id) as [[found|]|]; [|exact H..].
  destruct content as [c|].
  - destruct (generateEmbedding env c) as [embedding|]; [|exact H].
    destruct (update_embedding_shape id embedding db) as (Em & Er & _).
    apply (readable_tables db _ Em Er) in H.
    apply (readable_update_memory_row id (Some c) metadata (CURRENT_TIMESTAMP env)) in H.
    destruct (update_memory_row id (Some c) (option_map JSON.stringify metadata)
                                (CURRENT_TIMESTAMP env) _). exact H.
  - destruct metadata as [m|]; [|exact H].
    apply (readable_update_memory_row id None (Some m) (CURRENT_TIMESTAMP env)) in H.
    destruct (update_memory_row id None (option_map JSON.stringify (Some m))
                                (CURRENT_TIMESTAMP env) db). exact H.
Qed.

Lemma readable_deleteMemory id db :
  readable db -> readable (snd (deleteMemory id db)).
Proof.
  intros [Hm Hr]. unfold deleteMemory. cbn [delete_memory_row snd].
  match goal with
  | |- readable (swallow (delete_embedding ?i ?d) ?d) =>
      destruct (delete_embedding_shape i d) as (Em & Er & _);
      apply (readable_tables d); [exact Em|exact Er|]
  end.
  split; cbn [memories relationships].
  - intros row Hin. apply filter_In in Hin as [Hin _]. auto.
  - intros row Hin. destruct (_ && _); [apply filter_In in Hin as [Hin _]|]; auto.
Qed.

Lemma readable_addRelationship env from to type strength metadata db :
  readable db ->
  readable (snd (addRelationship env from to type strength metadata db)).
Proof.
  intros H. unfold addRelationship, insert_relationship.
  destruct (has_relationship db _); [exact H|].
  destruct (_ && _); [exact H|]. cbn [snd].
  destruct H as [Hm Hr]. split; cbn [memories relationships]; [exact Hm|].
  intros row Hin. apply in_app_or in Hin as [Hin|[<-|[]]]; [auto|].
  unfold toRelationship. cbn [RelationshipRow.metadata].
  rewrite parse_metadata_written. cbn. eauto.
Qed.

Lemma readable_updateRelationship id strength metadata db :
  readable db -> readable (snd (updateRelationship id strength metadata db)).
Proof.
  intros H. unfold updateRelationship.
  assert (Hrow : readable (snd (update_relationship_row id strength
                                  (option_map JSON.stringify metadata) db))).
  { destruct H as [Hm Hr]. split; cbn [update_relationship_row snd memories relationships];
      [exact Hm|].
    intros row Hin. apply in_map_iff in Hin as (row0 & <- & Hin).
    destruct (String.eqb (RelationshipRow.id row0) id); [|auto].
    destruct metadata as [v|]; cbn [option_map].
    - unfold toRelationship. cbn [RelationshipRow.metadata].
      rewrite parse_metadata_written. cbn. eauto.
    - apply (toRelationship_metadata row0); [reflexivity|auto]. }
  destruct strength, metadata; try exact H;
    destruct (update_relationship_row _ _ _ db); exact Hrow.
Qed.

Lemma readable_deleteRelationship id db :
  readable db -> readable (snd (deleteRelationship id db)).
Proof.
  intros [Hm Hr]. split; cbn; [exact Hm|].
  intros row Hin. apply filter_In in Hin as [Hin _]. auto.
Qed.

Lemma reachable_readable db : reachable db -> readable db.
Proof.
  induction 1 as
      [|vec db Hr IH|env c m db Hr IH Hu|env id c m db Hr IH|id db Hr IH
       |env from to ty s m db Hr IH Hu|id s m db Hr IH|id db Hr IH].
  - split; intros row [].
  - now apply (readable_tables db).
  - now apply readable_addMemory.
  - now apply readable_updateMemory.
  - now apply readable_deleteMemory.
  - now apply readable_addRelationship.
  - now apply readable_updateRelationship.
  - now apply readable_deleteRelationship.
Qed.

(** *** Reads of a readable database *)


Lemma readable_getMemory db id :
  readable db -> exists found, getMemory db id = Ok found.
Proof.
  intros [Hm _]. unfold getMemory.
  destruct (List.find _ _) as [row|] eqn:Hfind; [|eauto].
  apply find_some in Hfind as [Hin _]. destruct (Hm row Hin) as [m ->].
  cbn. eauto.
Qed.







End ReadableFacts.

(** ** Adding memories *)

Module LifecycleFacts.
Import Examples NormalFacts InvariantFacts ReadableFacts.

Lemma getMemory_memories db db' id :
  memories db' = memories db -> getMemory db' id = getMemory db id.
Proof. unfold getMemory. now intros ->. Qed.

Lemma find_unique {A} (f : A -> string) l x :
  NoDup (map f l) -> In x l ->
  List.find (fun r => String.eqb (f r) (f x)) l = Some x.
Proof.
  induction l as [|y l IH]; cbn; intros Hn Hx; [contradiction|].
  apply NoDup_cons in Hn as [Hy Hn]. rewrite list_elem_of_In in Hy.
  destruct Hx as [->|Hx]; [now rewrite String.eqb_refl|].
  destruct (String.eqb_spec (f y) (f x)) as [E|_]; [|auto].
  exfalso. apply Hy. rewrite E. now apply in_map.
Qed.

(** X2. Every stored memory is found under its id: in a database that only
    the service has written, [getMemory] given the id of a row of
    [memories] returns exactly that row, with its metadata parsed. *)
Theorem stored_memory_is_found db row :
  reachable db -> In row (memories db) ->
  exists metadata,
    parse_metadata (MemoryRow.metadata row) = Ok metadata
    /\ getMemory db (MemoryRow.id row) = Ok (Some (memory_of row metadata)).
Proof.
  intros Hreach Hrow.
  destruct (reachable_readable db Hreach) as [Hm _].
  destruct (Hm row Hrow) as [m Hto].
  unfold getMemory.
  rewrite (find_unique MemoryRow.id) by
      (try exact Hrow; apply (reachable_consistent db Hreach)).
  unfold toMemory in *. destruct (parse_metadata _) as [md|]; [|discriminate].
  exists md. split; reflexivity.
Qed.

Lemma stored_memory_is_found_witness :
  exists metadata,
    parse_metadata (Some "{}"%string) = Ok metadata
    /\ getMemory (db_pair None) "m2"
       = Ok (Some (memory_of
                     {| MemoryRow.id := "m2"; MemoryRow.content := "France is in Europe";
                        MemoryRow.metadata := Some "{}"%string;
                        MemoryRow.created_at := 12; MemoryRow.updated_at := 12 |}
                     metadata)).
Proof.
  apply (stored_memory_is_found (db_pair None)
           {| MemoryRow.id := "m2"; MemoryRow.content := "France is in Europe";
              MemoryRow.metadata := Some "{}"%string;
              MemoryRow.created_at := 12; MemoryRow.updated_at := 12 |}).
  - apply RelationshipFacts.db_pair_reachable.
  - vm_compute. right. left. reflexivity.
Defined.

(** X3. Referential integrity: in a database that only the service has
    written, both endpoints of every relationship [getRelationships]
    returns are memories that [getMemory] finds. *)
Theorem relationships_never_dangle db query rels rel :
  reachable db -> getRelationships query db = Ok rels -> In rel rels ->
  (exists m, getMemory db (Relationship.from_memory_id rel) = Ok (Some m))
  /\ (exists m, getMemory db (Relationship.to_memory_id rel) = Ok (Some m)).
Proof.
  intros Hreach Hget Hin.
  apply TraversalFacts.getRelationships_rows in Hget.
  destruct (Forall2_In_r _ _ _ _ Hget Hin) as (row & Hrow & Hto).
  apply TraversalFacts.relationship_rows_sound in Hrow as [Hrow _].
  apply TraversalFacts.toRelationship_ends in Hto as [-> ->].
  destruct (endpoints_stored db (reachable_consistent db Hreach) row Hrow) as [Hf Ht].
  assert (Hfound : forall id, has_memory db id = true ->
                              exists m, getMemory db id = Ok (Some m)).
  { intros id Hid.
    destruct (readable_getMemory db id (reachable_readable db Hreach)) as [[m|] Hm];
      [eauto|].
    exfalso. unfold getMemory in Hm.
    destruct (List.find _ _) as [r|] eqn:Hfind.
    - destruct (toMemory r); discriminate.
    - apply MemoryFacts.find_none_has_memory in Hfind. congruence. }
  split; apply Hfound; assumption.
Qed.

Lemma relationships_never_dangle_witness :
  (exists m, getMemory (db_pair None) "m1" = Ok (Some m))
  /\ (exists m, getMemory (db_pair None) "m2" = Ok (Some m)).
Proof.
  apply (relationships_never_dangle (db_pair None) (about "m1" None None)
           [relationship_of (edge "r1" "m1" "m2" "relates_to" 1) JSON.empty_object]
           (relationship_of (edge "r1" "m1" "m2" "relates_to" 1) JSON.empty_object)).
  - apply RelationshipFacts.db_pair_reachable.
  - vm_compute. reflexivity.
  - left. reflexivity.
Defined.

(** *** addMemory *)

Lemma find_app_first {A} (p : A -> bool) l l' x :
  List.find p l = Some x -> List.find p (l ++ l') = Some x.
Proof.
  induction l as [|y l IH]; cbn; [discriminate|]. destruct (p y); auto.
Qed.

Lemma find_app_none {A} (p : A -> bool) l l' :
  List.find p l = None -> List.find p (l ++ l') = List.find p l'.
Proof.
  induction l as [|y l IH]; cbn; [reflexivity|]. destruct (p y); [discriminate|auto].
Qed.

(** X4. Adding a memory leaves the others alone: whatever [addMemory] does,
    every id other than the new one reads as before, a memory that was
    stored reads as before, and the relationships are untouched. *)
Theorem addMemory_keeps_others env content metadata db other :
  other <> randomUUID env \/ has_memory db other = true ->
  getMemory (snd (addMemory env content metadata db)) other = getMemory db other
  /\ relationships (snd (addMemory env content metadata db)) = relationships db.
Proof.
  intros Hother. unfold addMemory.
  destruct (generateEmbedding env content) as [embedding|]; [|now split].
  unfold insert_memory. cbn [MemoryRow.id].
  destruct (has_memory db (randomUUID env)) eqn:Eh; [now split|]. cbn [snd].
  match goal with
  | |- context [swallow (insert_embedding ?i ?v ?d) ?d] =>
      destruct (insert_embedding_shape i v d) as (Em & Er & _)
  end.
  rewrite Er. split; [|reflexivity].
  rewrite (getMemory_memories _ _ other Em). unfold getMemory. cbn [memories].
  assert (Hne : other <> randomUUID env).
  { destruct Hother as [H|H]; [exact H|]. intros ->. congruence. }
  destruct (List.find _ (memories db)) as [row|] eqn:Hfind.
  - now rewrite (find_app_first _ _ _ _ Hfind).
  - rewrite (find_app_none _ _ _ Hfind). cbn.
    destruct (String.eqb_spec (randomUUID env) other) as [E|_]; [|reflexivity].
    now symmetry in E.
Qed.

Lemma addMemory_keeps_others_witness :
  getMemory (snd (addMemory (noon "m3") "Europe is a continent" None (db_pair None))) "m1"
  = getMemory (db_pair None) "m1"
  /\ relationships (snd (addMemory (noon "m3") "Europe is a continent" None
                                   (db_pair None)))
     = relationships (db_pair None).
Proof.
  apply (addMemory_keeps_others (noon "m3") "Europe is a continent" None
           (db_pair None) "m1").
  left. discriminate.
Defined.

(** X5. The vector table is optional for [addMemory]: whenever the provider
    answers and the id is new, the call resolves with the id and the
    memory row is stored; the embedding row is stored exactly when the
    extension is loaded, the vector has 768 components and no embedding is
    left under that id.  If the id is already taken the call rejects and
    nothing is written. *)
Theorem addMemory_outcome env content metadata db embedding :
  generateEmbedding env content = Ok embedding ->
  let id := randomUUID env in
  let result := addMemory env content metadata db in
  if has_memory db id
  then result = (Err ConstraintError, db)
  else fst result = Ok id
       /\ has_memory (snd result) id = true
       /\ length (memories (snd result)) = S (length (memories db))
       /\ memory_embeddings (snd result)
          = if vec0 db && Nat.eqb (length embedding) DIMENSION
               && negb (has_embedding db id)
            then memory_embeddings db ++ [(id, embedding)]
            else memory_embeddings db.
Proof.
  intros Hemb. cbv zeta. unfold addMemory. rewrite Hemb.
  unfold insert_memory. cbn [MemoryRow.id].
  destruct (has_memory db (randomUUID env)) eqn:Eh; [reflexivity|]. cbn [fst snd].
  match goal with
  | |- context [swallow (insert_embedding ?i ?v ?d) ?d] =>
      destruct (insert_embedding_shape i v d) as (Em & _ & _ & _ & Ee)
  end.
  split; [reflexivity|]. unfold has_memory. rewrite Em, Ee. cbn.
  rewrite existsb_app, length_app. cbn. rewrite String.eqb_refl.
  repeat split; [apply orb_true_r|lia].
Qed.

Lemma addMemory_outcome_witness :
  fst (addMemory (online "m1" 1) "a note" None fresh) = Ok "m1"%string
  /\ has_memory (snd (addMemory (online "m1" 1) "a note" None fresh)) "m1" = true
  /\ length (memories (snd (addMemory (online "m1" 1) "a note" None fresh))) = 1%nat
  /\ memory_embeddings (snd (addMemory (online "m1" 1) "a note" None fresh)) = [].
Proof.
  apply (addMemory_outcome (online "m1" 1) "a note" None fresh (repeat 1%Q DIMENSION)).
  reflexivity.
Defined.

End LifecycleFacts.

(** ** Updating and deleting memories *)

Module UpdateFacts.
Import Examples NormalFacts InvariantFacts ReadableFacts LifecycleFacts.

(** The row an UPDATE of [memories] leaves in place of [row]. *)
Lemma find_update_memory_row id c m t db :
  List.find (fun r => String.eqb (MemoryRow.id r) id)
            (memories (snd (update_memory_row id c m t db)))
  = option_map
      (fun r => {| MemoryRow.id := MemoryRow.id r;
                   MemoryRow.content := default (MemoryRow.content r) c;
                   MemoryRow.metadata :=
                     match m with Some x => Some x | None => MemoryRow.metadata r end;
                   MemoryRow.created_at := MemoryRow.created_at r;
                   MemoryRow.updated_at := t |})
      (List.find (fun r => String.eqb (MemoryRow.id r) id) (memories db)).
Proof.
  cbn [update_memory_row snd memories].
  induction (memories db) as [|r l IH]; [reflexivity|]. cbn [map List.find].
  destruct (String.eqb (MemoryRow.id r) id) eqn:E.
  - cbn [MemoryRow.id]. rewrite E. destruct c; reflexivity.
  - rewrite E. exact IH.
Qed.

Lemma find_update_other id other c m t db :
  other <> id ->
  List.find (fun r => String.eqb (MemoryRow.id r) other)
            (memories (snd (update_memory_row id c m t db)))
  = List.find (fun r => String.eqb (MemoryRow.id r) other) (memories db).
Proof.
  intros Hne. cbn [update_memory_row snd memories].
  induction (memories db) as [|r l IH]; [reflexivity|]. cbn [map List.find].
  destruct (String.eqb_spec (MemoryRow.id r) id) as [E|_].
  - cbn [MemoryRow.id]. rewrite E.
    destruct (String.eqb_spec id other) as [E'|_]; [now symmetry in E'|exact IH].
  - destruct (String.eqb (MemoryRow.id r) other); [reflexivity|exact IH].
Qed.

Lemma update_memory_row_changes id c m t db :
  negb (Nat.eqb (fst (update_memory_row id c m t db)) 0) = has_memory db id.
Proof. apply filter_length_existsb. Qed.

Lemma getMemory_found db id m :
  getMemory db id = Ok (Some m) ->
  exists row, List.find (fun r => String.eqb (MemoryRow.id r) id) (memories db) = Some row
              /\ parse_metadata (MemoryRow.metadata row) = Ok (Memory.metadata m)
              /\ m = memory_of row (Memory.metadata m).
Proof.
  unfold getMemory. destruct (List.find _ _) as [row|]; [|discriminate].
  unfold toMemory. destruct (parse_metadata _) as [md|] eqn:Hp; cbn; [|discriminate].
  intros [= <-]. exists row. repeat split. exact Hp.
Qed.

(** X6. Round trip of an update: when [updateMemory] resolves for a stored
    memory, it resolves with [true], and [getMemory] then returns the
    memory with the content given (the old one if none was given), the
    metadata given as [JSON.parse] reads it back, replacing the old
    metadata as a whole (the old one if none was given), the same id and
    creation time, and as its update time the timestamp SQLite's
    [CURRENT_TIMESTAMP] gave the UPDATE (not the process's [now], which
    only [addMemory] stores); with neither field given nothing changes.
    The metadata is read back as it was given when every number in it is
    finite and is not the negative zero. *)
Theorem get_after_update env id content metadata db m b db' :
  getMemory db id = Ok (Some m) ->
  updateMemory env id content metadata db = (Ok b, db') ->
  b = true
  /\ getMemory db' id
     = Ok (Some {| Memory.id := id;
                   Memory.content := default (Memory.content m) content;
                   Memory.metadata :=
                     default (Memory.metadata m) (option_map Normal.normal metadata);
                   Memory.created_at := Memory.created_at m;
                   Memory.updated_at :=
                     match content, metadata with
                     | None, None => Memory.updated_at m
                     | _, _ => CURRENT_TIMESTAMP env
                     end |})
  /\ (forall v, metadata = Some v -> JSON.wf v = true -> Normal.normal v = v).
Proof.
  intros Hget Hupdate.
  pose proof (TraversalFacts.getMemory_id db id m Hget) as Hid.
  enough (b = true
          /\ getMemory db' id
             = Ok (Some {| Memory.id := id;
                           Memory.content := default (Memory.content m) content;
                           Memory.metadata :=
                             default (Memory.metadata m)
                                     (option_map Normal.normal metadata);
                           Memory.created_at := Memory.created_at m;
                           Memory.updated_at :=
                             match content, metadata with
                             | None, None => Memory.updated_at m
                             | _, _ => CURRENT_TIMESTAMP env
                             end |})) as [Hb Hg].
  { split; [exact Hb|]. split; [exact Hg|]. intros v _. apply normal_wf. }
  revert Hupdate. unfold updateMemory. rewrite Hget.
  assert (Hrow : forall db1 c md,
             memories db1 = memories db ->
             let r := update_memory_row id c (option_map JSON.stringify md)
                                        (CURRENT_TIMESTAMP env) db1 in
             negb (Nat.eqb (fst r) 0) = true
             /\ getMemory (snd r) id
                = Ok (Some {| Memory.id := id;
                              Memory.content := default (Memory.content m) c;
                              Memory.metadata :=
                                default (Memory.metadata m)
                                        (option_map Normal.normal md);
                              Memory.created_at := Memory.created_at m;
                              Memory.updated_at := CURRENT_TIMESTAMP env |})).
  { intros db1 c md Em r. subst r.
    destruct (getMemory_found db id m Hget) as (row & Hfind & Hparse & Hm).
    split.
    - rewrite update_memory_row_changes.
      destruct (has_memory db1 id) eqn:Hno; [reflexivity|].
      apply MemoryFacts.find_none_has_memory in Hno. rewrite Em in Hno. congruence.
    - unfold getMemory. rewrite find_update_memory_row, Em, Hfind. cbn [option_map].
      apply find_some in Hfind as [_ Hrid]. apply String.eqb_eq in Hrid.
      unfold toMemory. cbn [MemoryRow.metadata].
      destruct md as [v|]; cbn [option_map default].
      + rewrite parse_metadata_written. cbn. rewrite Hm. cbn. now rewrite Hrid.
      + rewrite Hparse. cbn. rewrite Hm. cbn. now rewrite Hrid. }
  destruct content as [c|].
  - destruct (generateEmbedding env c) as [embedding|]; [|discriminate].
    destruct (update_embedding_shape id embedding db) as (Em & _).
    destruct (Hrow _ (Some c) metadata Em) as [Hb Hg].
    destruct (update_memory_row id (Some c) _ (CURRENT_TIMESTAMP env) _) as [changes db2].
    cbn [fst snd] in *. intros [= <- <-]. split; [exact Hb|].
    rewrite Hg. now destruct metadata.
  - destruct metadata as [v|].
    + destruct (Hrow db None (Some v) eq_refl) as [Hb Hg].
      destruct (update_memory_row id None _ (CURRENT_TIMESTAMP env) db) as [changes db2].
      cbn [fst snd] in *. intros [= <- <-]. split; [exact Hb|exact Hg].
    + intros [= <- <-]. split; [reflexivity|]. rewrite Hget.
      destruct (getMemory_found db id m Hget) as (row & _ & _ & Hm).
      rewrite Hm at 1. cbn. rewrite <- Hid. rewrite Hm. reflexivity.
Qed.

Lemma get_after_update_witness :
  true = true
  /\ getMemory (snd (updateMemory (clocks (online "u" 0) 21 20) "m1" (Some "Paris")
                                  (Some fact) (db_pair None))) "m1"
     = Ok (Some {| Memory.id := "m1"; Memory.content := "Paris";
                   Memory.metadata := Normal.normal fact;
                   Memory.created_at := 12; Memory.updated_at := 20 |})
  /\ (forall v, Some fact = Some v -> JSON.wf v = true -> Normal.normal v = v).
Proof.
  apply (get_after_update (clocks (online "u" 0) 21 20) "m1" (Some "Paris"%string)
           (Some fact) (db_pair None) (sample "m1" "Paris is the capital of France")
           true
           (snd (updateMemory (clocks (online "u" 0) 21 20) "m1" (Some "Paris"%string)
                              (Some fact) (db_pair None)))).
  - vm_compute. reflexivity.
  - vm_compute. reflexivity.
Defined.

(** X7. An update touches one memory: after [updateMemory(id, ...)], every
    other id reads as before, the relationships are untouched, and the
    vector table holds embeddings for the same ids as before (an update
    never creates the embedding a memory lacks). *)
Theorem updateMemory_keeps_others env id content metadata db other :
  other <> id ->
  let db' := snd (updateMemory env id content metadata db) in
  getMemory db' other = getMemory db other
  /\ relationships db' = relationships db
  /\ map fst (memory_embeddings db') = map fst (memory_embeddings db).
Proof.
  intros Hne. cbv zeta. unfold updateMemory.
  destruct (getMemory db id) as [[found|]|]; [|now repeat split..].
  assert (Hrow : forall db1 c md,
             memories db1 = memories db -> relationships db1 = relationships db ->
             map fst (memory_embeddings db1) = map fst (memory_embeddings db) ->
             let r := update_memory_row id c md (CURRENT_TIMESTAMP env) db1 in
             getMemory (snd r) other = getMemory db other
             /\ relationships (snd r) = relationships db
             /\ map fst (memory_embeddings (snd r)) = map fst (memory_embeddings db)).
  { intros db1 c md Em Er Ee r. subst r. repeat split.
    - unfold getMemory. now rewrite (find_update_other id other c md _ db1 Hne), Em.
    - exact Er.
    - exact Ee. }
  destruct content as [c|].
  - destruct (generateEmbedding env c) as [embedding|]; [|now repeat split].
    destruct (update_embedding_shape id embedding db) as (Em & Er & _ & _ & Ee).
    refine (_ (Hrow _ (Some c) (option_map JSON.stringify metadata) Em Er _)).
    + destruct (update_memory_row id (Some c) _ (CURRENT_TIMESTAMP env) _). auto.
    + rewrite Ee. destruct (_ && _); [|reflexivity].
      rewrite map_map. apply map_ext. intros [k w]. cbn.
      destruct (String.eqb_spec k id); cbn; congruence.
  - destruct metadata as [v|]; [|now repeat split].
    pose proof (Hrow db None (option_map JSON.stringify (Some v)) eq_refl eq_refl eq_refl)
      as H.
    destruct (update_memory_row id None _ (CURRENT_TIMESTAMP env) db). exact H.
Qed.

Lemma updateMemory_keeps_others_witness :
  getMemory (snd (updateMemory (online "u" 20) "m1" (Some "Paris") None (db_pair None)))
            "m2"
  = getMemory (db_pair None) "m2"
  /\ relationships (snd (updateMemory (online "u" 20) "m1" (Some "Paris") None
                                      (db_pair None)))
     = relationships (db_pair None)
  /\ map fst (memory_embeddings
                (snd (updateMemory (online "u" 20) "m1" (Some "Paris") None
                                   (db_pair None))))
     = map fst (memory_embeddings (db_pair None)).
Proof.
  apply (updateMemory_keeps_others (online "u" 20) "m1" (Some "Paris"%string) None
           (db_pair None) "m2").
  discriminate.
Defined.

(** X8. [updateMemory] reads before it writes: when the metadata stored for
    [id] is not JSON, every update of that memory rejects and writes
    nothing, also one that would replace the metadata; [deleteMemory] still
    removes the row. *)
Theorem malformed_row_cannot_be_updated env id content metadata db row :
  List.find (fun r => String.eqb (MemoryRow.id r) id) (memories db) = Some row ->
  parse_metadata (MemoryRow.metadata row) = Err SyntaxError ->
  updateMemory env id content metadata db = (Err SyntaxError, db)
  /\ fst (deleteMemory id db) = true
  /\ getMemory (snd (deleteMemory id db)) id = Ok None.
Proof.
  intros Hfind Hparse. split; [|split].
  - unfold updateMemory, getMemory, toMemory. now rewrite Hfind, Hparse.
  - rewrite RelationshipFacts.deleteMemory_result.
    destruct (has_memory db id) eqn:Hno; [reflexivity|].
    apply MemoryFacts.find_none_has_memory in Hno. congruence.
  - unfold deleteMemory. cbn [delete_memory_row snd].
    match goal with
    | |- context [swallow (delete_embedding ?i ?d) ?d] =>
        destruct (delete_embedding_shape i d) as (Em & _)
    end.
    rewrite (getMemory_memories _ _ id Em). unfold getMemory. cbn [memories].
    destruct (List.find _ (List.filter _ _)) as [r|] eqn:E; [|reflexivity].
    apply find_some in E as [Hin Hr]. apply filter_In in Hin as [_ Hn].
    rewrite Hr in Hn. discriminate.
Qed.

Lemma malformed_row_cannot_be_updated_witness :
  updateMemory (online "u" 20) "m1" None (Some fact) db_malformed
  = (Err SyntaxError, db_malformed)
  /\ fst (deleteMemory "m1" db_malformed) = true
  /\ getMemory (snd (deleteMemory "m1" db_malformed)) "m1" = Ok None.
Proof.
  apply (malformed_row_cannot_be_updated (online "u" 20) "m1" None (Some fact)
           db_malformed
           {| MemoryRow.id := "m1"; MemoryRow.content := "a note";
              MemoryRow.metadata := Some "{oops"%string;
              MemoryRow.created_at := 1; MemoryRow.updated_at := 1 |}).
  - reflexivity.
  - vm_compute. reflexivity.
Defined.

Lemma find_filter_other id other (l : list MemoryRow.t) :
  other <> id ->
  List.find (fun r => String.eqb (MemoryRow.id r) other)
            (List.filter (fun r => negb (String.eqb (MemoryRow.id r) id)) l)
  = List.find (fun r => String.eqb (MemoryRow.id r) other) l.
Proof.
  intros Hne. induction l as [|r l IH]; [reflexivity|]. cbn [List.filter List.find].
  destruct (String.eqb_spec (MemoryRow.id r) id) as [E|_]; cbn [negb].
  - rewrite E. destruct (String.eqb_spec id other) as [E'|_];
      [now symmetry in E'|exact IH].
  - cbn [List.find]. destruct (String.eqb (MemoryRow.id r) other); [reflexivity|exact IH].
Qed.

(** X9. Deleting a memory: [deleteMemory(id)] returns whether a memory was
    stored under [id]; afterwards [getMemory(id)] returns null, every
    other id reads as before, a second [deleteMemory(id)] returns false,
    and, when the extension is loaded, no embedding is left under [id]. *)
Theorem deleteMemory_removes id db :
  let db' := snd (deleteMemory id db) in
  fst (deleteMemory id db) = has_memory db id
  /\ getMemory db' id = Ok None
  /\ (forall other, other <> id -> getMemory db' other = getMemory db other)
  /\ fst (deleteMemory id db') = false
  /\ (vec0 db = true -> has_embedding db' id = false).
Proof.
  cbv zeta. split; [apply RelationshipFacts.deleteMemory_result|].
  rewrite RelationshipFacts.deleteMemory_result.
  unfold deleteMemory. cbn [delete_memory_row snd].
  match goal with
  | |- context [swallow (delete_embedding ?i ?d) ?d] =>
      destruct (delete_embedding_shape i d) as (Em & _ & _ & _ & Ee)
  end.
  assert (Hgone : forall l : list MemoryRow.t,
             List.find (fun r => String.eqb (MemoryRow.id r) id)
                       (List.filter (fun r => negb (String.eqb (MemoryRow.id r) id)) l)
             = None).
  { intros l. destruct (List.find _ _) as [r|] eqn:E; [|reflexivity].
    apply find_some in E as [Hin Hr]. apply filter_In in Hin as [_ Hn].
    rewrite Hr in Hn. discriminate. }
  repeat split.
  - rewrite (getMemory_memories _ _ id Em). unfold getMemory. cbn [memories].
    now rewrite Hgone.
  - intros other Hne. rewrite (getMemory_memories _ _ other Em).
    unfold getMemory. cbn [memories]. now rewrite find_filter_other.
  - apply MemoryFacts.find_none_has_memory. rewrite Em. cbn [memories]. apply Hgone.
  - intros Hvec. unfold has_embedding. rewrite Ee. cbn [vec0]. rewrite Hvec.
    cbn [memory_embeddings].
    apply not_true_false. intros H. change (has_embedding ?d ?i) with (existsb (fun r => String.eqb (fst r) i) (memory_embeddings d)) in H. apply existsb_exists in H as (r & Hin & Hr).
    apply filter_In in Hin as [_ Hn]. rewrite Hr in Hn. discriminate.
Qed.

End UpdateFacts.

(** ** Querying and writing relationships *)

Module QueryFacts.
Import Examples SQL SQLFacts StrengthFacts InvariantFacts.

Lemma where_clause_asked query row rel :
  toRelationship row = Ok rel -> (where_clause query row = true <-> asked query rel).
Proof.
  unfold toRelationship. destruct (parse_metadata _) as [md|]; cbn; [|discriminate].
  intros [= <-]. unfold where_clause, asked. cbn.
  rewrite !andb_true_iff, Qle_bool_iff.
  assert (Hm : match truthy (RelationshipQuery.memoryId query) with
               | Some memoryId =>
                   match default dir_both (RelationshipQuery.direction query) with
                   | dir_from => String.eqb (RelationshipRow.from_memory_id row) memoryId
                   | dir_to => String.eqb (RelationshipRow.to_memory_id row) memoryId
                   | dir_both =>
                       String.eqb (RelationshipRow.from_memory_id row) memoryId
                       || String.eqb (RelationshipRow.to_memory_id row) memoryId
                   end
               | None => true
               end = true
               <-> forall memoryId,
                   truthy (RelationshipQuery.memoryId query) = Some memoryId ->
                   match default dir_both (RelationshipQuery.direction query) with
                   | dir_from => RelationshipRow.from_memory_id row = memoryId
                   | dir_to => RelationshipRow.to_memory_id row = memoryId
                   | dir_both =>
                       RelationshipRow.from_memory_id row = memoryId
                       \/ RelationshipRow.to_memory_id row = memoryId
                   end).
  { destruct (truthy (RelationshipQuery.memoryId query)) as [memoryId|].
    - split.
      + intros H ? [= <-].
        destruct (default dir_both (RelationshipQuery.direction query));
          rewrite ?orb_true_iff, ?String.eqb_eq in H; exact H.
      + intros H. specialize (H _ eq_refl).
        destruct (default dir_both (RelationshipQuery.direction query));
          rewrite ?orb_true_iff, ?String.eqb_eq; exact H.
    - split; [intros _ ? [=]|reflexivity]. }
  assert (Ht : match truthy (RelationshipQuery.relationshipType query) with
               | Some relationshipType =>
                   String.eqb (RelationshipRow.relationship_type row) relationshipType
               | None => true
               end = true
               <-> forall relationshipType,
                   truthy (RelationshipQuery.relationshipType query)
                   = Some relationshipType ->
                   RelationshipRow.relationship_type row = relationshipType).
  { destruct (truthy (RelationshipQuery.relationshipType query)) as [ty|].
    - rewrite String.eqb_eq. split; [now intros H ? [= <-]|auto].
    - split; [intros _ ? [=]|reflexivity]. }
  rewrite Hm, Ht. tauto.
Qed.

Lemma getRelationships_sound query db rels rel :
  getRelationships query db = Ok rels -> In rel rels ->
  asked query rel
  /\ exists row, In row (relationships db) /\ toRelationship row = Ok rel.
Proof.
  intros Hget H. apply TraversalFacts.getRelationships_rows in Hget.
  destruct (Forall2_In_r _ _ _ _ Hget H) as (row & Hrow & Hto).
  apply TraversalFacts.relationship_rows_sound in Hrow as [Hrow Hw].
  split; [now apply (where_clause_asked query row rel Hto)|eauto].
Qed.

Lemma getRelationships_complete query db rels row rel :
  getRelationships query db = Ok rels ->
  In row (relationships db) -> toRelationship row = Ok rel -> asked query rel ->
  In rel rels
  \/ (0 <= default 100 (RelationshipQuery.limit query)
      /\ Z.of_nat (length rels) = default 100 (RelationshipQuery.limit query)
      /\ forall kept, In kept rels -> not_weaker kept rel).
Proof.
  intros Hget Hrow Hto Hask. apply TraversalFacts.getRelationships_rows in Hget.
  pose proof (SearchFacts.Forall2_length_eq _ _ _ Hget) as Hlen.
  apply (where_clause_asked query row rel Hto) in Hask.
  destruct (select_complete stronger (where_clause query) stronger_total
              stronger_trans (default 100 (RelationshipQuery.limit query))
              (relationships db) row Hrow Hask)
    as [Hin|(Hl & Hfull & Hbefore)].
  - left. destruct (Forall2_In_l _ _ _ _ Hget Hin) as (rel' & Hrel' & Hto').
    congruence.
  - right. split; [exact Hl|]. split.
    + rewrite <- Hlen. unfold relationship_rows. lia.
    + intros kept Hkept.
      destruct (Forall2_In_r _ _ _ _ Hget Hkept) as (krow & Hkrow & Hkto).
      eapply toRelationship_not_weaker; eauto.
Qed.

(** X10. What [getRelationships] returns: every relationship returned is
    stored and meets the query (strength at least [minStrength], 0 by
    default; the given memory as source, as target or as either, by
    [direction]; the given type; an empty [memoryId] or type asks
    nothing); the list is ordered by strength, strongest first, and among
    equal strengths by creation time, latest first; it has at most [limit]
    entries (100 by default); and a stored relationship that meets the
    query is missing only if the limit was reached, and then no returned
    one is weaker than it. *)
Theorem getRelationships_result query db rels :
  getRelationships query db = Ok rels ->
  let limit := default 100 (RelationshipQuery.limit query) in
  (forall rel, In rel rels ->
     asked query rel
     /\ exists row, In row (relationships db) /\ toRelationship row = Ok rel)
  /\ StronglySorted not_weaker rels
  /\ (0 <= limit -> Z.of_nat (length rels) <= limit)
  /\ (forall row rel,
        In row (relationships db) -> toRelationship row = Ok rel -> asked query rel ->
        In rel rels
        \/ (0 <= limit /\ Z.of_nat (length rels) = limit
            /\ forall kept, In kept rels -> not_weaker kept rel)).
Proof.
  intros Hget limit. split; [|split; [|split]].
  - intros rel. now apply getRelationships_sound.
  - apply TraversalFacts.getRelationships_rows in Hget.
    eapply sorted_Forall2; [|exact Hget|].
    + intros a a' b b'. apply toRelationship_not_weaker.
    + apply (select_ordered stronger (where_clause query) stronger_total stronger_trans).
  - intros Hl. apply TraversalFacts.getRelationships_rows in Hget.
    rewrite <- (SearchFacts.Forall2_length_eq _ _ _ Hget).
    pose proof (select_length stronger (where_clause query) limit (relationships db) Hl)
      as H. unfold relationship_rows. fold limit. lia.
  - intros row rel. now apply getRelationships_complete.
Qed.

Lemma getRelationships_result_witness :
  (forall rel,
     In rel [relationship_of (edge "r1" "m1" "m2" "relates_to" 1) JSON.empty_object] ->
     asked (about "m1" None None) rel
     /\ exists row, In row (relationships (db_pair None)) /\ toRelationship row = Ok rel)
  /\ StronglySorted not_weaker
       [relationship_of (edge "r1" "m1" "m2" "relates_to" 1) JSON.empty_object]
  /\ (0 <= 100 -> 1 <= 100)
  /\ (forall row rel,
        In row (relationships (db_pair None)) -> toRelationship row = Ok rel ->
        asked (about "m1" None None) rel ->
        In rel [relationship_of (edge "r1" "m1" "m2" "relates_to" 1) JSON.empty_object]
        \/ (0 <= 100 /\ 1 = 100
            /\ forall kept,
               In kept [relationship_of (edge "r1" "m1" "m2" "relates_to" 1)
                                        JSON.empty_object] ->
               not_weaker kept rel)).
Proof.
  apply (getRelationships_result (about "m1" None None) (db_pair None)
           [relationship_of (edge "r1" "m1" "m2" "relates_to" 1) JSON.empty_object]).
  vm_compute. reflexivity.
Defined.

(** *** Writing relationships *)

(** X11. [addRelationship] and the foreign keys: with foreign keys enforced,
    the call rejects and writes nothing when the source or the target is
    not a stored memory, or when the id is taken; otherwise it resolves
    with the new id and appends one row, which reads back as the
    relationship given, with strength 1 and empty metadata where these
    were left out; memories are untouched, and a later [getRelationships]
    whose query the new relationship meets returns it unless its limit was
    reached by relationships that are not weaker. *)
Theorem addRelationship_outcome env from to type strength metadata db :
  foreign_keys db = true ->
  JSON.wf (default JSON.empty_object metadata) = true ->
  let id := randomUUID env in
  let result := addRelationship env from to type strength metadata db in
  let rel := {| Relationship.id := id;
                Relationship.from_memory_id := from;
                Relationship.to_memory_id := to;
                Relationship.relationship_type := type;
                Relationship.strength := default 1%Q strength;
                Relationship.metadata := default JSON.empty_object metadata;
                Relationship.created_at := CURRENT_TIMESTAMP env |} in
  if negb (has_relationship db id) && has_memory db from && has_memory db to
  then fst result = Ok id
       /\ memories (snd result) = memories db
       /\ (exists row, relationships (snd result) = relationships db ++ [row]
                       /\ toRelationship row = Ok rel)
       /\ (forall query rels,
             getRelationships query (snd result) = Ok rels -> asked query rel ->
             In rel rels
             \/ (0 <= default 100 (RelationshipQuery.limit query)
                 /\ Z.of_nat (length rels) = default 100 (RelationshipQuery.limit query)
                 /\ forall kept, In kept rels -> not_weaker kept rel))
  else result = (Err ConstraintError, db).
Proof.
  intros Hfk Hwf. cbv zeta. unfold addRelationship, insert_relationship.
  cbn [RelationshipRow.id RelationshipRow.from_memory_id RelationshipRow.to_memory_id].
  rewrite Hfk. cbn [andb].
  destruct (has_relationship db (randomUUID env)); cbn [negb andb]; [reflexivity|].
  destruct (has_memory db from); cbn [negb andb]; [|reflexivity].
  destruct (has_memory db to); cbn [negb andb fst snd]; [|reflexivity].
  cbn [memories relationships].
  match goal with
  | |- context [relationships db ++ [?r]] => set (row := r)
  end.
  assert (Hto : toRelationship row
                = Ok {| Relationship.id := randomUUID env;
                        Relationship.from_memory_id := from;
                        Relationship.to_memory_id := to;
                        Relationship.relationship_type := type;
                        Relationship.strength := default 1%Q strength;
                        Relationship.metadata := default JSON.empty_object metadata;
                        Relationship.created_at := CURRENT_TIMESTAMP env |}).
  { unfold toRelationship, row. cbn [RelationshipRow.metadata].
    now rewrite (MemoryFacts.parse_metadata_stringify _ Hwf). }
  repeat split.
  - exists row. split; [reflexivity|exact Hto].
  - intros query rels Hget Hask.
    apply (getRelationships_complete query _ rels row _ Hget); [|exact Hto|exact Hask].
    cbn [relationships]. apply in_or_app. right. now left.
Qed.

Lemma addRelationship_outcome_witness :
  addRelationship (noon "r1") "m1" "nobody" "relates_to" None None db_tests
  = (Err ConstraintError, db_tests).
Proof.
  apply (addRelationship_outcome (noon "r1") "m1" "nobody" "relates_to" None None
           db_tests); reflexivity.
Defined.

Lemma filter_filter_none {A} (p : A -> bool) l :
  List.filter p (List.filter (fun x => negb (p x)) l) = [].
Proof.
  induction l as [|x l IH]; [reflexivity|]. cbn.
  destruct (p x) eqn:E; cbn; [exact IH|]. now rewrite E.
Qed.

(** X12. Deleting a relationship: [deleteRelationship(id)] returns whether a
    relationship was stored under [id]; afterwards exactly the other rows
    are left, memories and embeddings are untouched, no
    [getRelationships] returns a relationship with that id, and a second
    [deleteRelationship(id)] returns false. *)
Theorem deleteRelationship_removes id db :
  let db' := snd (deleteRelationship id db) in
  fst (deleteRelationship id db) = has_relationship db id
  /\ (forall r, In r (relationships db')
                <-> In r (relationships db) /\ RelationshipRow.id r <> id)
  /\ memories db' = memories db
  /\ memory_embeddings db' = memory_embeddings db
  /\ (forall query rels rel,
        getRelationships query db' = Ok rels -> In rel rels -> Relationship.id rel <> id)
  /\ fst (deleteRelationship id db') = false.
Proof.
  cbv zeta. unfold deleteRelationship. cbn [fst snd memories relationships memory_embeddings].
  assert (Hrows : forall r,
             In r (List.filter (fun r => negb (String.eqb (RelationshipRow.id r) id))
                               (relationships db))
             <-> In r (relationships db) /\ RelationshipRow.id r <> id).
  { intros r. rewrite filter_In, negb_true_iff, String.eqb_neq. tauto. }
  split; [apply filter_length_existsb|].
  split; [exact Hrows|]. split; [reflexivity|]. split; [reflexivity|]. split.
  - intros query rels rel Hget Hin.
    destruct (getRelationships_sound _ _ _ _ Hget Hin) as (_ & row & Hrow & Hto).
    cbn [relationships] in Hrow. apply Hrows in Hrow as [_ Hid].
    unfold toRelationship in Hto. destruct (parse_metadata _); cbn in Hto; [|discriminate].
    injection Hto as <-. exact Hid.
  - now rewrite filter_filter_none.
Qed.

(** X13. Updating a relationship: when a strength or metadata is given,
    [updateRelationship(id, ...)] returns whether a relationship is stored
    under [id]; the table keeps its rows in place, each with its id,
    endpoints, type and creation time; the row with that id takes the
    strength given and the metadata given, and keeps the field that was
    not given; every other row, and every memory, is unchanged. *)
Theorem updateRelationship_changes id strength metadata db :
  strength <> None \/ metadata <> None ->
  let db' := snd (updateRelationship id strength metadata db) in
  fst (updateRelationship id strength metadata db) = has_relationship db id
  /\ memories db' = memories db
  /\ Forall2 (fun r r' =>
                if String.eqb (RelationshipRow.id r) id
                then r' = {| RelationshipRow.id := RelationshipRow.id r;
                             RelationshipRow.from_memory_id :=
                               RelationshipRow.from_memory_id r;
                             RelationshipRow.to_memory_id :=
                               RelationshipRow.to_memory_id r;
                             RelationshipRow.relationship_type :=
                               RelationshipRow.relationship_type r;
                             RelationshipRow.strength :=
                               default (RelationshipRow.strength r) strength;
                             RelationshipRow.metadata :=
                               match metadata with
                               | Some v => Some (JSON.stringify v)
                               | None => RelationshipRow.metadata r
                               end;
                             RelationshipRow.created_at :=
                               RelationshipRow.created_at r |}
                else r' = r)
             (relationships db) (relationships db').
Proof.
  intros Hgiven. cbv zeta.
  assert (E : updateRelationship id strength metadata db
              = (negb (Nat.eqb (fst (update_relationship_row id strength
                                       (option_map JSON.stringify metadata) db)) 0),
                 snd (update_relationship_row id strength
                        (option_map JSON.stringify metadata) db))).
  { unfold updateRelationship. destruct strength, metadata; try reflexivity.
    destruct Hgiven as [H|H]; contradiction. }
  rewrite E. cbn [fst snd update_relationship_row memories relationships].
  split; [apply filter_length_existsb|]. split; [reflexivity|].
  induction (relationships db) as [|r l IH]; [constructor|].
  cbn [map]. constructor; [|exact IH].
  destruct (String.eqb (RelationshipRow.id r) id); [|reflexivity].
  destruct strength, metadata; reflexivity.
Qed.

Lemma updateRelationship_changes_witness :
  fst (updateRelationship "r1" (Some (1 # 2)%Q) None (db_pair None)) = true
  /\ memories (snd (updateRelationship "r1" (Some (1 # 2)%Q) None (db_pair None)))
     = memories (db_pair None)
  /\ Forall2 (fun r r' =>
                if String.eqb (RelationshipRow.id r) "r1"
                then r' = {| RelationshipRow.id := RelationshipRow.id r;
                             RelationshipRow.from_memory_id :=
                               RelationshipRow.from_memory_id r;
                             RelationshipRow.to_memory_id :=
                               RelationshipRow.to_memory_id r;
                             RelationshipRow.relationship_type :=
                               RelationshipRow.relationship_type r;
                             RelationshipRow.strength := (1 # 2)%Q;
                             RelationshipRow.metadata := RelationshipRow.metadata r;
                             RelationshipRow.created_at :=
                               RelationshipRow.created_at r |}
                else r' = r)
             (relationships (db_pair None))
             (relationships (snd (updateRelationship "r1" (Some (1 # 2)%Q) None
                                                     (db_pair None)))).
Proof.
  apply (updateRelationship_changes "r1" (Some (1 # 2)%Q) None (db_pair None)).
  left. discriminate.
Defined.

End QueryFacts.

(** ** Search: agreement with getMemory, and the vector table *)

Module SearchMoreFacts.
Import Examples SQL SQLFacts InvariantFacts ReadableFacts LifecycleFacts.

Lemma NoDup_map_perm {A B} (f : A -> B) l l' :
  Permutation l l' -> NoDup (map f l) -> NoDup (map f l').
Proof.
  intros HP H. apply (Permutation_map f) in HP. now rewrite <- HP.
Qed.

Lemma NoDup_map_app_l {A B} (f : A -> B) l rest :
  NoDup (map f (l ++ rest)) -> NoDup (map f l).
Proof. rewrite map_app. intros H. now apply NoDup_app in H as [H _]. Qed.

(** SELECT keeps a key unique. *)
Lemma select_NoDup {A B} (f : A -> B) before keep n (table : list A) :
  NoDup (map f table) -> NoDup (map f (select before keep n table)).
Proof.
  intros H. unfold select.
  destruct (LIMIT_prefix n (ORDER_BY before (List.filter keep table))) as [rest E].
  apply (NoDup_map_app_l f _ rest). rewrite <- E.
  apply (NoDup_map_perm f (List.filter keep table)).
  - symmetry. apply ORDER_BY_perm.
  - now apply NoDup_map_filter.
Qed.

Lemma toMemory_id row m : toMemory row = Ok m -> Memory.id m = MemoryRow.id row.
Proof.
  unfold toMemory. destruct (parse_metadata _); cbn; [|discriminate].
  now intros [= <-].
Qed.

Lemma mapM_toMemory_ids rows ms :
  mapM toMemory rows = Ok ms -> map Memory.id ms = map MemoryRow.id rows.
Proof.
  intros H. apply mapM_Ok in H.
  induction H as [|row m rows ms Hrow _ IH]; [reflexivity|].
  cbn. now rewrite IH, (toMemory_id row m Hrow).
Qed.

Lemma one_embedding (es : list (string * vector)) k :
  NoDup (map fst es) ->
  (length (List.filter (fun v => String.eqb (fst v) k) es) <= 1)%nat.
Proof.
  induction es as [|[k' w] es IH]; cbn [map List.filter fst]; intros H; [cbn; lia|].
  apply NoDup_cons in H as [Hk H]. rewrite list_elem_of_In in Hk.
  destruct (String.eqb_spec k' k) as [->|_]; [|auto].
  destruct (List.filter _ es) as [|[k2 w2] rest] eqn:E; [cbn; lia|].
  exfalso. apply Hk.
  assert (Hin : In (k2, w2) (List.filter (fun v => String.eqb (fst v) k) es))
    by (rewrite E; now left).
  apply filter_In in Hin as [Hin Hk2]. cbn in Hk2. apply String.eqb_eq in Hk2.
  subst k2. now apply (in_map fst) in Hin.
Qed.

Lemma NoDup_short {A} (l : list A) : (length l <= 1)%nat -> NoDup l.
Proof.
  destruct l as [|x [|y l]]; cbn; intros H; [constructor| |lia].
  apply NoDup_cons. split; [|constructor]. rewrite list_elem_of_In. intros [].
Qed.

(** With one embedding per id at most, the join lists no memory twice. *)
Lemma joined_NoDup db :
  consistent db -> NoDup (map (fun mv => MemoryRow.id (fst mv)) (joined db)).
Proof.
  intros [Hm _ He _ _]. unfold joined.
  induction (memories db) as [|m l IH]; [constructor|].
  cbn [map] in Hm. apply NoDup_cons in Hm as [Hx Hl]. rewrite list_elem_of_In in Hx.
  cbn [flat_map]. rewrite map_app. apply NoDup_app. split; [|split].
  - apply NoDup_short. rewrite !length_map. now apply one_embedding.
  - intros x. rewrite !list_elem_of_In. intros Hx1 Hx2. apply Hx.
    apply in_map_iff in Hx1 as ([m1 w1] & <- & Hin1).
    apply in_map_iff in Hin1 as (v & [= <- <-] & _). cbn [fst].
    apply in_map_iff in Hx2 as ([m2 w2] & E & Hin2). cbn [fst] in E.
    apply in_flat_map in Hin2 as (m' & Hm' & Hin2).
    apply in_map_iff in Hin2 as (v' & [= <- <-] & _).
    rewrite <- E. now apply in_map.
  - now apply IH.
Qed.

Lemma scored_rows env q db scored :
  mapM (fun mv => bind (vec_distance_cosine env (snd mv) q)
                       (fun d => Ok (fst mv, d))) (joined db) = Ok scored ->
  map fst scored = map fst (joined db).
Proof.
  intros H. apply mapM_Ok in H.
  induction H as [|mv md l r Hx _ IH]; [reflexivity|].
  cbn [map]. rewrite IH. f_equal. cbn in Hx.
  destruct (vec_distance_cosine env (snd mv) q); cbn in Hx; [|discriminate].
  now injection Hx as <-.
Qed.

(** The rows behind a search result: stored, and no id twice. *)
Lemma search_rows env query options db ms :
  consistent db -> searchMemories env query options db = Ok ms ->
  exists rows, mapM toMemory rows = Ok ms
               /\ NoDup (map MemoryRow.id rows)
               /\ (forall row, In row rows -> In row (memories db))
               /\ (0 <= default 10 (SearchOptions.limit options) ->
                   (length rows <= Z.to_nat (default 10%Z (SearchOptions.limit options)))%nat).
Proof.
  intros Hdb Hs. unfold searchMemories in Hs.
  destruct (vector_search _ _ _ _ _) as [ms'|e] eqn:Hvec.
  - injection Hs as <-. unfold vector_search in Hvec.
    destruct (generateEmbedding env query) as [q|]; [|discriminate].
    cbn [bind] in Hvec.
    destruct (vector_rows _ _ _ _ _) as [rows|] eqn:Hrows; [|discriminate].
    cbn [bind] in Hvec. exists (map fst rows). split; [exact Hvec|].
    unfold vector_rows in Hrows. destruct (negb (vec0 db)); [discriminate|].
    destruct (mapM _ (joined db)) as [scored|] eqn:Hscored; [|discriminate].
    cbn [bind] in Hrows. injection Hrows as <-.
    split; [|split].
    + rewrite map_map.
      apply (select_NoDup (fun md : MemoryRow.t * Q => MemoryRow.id (fst md))).
      rewrite <- (map_map fst MemoryRow.id), (scored_rows _ _ _ _ Hscored), map_map.
      now apply joined_NoDup.
    + intros row Hin. apply in_map_iff in Hin as ([row' d] & <- & Hin).
      apply (select_sound nearer) in Hin as [Hin _].
      apply (in_map fst) in Hin. rewrite (scored_rows _ _ _ _ Hscored) in Hin.
      apply in_map_iff in Hin as ([m v] & <- & Hin).
      now apply SearchFacts.joined_In in Hin as [Hin _].
    + intros Hl. rewrite length_map. now apply select_length.
  - exists (text_rows query (default 10 (SearchOptions.limit options)) db).
    split; [exact Hs|]. split; [|split].
    + apply select_NoDup, Hdb.
    + intros row Hin. now apply (select_sound newer) in Hin as [Hin _].
    + intros Hl. now apply select_length.
Qed.

(** X14. A search and [getMemory] agree: in a database that only the
    service has written, a search, by vectors or by text, returns no
    memory twice, returns each memory exactly as [getMemory] returns it
    for its id, and returns at most [limit] memories (10 by default) when
    [limit] is not negative. *)
Theorem search_agrees_with_get env query options db ms :
  reachable db -> searchMemories env query options db = Ok ms ->
  NoDup (map Memory.id ms)
  /\ (forall m, In m ms -> getMemory db (Memory.id m) = Ok (Some m))
  /\ (0 <= default 10 (SearchOptions.limit options) ->
      Z.of_nat (length ms) <= default 10 (SearchOptions.limit options)).
Proof.
  intros Hreach Hs. pose proof (reachable_consistent db Hreach) as Hdb.
  destruct (search_rows env query options db ms Hdb Hs)
    as (rows & Hms & Hnd & Hin & Hlen).
  split; [|split].
  - now rewrite (mapM_toMemory_ids rows ms Hms).
  - intros m Hm. apply mapM_Ok in Hms.
    destruct (Forall2_In_r _ _ _ _ Hms Hm) as (row & Hrow & Hto).
    rewrite (toMemory_id row m Hto). unfold getMemory.
    rewrite (find_unique MemoryRow.id) by (try apply Hdb; now apply Hin).
    now rewrite Hto.
  - intros Hl. apply mapM_Ok in Hms.
    rewrite <- (SearchFacts.Forall2_length_eq _ _ _ Hms). specialize (Hlen Hl). lia.
Qed.

Lemma db_cities_reachable : reachable db_cities.
Proof.
  unfold db_cities. cbv zeta.
  apply reach_addMemory; [|discriminate].
  apply reach_addMemory; [|discriminate].
  apply reach_open, reach_fresh.
Defined.

Lemma search_agrees_with_get_witness :
  NoDup (map Memory.id
             [ {| Memory.id := "m1"; Memory.content := "Paris is the capital of France";
                  Memory.metadata := JSON.empty_object;
                  Memory.created_at := 1; Memory.updated_at := 1 |};
               {| Memory.id := "m2"; Memory.content := "Tokyo is the capital of Japan";
                  Memory.metadata := JSON.empty_object;
                  Memory.created_at := 2; Memory.updated_at := 2 |} ])
  /\ (forall m,
        In m [ {| Memory.id := "m1"; Memory.content := "Paris is the capital of France";
                  Memory.metadata := JSON.empty_object;
                  Memory.created_at := 1; Memory.updated_at := 1 |};
               {| Memory.id := "m2"; Memory.content := "Tokyo is the capital of Japan";
                  Memory.metadata := JSON.empty_object;
                  Memory.created_at := 2; Memory.updated_at := 2 |} ] ->
        getMemory db_cities (Memory.id m) = Ok (Some m))
  /\ (0 <= 10 -> 2 <= 10).
Proof.
  apply (search_agrees_with_get (toy "q" 3) "Paris?" no_options db_cities).
  - apply db_cities_reachable.
  - vm_compute. reflexivity.
Defined.


(** X15. Search and the vector table.  When the extension is not loaded,
    [searchMemories] is the text search, whatever the provider answers and
    whatever the threshold.  When it is loaded and the provider answers,
    there is no falling back: with no embedding stored the result is
    empty, also when the text of a stored memory contains the query. *)
Theorem search_and_the_vector_table env query options db :
  (vec0 db = false ->
   searchMemories env query options db
   = text_search query (default 10 (SearchOptions.limit options)) db)
  /\ (vec0 db = true -> memory_embeddings db = [] ->
      (exists q, generateEmbedding env query = Ok q) ->
      searchMemories env query options db = Ok []).
Proof.
  unfold searchMemories, vector_search, vector_rows. split.
  - intros ->. cbn. now destruct (generateEmbedding env query).
  - intros -> He [q ->]. cbn [bind negb].
    assert (Ej : joined db = []).
    { unfold joined. rewrite He. now induction (memories db). }
    rewrite Ej. cbn [mapM bind]. unfold select. cbn [List.filter ORDER_BY].
    now rewrite LIMIT_nil.
Qed.

Lemma search_and_the_vector_table_witness :
  searchMemories (online "q" 2) "Paris" no_options
                 (initializeDatabase true
                    (snd (addMemory (online "m1" 1) "Paris is the capital of France" None
                                    (initializeDatabase false fresh))))
  = Ok [].
Proof.
  apply (proj2 (search_and_the_vector_table (online "q" 2) "Paris" no_options
                  (initializeDatabase true
                     (snd (addMemory (online "m1" 1) "Paris is the capital of France"
                                     None (initializeDatabase false fresh)))))).
  - reflexivity.
  - reflexivity.
  - eexists. reflexivity.
Defined.

(** A memory added while the extension was not loaded has no embedding;
    once the extension is loaded, a search whose query its content contains
    does not return it. *)
Example search_misses_unembedded :
  let db := initializeDatabase true
              (snd (addMemory (online "m1" 1) "Paris is the capital of France" None
                              (initializeDatabase false fresh))) in
  searchMemories (online "q" 2) "Paris" no_options db = Ok []
  /\ exists m, text_search "Paris" 10 db = Ok [m].
Proof. split; [|eexists]; vm_compute; reflexivity. Qed.

End SearchMoreFacts.

(** ** Traversal: what is returned is connected *)

Module ConnectedFacts.
Import Examples SQL SQLFacts InvariantFacts ReadableFacts LifecycleFacts.
Import SearchMoreFacts TraversalFacts.

(** *** Depth 0 *)

(** X16. With [maxDepth] 0 or negative, [getConnectedMemories] returns the
    empty list, whatever the database holds and whatever the start id. *)
Theorem connected_at_depth_0 memoryId maxDepth db :
  default 2 maxDepth <= 0 -> getConnectedMemories memoryId maxDepth db = Ok [].
Proof.
  intros Hd. unfold getConnectedMemories, loop_bound, start.
  cbn [traverse queue visited connectedIds].
  apply Z.leb_le in Hd. rewrite Hd. now rewrite traverse_done.
Qed.

Lemma connected_at_depth_0_witness :
  getConnectedMemories "m1" (Some 0) (db_chain None) = Ok [].
Proof.
  apply (connected_at_depth_0 "m1" (Some 0) (db_chain None)). cbn. lia.
Defined.

(** *** Every connected memory is linked to the start *)

Lemma set_add_In x y l : In y (set_add x l) -> In y l \/ y = x.
Proof.
  unfold set_add. destruct (existsb _ _); [auto|].
  intros H. apply in_app_or in H as [H|[<-|[]]]; auto.
Qed.

Lemma arrive_linked db memoryId maxDepth depth st n id x :
  linked db memoryId maxDepth st ->
  depth = Z.of_nat n -> depth < maxDepth -> walk db memoryId n id ->
  adjacent db id x -> x <> ""%string ->
  linked db memoryId maxDepth (arrive depth st x).
Proof.
  intros [Hq Hc] Hd Hlt Hw Hadj Hx. unfold arrive.
  destruct (decide (x ∈ visited st)); [now split|].
  assert (Hwx : walk db memoryId (S n) x) by (econstructor; eauto).
  split; cbn [queue connectedIds].
  - intros y d Hin. apply in_app_or in Hin as [Hin|[[= <- <-]|[]]]; [auto|].
    split; [exact Hx|]. exists (S n). split; [lia|exact Hwx].
  - intros y Hin. apply set_add_In in Hin as [Hin| ->]; [auto|].
    exists (S n). repeat split; [lia|lia|exact Hwx].
Qed.

Lemma visits_linked db memoryId maxDepth depth n id rels st :
  linked db memoryId maxDepth st ->
  depth = Z.of_nat n -> depth < maxDepth -> walk db memoryId n id ->
  (forall rel, In rel rels ->
               adjacent db id (other_end id rel) /\ other_end id rel <> ""%string) ->
  linked db memoryId maxDepth (fold_left (visit id depth) rels st).
Proof.
  intros Hst Hd Hlt Hw. revert st Hst.
  induction rels as [|rel rels IH]; intros st Hst Hrels; [exact Hst|].
  cbn [fold_left]. apply IH; [|intros r Hr; apply Hrels; now right].
  destruct (Hrels rel) as [Hadj Hne]; [now left|].
  unfold visit. eapply arrive_linked; eauto.
Qed.

(** The relationships [getRelationships] finds for a named node join it to
    their other end. *)
Lemma expansion_adjacent db id rels rel :
  id <> ""%string -> getRelationships (only_memory id) db = Ok rels -> In rel rels ->
  exists row, In row (relationships db) /\ links row id (other_end id rel).
Proof.
  intros Hid Hget Hin. apply getRelationships_rows in Hget.
  destruct (Forall2_In_r _ _ _ _ Hget Hin) as (row & Hrow & Hto).
  apply relationship_rows_sound in Hrow as [Hrow Hw].
  rewrite (RelationshipFacts.where_only_memory id row Hid) in Hw.
  apply andb_prop in Hw as [_ Ht].
  exists row. split; [exact Hrow|].
  rewrite (toRelationship_far_end id row rel Hto).
  unfold touches in Ht. unfold far_end, links.
  destruct (String.eqb_spec (RelationshipRow.from_memory_id row) id) as [E|_].
  - left. now split.
  - cbn in Ht. apply String.eqb_eq in Ht. right. now split.
Qed.

Lemma traverse_linked db memoryId maxDepth fuel st ids :
  (forall r, In r (relationships db) ->
             RelationshipRow.from_memory_id r <> ""%string
             /\ RelationshipRow.to_memory_id r <> ""%string) ->
  linked db memoryId maxDepth st ->
  traverse db maxDepth fuel st = Some (Ok ids) ->
  forall x, In x ids ->
            exists n, (1 <= n)%nat /\ Z.of_nat n <= maxDepth /\ walk db memoryId n x.
Proof.
  intros Hnamed. revert st. induction fuel as [|fuel IH]; intros st Hst;
    destruct st as [vis conn [|[id depth] rest]];
    cbn [traverse queue connectedIds visited]; try discriminate;
    try (intros [= <-]; apply Hst).
  assert (Hrest : linked db memoryId maxDepth
                    {| visited := vis; connectedIds := conn; queue := rest |}).
  { destruct Hst as [Hq Hc]. split; [|exact Hc].
    intros x d Hin. apply Hq. now right. }
  destruct (Z.leb_spec maxDepth depth) as [_|Hlt]; [now apply IH|].
  destruct (getRelationships (only_memory id) db) as [rels|e] eqn:Hget; [|discriminate].
  apply IH. destruct Hst as [Hq _].
  destruct (Hq id depth) as (Hid & n & Hd & Hw); [now left|].
  eapply visits_linked; eauto.
  intros rel Hrel.
  destruct (expansion_adjacent db id rels rel Hid Hget Hrel) as (row & Hrow & Hl).
  split; [now exists row|].
  destruct (Hnamed row Hrow) as [Hf Ht].
  destruct Hl as [[_ <-]|[<- _]]; assumption.
Qed.

Lemma reachable_named db r :
  reachable db -> In r (relationships db) ->
  RelationshipRow.from_memory_id r <> ""%string
  /\ RelationshipRow.to_memory_id r <> ""%string.
Proof.
  intros Hreach Hr.
  destruct (MemoryFacts.reachable_sound db Hreach) as [_ Hids].
  destruct (endpoints_stored db (reachable_consistent db Hreach) r Hr) as [Hf Ht].
  unfold has_memory in Hf, Ht.
  apply existsb_exists in Hf as (m1 & Hm1 & E1).
  apply existsb_exists in Ht as (m2 & Hm2 & E2).
  apply String.eqb_eq in E1, E2. rewrite <- E1, <- E2. split; now apply Hids.
Qed.

Lemma connected_ids memoryId maxDepth db ms :
  getConnectedMemories memoryId maxDepth db = Ok ms ->
  exists ids found,
    traverse db (default 2 maxDepth) (loop_bound db) (start memoryId) = Some (Ok ids)
    /\ Forall2 (fun id o => getMemory db id = Ok o) ids found
    /\ ms = non_null found.
Proof.
  unfold getConnectedMemories.
  destruct (traverse _ _ _ _) as [[ids|e]|]; cbn [bind]; try discriminate.
  destruct (mapM (getMemory db) ids) as [found|e] eqn:Hm; cbn [bind]; [|discriminate].
  intros [= <-]. exists ids, found. repeat split. now apply mapM_Ok.
Qed.

(** X17. Every memory [getConnectedMemories] returns is linked to the start:
    in a database that only the service has written, and for a start id
    that is not empty, each returned memory lies at the end of a walk of
    at least one and at most [maxDepth] (2 by default) relationships from
    the start, each walked in either direction. *)
Theorem connected_are_linked memoryId maxDepth db ms m :
  reachable db -> memoryId <> ""%string ->
  getConnectedMemories memoryId maxDepth db = Ok ms -> In m ms ->
  exists n, (1 <= n)%nat /\ Z.of_nat n <= default 2 maxDepth
            /\ walk db memoryId n (Memory.id m).
Proof.
  intros Hreach Hid Hget Hm.
  destruct (connected_ids _ _ _ _ Hget) as (ids & found & Ht & Hfound & ->).
  apply non_null_In in Hm.
  destruct (Forall2_In_r _ _ _ _ Hfound Hm) as (id & Hin & Hgm).
  rewrite (getMemory_id db id m Hgm).
  eapply traverse_linked; [|  |exact Ht|exact Hin].
  - intros r. now apply reachable_named.
  - split; cbn [start queue connectedIds]; [|intros x []].
    intros x d [[= <- <-]|[]]. split; [exact Hid|].
    exists 0%nat. split; [reflexivity|constructor].
Qed.

Lemma connected_are_linked_witness :
  exists n, (1 <= n)%nat /\ Z.of_nat n <= 2
            /\ walk (db_chain None) "m1" n "m3".
Proof.
  apply (connected_are_linked "m1" None (db_chain None)
           [sample "m2" "B"; sample "m3" "C"] (sample "m3" "C")).
  - apply db_chain_reachable.
  - discriminate.
  - vm_compute. reflexivity.
  - right. left. reflexivity.
Defined.

(** *** No memory twice *)

Lemma set_add_NoDup x l : NoDup l -> NoDup (set_add x l).
Proof.
  intros H. unfold set_add. destruct (existsb (String.eqb x) l) eqn:E; [exact H|].
  apply NoDup_app. split; [exact H|]. split.
  - intros y Hy. rewrite list_elem_of_In in Hy. rewrite list_elem_of_In.
    intros [<-|[]].
    assert (Hex : existsb (String.eqb x) l = true).
    { apply existsb_exists. exists x. split; [exact Hy|apply String.eqb_refl]. }
    congruence.
  - apply NoDup_short. cbn. lia.
Qed.

Lemma visits_NoDup id depth rels st :
  NoDup (connectedIds st) -> NoDup (connectedIds (fold_left (visit id depth) rels st)).
Proof.
  revert st. induction rels as [|rel rels IH]; intros st Hst; [exact Hst|].
  cbn [fold_left]. apply IH. unfold visit, arrive.
  destruct (decide (_ ∈ visited st)); [exact Hst|].
  cbn [connectedIds]. now apply set_add_NoDup.
Qed.

Lemma traverse_NoDup db maxDepth fuel st ids :
  NoDup (connectedIds st) -> traverse db maxDepth fuel st = Some (Ok ids) -> NoDup ids.
Proof.
  revert st. induction fuel as [|fuel IH]; intros st Hst;
    destruct st as [vis conn [|[id depth] rest]];
    cbn [traverse queue connectedIds visited]; try discriminate;
    try (intros [= <-]; exact Hst).
  destruct (maxDepth <=? depth); [now apply IH|].
  destruct (getRelationships (only_memory id) db) as [rels|e]; [|discriminate].
  apply IH. now apply visits_NoDup.
Qed.

Lemma non_null_ids db ids found :
  Forall2 (fun id o => getMemory db id = Ok o) ids found -> NoDup ids ->
  NoDup (map Memory.id (non_null found))
  /\ forall m, In m (non_null found) -> In (Memory.id m) ids.
Proof.
  induction 1 as [|id o ids found Hid _ IH]; intros Hnd.
  - split; [constructor|intros m []].
  - apply NoDup_cons in Hnd as [Hx Hnd]. rewrite list_elem_of_In in Hx.
    destruct (IH Hnd) as [IH1 IH2].
    destruct o as [m|]; cbn [non_null flat_map app map].
    + pose proof (getMemory_id db id m Hid) as E. split.
      * apply NoDup_cons. split; [|exact IH1].
        rewrite list_elem_of_In, E. intros Hin. apply Hx.
        apply in_map_iff in Hin as (m' & <- & Hm'). now apply IH2.
      * intros m' [<-|Hm']; [left; now symmetry|right; now apply IH2].
    + split; [exact IH1|]. intros m' Hm'. right. now apply IH2.
Qed.

(** X18. The result of [getConnectedMemories] lists no memory twice, does
    not list the start memory, and each memory in it is what [getMemory]
    returns for its id. *)
Theorem connected_are_distinct memoryId maxDepth db ms :
  getConnectedMemories memoryId maxDepth db = Ok ms ->
  NoDup (map Memory.id ms)
  /\ (forall m, In m ms ->
                Memory.id m <> memoryId /\ getMemory db (Memory.id m) = Ok (Some m)).
Proof.
  intros Hget.
  destruct (connected_ids _ _ _ _ Hget) as (ids & found & Ht & Hfound & ->).
  assert (Hnd : NoDup ids).
  { eapply traverse_NoDup; [|exact Ht]. constructor. }
  split; [now apply (non_null_ids db ids found)|].
  intros m Hm. split; [now apply (connected_excludes_start _ _ _ _ _ Hget)|].
  apply non_null_In in Hm.
  destruct (Forall2_In_r _ _ _ _ Hfound Hm) as (id & _ & Hgm).
  now rewrite (getMemory_id db id m Hgm).
Qed.

Lemma connected_are_distinct_witness :
  NoDup (map Memory.id [sample "m2" "B"; sample "m3" "C"])
  /\ (forall m, In m [sample "m2" "B"; sample "m3" "C"] ->
                Memory.id m <> "m1"%string
                /\ getMemory (db_chain None) (Memory.id m) = Ok (Some m)).
Proof.
  apply (connected_are_distinct "m1" None (db_chain None)).
  vm_compute. reflexivity.
Defined.

End ConnectedFacts.

(** ** Traversal: nothing within the depth is missed *)

Module CompleteFacts.
Import Examples SQL SQLFacts InvariantFacts ReadableFacts LifecycleFacts.
Import SearchMoreFacts TraversalFacts ConnectedFacts.

(** *** The inner loop *)

(** The inner loop leaves the front of the queue alone. *)
Lemma fold_arrive_head depth ids vis conn h q :
  fold_left (arrive depth) ids {| visited := vis; connectedIds := conn; queue := h :: q |}
  = {| visited :=
         visited (fold_left (arrive depth) ids
                            {| visited := vis; connectedIds := conn; queue := q |});
       connectedIds :=
         connectedIds (fold_left (arrive depth) ids
                                 {| visited := vis; connectedIds := conn; queue := q |});
       queue :=
         h :: queue (fold_left (arrive depth) ids
                               {| visited := vis; connectedIds := conn; queue := q |}) |}.
Proof.
  revert vis conn q. induction ids as [|y ids IH]; intros vis conn q; [reflexivity|].
  cbn [fold_left].
  assert (E : arrive depth {| visited := vis; connectedIds := conn; queue := h :: q |} y
              = {| visited :=
                     visited (arrive depth {| visited := vis; connectedIds := conn;
                                              queue := q |} y);
                   connectedIds :=
                     connectedIds (arrive depth {| visited := vis; connectedIds := conn;
                                                   queue := q |} y);
                   queue :=
                     h :: queue (arrive depth {| visited := vis; connectedIds := conn;
                                                 queue := q |} y) |}).
  { unfold arrive. cbn [visited connectedIds queue].
    destruct (decide (y ∈ vis)); reflexivity. }
  rewrite E.
  destruct (arrive depth {| visited := vis; connectedIds := conn; queue := q |} y)
    as [vis' conn' q'].
  cbn [visited connectedIds queue]. apply IH.
Qed.

Lemma set_add_keeps x y l : In y l -> In y (set_add x l).
Proof.
  unfold set_add. destruct (existsb _ _); [auto|]. intros H. apply in_or_app. now left.
Qed.

Lemma set_add_has x l : In x (set_add x l).
Proof.
  unfold set_add. destruct (existsb (String.eqb x) l) eqn:E.
  - apply existsb_exists in E as (y & Hy & Exy). apply String.eqb_eq in Exy. now subst.
  - apply in_or_app. right. now left.
Qed.

Lemma sorted_snoc (q : list (string * Z)) y d :
  StronglySorted (fun a b : string * Z => snd a <= snd b) q ->
  (forall x d', In (x, d') q -> d' <= d) ->
  StronglySorted (fun a b : string * Z => snd a <= snd b) (q ++ [(y, d)]).
Proof.
  induction 1 as [|[x dx] q Hq IH Hx]; intros Hle; cbn [app].
  - constructor; [constructor|constructor].
  - constructor.
    + apply IH. intros x' d' Hin. apply (Hle x'). now right.
    + apply List.Forall_app. split; [exact Hx|].
      constructor; [|constructor]. cbn. apply (Hle x). now left.
Qed.

(** One arrival keeps the order, and leaves the node that arrived visited
    at most one level below the level being expanded. *)
Lemma arrive_explored db memoryId maxDepth cur depth_of st y :
  explored db memoryId maxDepth cur depth_of st -> y <> ""%string ->
  exists depth_of',
    (forall x d, depth_of x = Some d -> depth_of' x = Some d)
    /\ explored db memoryId maxDepth cur depth_of' (arrive cur st y)
    /\ exists d', depth_of' y = Some d' /\ d' <= cur + 1.
Proof.
  intros H Hy. unfold arrive. destruct (decide (y ∈ visited st)) as [Hv|Hnew].
  - exists depth_of. split; [auto|]. split; [exact H|].
    apply (ex_visited _ _ _ _ _ _ H) in Hv.
    destruct (depth_of y) as [d'|] eqn:Ed; [|contradiction].
    exists d'. split; [reflexivity|].
    destruct (in_dec string_dec y (map fst (queue st))) as [Hin|Hout].
    + apply in_map_iff in Hin as ([y' d''] & E & Hin). cbn in E. subst y'.
      destruct (ex_queue _ _ _ _ _ _ H y d'' Hin) as [Ed' Hr].
      assert (d'' = d') by congruence. lia.
    + pose proof (ex_left _ _ _ _ _ _ H y d' Ed Hout). lia.
  - assert (Hnone : depth_of y = None).
    { destruct (depth_of y) eqn:E; [|reflexivity].
      exfalso. apply Hnew. apply (ex_visited _ _ _ _ _ _ H). congruence. }
    set (depth_of' := fun x => if String.eqb x y then Some (cur + 1) else depth_of x).
    assert (Hkeep : forall x d, depth_of x = Some d -> depth_of' x = Some d).
    { intros x d Hx. unfold depth_of'.
      destruct (String.eqb_spec x y) as [->|_]; [congruence|exact Hx]. }
    assert (Hy' : depth_of' y = Some (cur + 1)).
    { unfold depth_of'. now rewrite String.eqb_refl. }
    assert (Hold : forall x, x <> y -> depth_of' x = depth_of x).
    { intros x Hx. unfold depth_of'. now destruct (String.eqb_spec x y). }
    exists depth_of'. split; [exact Hkeep|]. split; [|exists (cur + 1); split; [exact Hy'|lia]].
    constructor; cbn [visited connectedIds queue].
    + intros x. rewrite elem_of_union, elem_of_singleton.
      rewrite (ex_visited _ _ _ _ _ _ H). unfold depth_of'.
      destruct (String.eqb_spec x y) as [->|Hne]; [split; [congruence|auto]|].
      split; [intros [Hx|Hx]; [exact Hx|contradiction]|auto].
    + intros x Hx. destruct (String.eqb_spec x y) as [->|Hne]; [exact Hy|].
      rewrite (Hold x Hne) in Hx. now apply (ex_named _ _ _ _ _ _ H).
    + apply Hkeep, (ex_start _ _ _ _ _ _ H).
    + intros x d Hin. apply in_app_or in Hin as [Hin|[[= <- <-]|[]]].
      * destruct (ex_queue _ _ _ _ _ _ H x d Hin) as [Ed Hr]. auto.
      * split; [exact Hy'|lia].
    + apply sorted_snoc; [apply (ex_sorted _ _ _ _ _ _ H)|].
      intros x d' Hin. destruct (ex_queue _ _ _ _ _ _ H x d' Hin) as [_ Hr]. lia.
    + intros x Hx Hne. apply elem_of_union in Hx as [Hx|Hx].
      * apply set_add_keeps. now apply (ex_connected _ _ _ _ _ _ H).
      * apply elem_of_singleton in Hx. subst x. apply set_add_has.
    + intros x d Hx Hout. rewrite map_app, in_app_iff in Hout. cbn in Hout.
      assert (Hne : x <> y) by (intros ->; apply Hout; right; now left).
      rewrite (Hold x Hne) in Hx.
      apply (ex_left _ _ _ _ _ _ H x d Hx). intros Hin. apply Hout. now left.
    + intros x d z Hx Hout Hd Hadj. rewrite map_app, in_app_iff in Hout. cbn in Hout.
      assert (Hne : x <> y) by (intros ->; apply Hout; right; now left).
      rewrite (Hold x Hne) in Hx.
      destruct (ex_closed _ _ _ _ _ _ H x d z Hx) as (d' & Hz & Hle);
        [intros Hin; apply Hout; now left|exact Hd|exact Hadj|].
      exists d'. split; [now apply Hkeep|exact Hle].
Qed.

Lemma visits_explored db memoryId maxDepth cur ids :
  forall depth_of st,
    explored db memoryId maxDepth cur depth_of st ->
    (forall y, In y ids -> y <> ""%string) ->
    exists depth_of',
      (forall x d, depth_of x = Some d -> depth_of' x = Some d)
      /\ explored db memoryId maxDepth cur depth_of' (fold_left (arrive cur) ids st)
      /\ forall y, In y ids -> exists d', depth_of' y = Some d' /\ d' <= cur + 1.
Proof.
  induction ids as [|y ids IH]; intros depth_of st H Hids.
  - exists depth_of. split; [auto|]. split; [exact H|intros y []].
  - cbn [fold_left].
    destruct (arrive_explored db memoryId maxDepth cur depth_of st y H)
      as (d1 & Hk1 & H1 & dy & Hdy & Hle); [apply Hids; now left|].
    destruct (IH d1 (arrive cur st y) H1) as (d2 & Hk2 & H2 & Hall);
      [intros z Hz; apply Hids; now right|].
    exists d2. split; [auto|]. split; [exact H2|].
    intros z [<-|Hz]; [|now apply Hall].
    exists dy. split; [now apply Hk2|exact Hle].
Qed.

(** *** Taking a node from the queue *)

Lemma explored_level db memoryId maxDepth cur depth_of vis conn x d rest :
  explored db memoryId maxDepth cur depth_of
           {| visited := vis; connectedIds := conn; queue := (x, d) :: rest |} ->
  explored db memoryId maxDepth d depth_of
           {| visited := vis; connectedIds := conn; queue := (x, d) :: rest |}.
Proof.
  intros H. pose proof (ex_sorted _ _ _ _ _ _ H) as Hs. cbn [queue] in Hs.
  inversion Hs as [|? ? _ Hhead]; subst. rewrite List.Forall_forall in Hhead.
  destruct (ex_queue _ _ _ _ _ _ H x d) as [_ Hxd]; [now left|].
  constructor; try apply H.
  - intros y d' Hin. destruct (ex_queue _ _ _ _ _ _ H y d' Hin) as [Ed Hr].
    split; [exact Ed|]. destruct Hin as [[= <- <-]|Hin]; [lia|].
    specialize (Hhead (y, d') Hin). cbn in Hhead. lia.
  - intros y d' Hy Hout. pose proof (ex_left _ _ _ _ _ _ H y d' Hy Hout). lia.
Qed.

Lemma explored_pop db memoryId maxDepth depth_of vis conn x d rest :
  explored db memoryId maxDepth d depth_of
           {| visited := vis; connectedIds := conn; queue := (x, d) :: rest |} ->
  (d < maxDepth -> forall y, adjacent db x y ->
                             exists d', depth_of y = Some d' /\ d' <= d + 1) ->
  explored db memoryId maxDepth d depth_of
           {| visited := vis; connectedIds := conn; queue := rest |}.
Proof.
  intros H Hclosed. pose proof (ex_sorted _ _ _ _ _ _ H) as Hs. cbn [queue] in Hs.
  inversion Hs as [|? ? Hrest _]; subst.
  destruct (ex_queue _ _ _ _ _ _ H x d) as [Hx _]; [now left|].
  constructor; cbn [visited connectedIds queue]; try apply H.
  - intros y d' Hin. apply (ex_queue _ _ _ _ _ _ H). now right.
  - exact Hrest.
  - intros y d' Hy Hout. destruct (string_dec y x) as [->|Hne].
    + assert (d' = d) by congruence. lia.
    + apply (ex_left _ _ _ _ _ _ H y d' Hy). cbn. intros [E|Hin]; [now symmetry in E|auto].
  - intros y d' z Hy Hout Hd Hadj. destruct (string_dec y x) as [->|Hne].
    + assert (d' = d) by congruence. subst d'. now apply Hclosed.
    + apply (ex_closed _ _ _ _ _ _ H y d' z Hy); [|exact Hd|exact Hadj].
      cbn. intros [E|Hin]; [now symmetry in E|auto].
Qed.

(** *** The whole loop *)

(** When the queue is empty, every node a walk of at most [maxDepth]
    relationships reaches has been visited. *)
Lemma explored_walk db memoryId maxDepth cur depth_of vis conn n x :
  explored db memoryId maxDepth cur depth_of
           {| visited := vis; connectedIds := conn; queue := [] |} ->
  walk db memoryId n x -> Z.of_nat n <= maxDepth ->
  exists d, depth_of x = Some d /\ d <= Z.of_nat n.
Proof.
  intros H Hw. induction Hw as [|n y z Hw IH Hadj]; intros Hn.
  - exists 0. split; [apply (ex_start _ _ _ _ _ _ H)|lia].
  - destruct IH as (d & Hy & Hd); [lia|].
    destruct (ex_closed _ _ _ _ _ _ H y d z Hy) as (d' & Hz & Hle);
      [intros []|lia|exact Hadj|].
    exists d'. split; [exact Hz|lia].
Qed.

Lemma traverse_explored db memoryId maxDepth fuel :
  (forall r, In r (relationships db) ->
             RelationshipRow.from_memory_id r <> ""%string
             /\ RelationshipRow.to_memory_id r <> ""%string) ->
  (forall id rels y, id <> ""%string -> getRelationships (only_memory id) db = Ok rels ->
                     adjacent db id y -> In y (map (other_end id) rels)) ->
  forall cur depth_of st ids,
    explored db memoryId maxDepth cur depth_of st ->
    traverse db maxDepth fuel st = Some (Ok ids) ->
    forall n x, Z.of_nat n <= maxDepth -> walk db memoryId n x -> x <> memoryId ->
                In x ids.
Proof.
  intros Hnamed Hall. induction fuel as [|fuel IH]; intros cur depth_of st ids Hst;
    destruct st as [vis conn [|[id depth] rest]];
    cbn [traverse queue connectedIds visited]; try discriminate.
  1, 2: intros [= <-] n x Hn Hw Hne;
    destruct (explored_walk _ _ _ _ _ _ _ _ _ Hst Hw Hn) as (d & Hx & _);
    apply (ex_connected _ _ _ _ _ _ Hst); [|exact Hne];
    apply (ex_visited _ _ _ _ _ _ Hst); cbn; congruence.
  apply explored_level in Hst.
  destruct (Z.leb_spec maxDepth depth) as [Hge|Hlt].
  - apply (IH depth depth_of).
    apply (explored_pop _ _ _ _ _ _ id depth); [exact Hst|intros; lia].
  - destruct (getRelationships (only_memory id) db) as [rels|e] eqn:Hget; [|discriminate].
    rewrite fold_visit_arrive.
    assert (Hid : id <> ""%string).
    { apply (ex_named _ _ _ _ _ _ Hst).
      destruct (ex_queue _ _ _ _ _ _ Hst id depth) as [E _]; [now left|]. congruence. }
    destruct (visits_explored db memoryId maxDepth depth (map (other_end id) rels)
                depth_of _ Hst) as (depth_of' & Hkeep & Hst' & Hids).
    { intros y Hy. apply in_map_iff in Hy as (rel & <- & Hrel).
      destruct (expansion_adjacent db id rels rel Hid Hget Hrel) as (row & Hrow & Hl).
      destruct (Hnamed row Hrow) as [Hf Ht].
      destruct Hl as [[_ <-]|[<- _]]; assumption. }
    rewrite fold_arrive_head in Hst'.
    apply (IH depth depth_of').
    match goal with
    | |- explored _ _ _ _ _ ?s => destruct s as [vis' conn' q'] eqn:Es
    end.
    cbn [visited connectedIds queue] in Hst'.
    apply (explored_pop _ _ _ _ _ _ id depth); [exact Hst'|].
    intros _ y Hadj. apply Hids. eapply Hall; eauto.
Qed.

(** With at most 100 relationships, none of negative strength, the
    relationships found for a named node cover all its neighbours. *)
Lemma expansion_complete db id rels y :
  (length (relationships db) <= 100)%nat ->
  Forall (fun r => (0 <= RelationshipRow.strength r)%Q) (relationships db) ->
  id <> ""%string -> getRelationships (only_memory id) db = Ok rels ->
  adjacent db id y -> In y (map (other_end id) rels).
Proof.
  intros Hlen Hpos Hid Hget (row & Hrow & Hl).
  apply getRelationships_rows in Hget.
  assert (Hw : where_clause (only_memory id) row = true).
  { rewrite (RelationshipFacts.where_only_memory id row Hid).
    rewrite List.Forall_forall in Hpos. apply andb_true_intro. split.
    - apply Qle_bool_iff. now apply Hpos.
    - rewrite (touches_links row id y id Hl), String.eqb_refl. reflexivity. }
  assert (Hin : In row (relationship_rows (only_memory id) db)).
  { unfold relationship_rows. cbn [only_memory RelationshipQuery.limit default].
    rewrite select_all.
    - apply ORDER_BY_In, filter_In. now split.
    - right. pose proof (filter_length_le (where_clause (only_memory id))
                           (relationships db)). lia. }
  destruct (Forall2_In_l _ _ _ _ Hget Hin) as (rel & Hrel & Hto).
  apply in_map_iff. exists rel. split; [|exact Hrel].
  rewrite (toRelationship_far_end id row rel Hto).
  unfold far_end. destruct Hl as [[Hf Ht]|[Hf Ht]].
  - now rewrite Hf, String.eqb_refl.
  - rewrite Hf. destruct (String.eqb_spec y id) as [E|_]; congruence.
Qed.

Lemma start_explored db memoryId maxDepth :
  memoryId <> ""%string ->
  explored db memoryId maxDepth 0
           (fun x => if String.eqb x memoryId then Some 0 else None) (start memoryId).
Proof.
  intros Hid. constructor; cbn [start visited connectedIds queue].
  - intros x. rewrite elem_of_singleton.
    destruct (String.eqb_spec x memoryId); split; congruence.
  - intros x. destruct (String.eqb_spec x memoryId); congruence.
  - now rewrite String.eqb_refl.
  - intros x d [[= <- <-]|[]]. rewrite String.eqb_refl. split; [reflexivity|lia].
  - repeat constructor.
  - intros x Hx Hne. apply elem_of_singleton in Hx. contradiction.
  - intros x d Hx Hout. destruct (String.eqb_spec x memoryId) as [->|]; [|discriminate].
    exfalso. apply Hout. now left.
  - intros x d y Hx Hout. destruct (String.eqb_spec x memoryId) as [->|]; [|discriminate].
    exfalso. apply Hout. now left.
Qed.

(** X19. [getConnectedMemories] misses nothing within its depth, on a graph
    its expansion step can see in full: in a database that only the
    service has written, holding at most 100 relationships, none of
    negative strength, and for a start id that is not empty, every memory
    other than the start that a walk of at least one and at most
    [maxDepth] (2 by default) relationships reaches from the start, each
    walked in either direction, is returned. *)
Theorem connected_are_complete memoryId maxDepth db ms n x :
  reachable db -> memoryId <> ""%string ->
  (length (relationships db) <= 100)%nat ->
  Forall (fun r => (0 <= RelationshipRow.strength r)%Q) (relationships db) ->
  getConnectedMemories memoryId maxDepth db = Ok ms ->
  (1 <= n)%nat -> Z.of_nat n <= default 2 maxDepth ->
  walk db memoryId n x -> x <> memoryId ->
  exists m, In m ms /\ Memory.id m = x.
Proof.
  intros Hreach Hid Hlen Hpos Hget Hn Hdepth Hw Hne.
  destruct (connected_ids _ _ _ _ Hget) as (ids & found & Ht & Hfound & ->).
  assert (Hin : In x ids).
  { eapply (traverse_explored db memoryId (default 2 maxDepth) (loop_bound db));
      [| |apply (start_explored db memoryId _ Hid)|exact Ht|exact Hdepth|exact Hw|exact Hne].
    - intros r. now apply reachable_named.
    - intros id rels y. now apply expansion_complete. }
  destruct (Forall2_In_l _ _ _ _ Hfound Hin) as (o & Ho & Hgm).
  assert (Hstored : has_memory db x = true).
  { destruct Hw as [|n' y z _ (row & Hrow & Hl)]; [lia|].
    destruct (endpoints_stored db (reachable_consistent db Hreach) row Hrow) as [Hf Hto].
    destruct Hl as [[_ <-]|[<- _]]; assumption. }
  destruct o as [m|].
  - exists m. split; [now apply non_null_In|now apply (getMemory_id db x m)].
  - exfalso. unfold getMemory in Hgm.
    destruct (List.find _ _) as [r|] eqn:Hfind.
    + destruct (toMemory r); discriminate.
    + apply MemoryFacts.find_none_has_memory in Hfind. congruence.
Qed.

Lemma connected_are_complete_witness :
  exists m, In m [sample "m2" "B"; sample "m3" "C"] /\ Memory.id m = "m3"%string.
Proof.
  apply (connected_are_complete "m1" None (db_chain None)
           [sample "m2" "B"; sample "m3" "C"] 2 "m3").
  - apply db_chain_reachable.
  - discriminate.
  - vm_compute. lia.
  - vm_compute. repeat (constructor; [discriminate|]). constructor.
  - vm_compute. reflexivity.
  - lia.
  - cbn. lia.
  - apply (walk_step _ _ 1 "m2" "m3").
    + apply (walk_step _ _ 0 "m1" "m2"); [constructor|].
      exists (chain_row "r1" "m1" "m2" 1). split; [vm_compute; left; reflexivity|].
      left. split; reflexivity.
    + exists (chain_row "r2" "m3" "m2" (1 # 2)). split;
        [vm_compute; right; left; reflexivity|].
      right. split; reflexivity.
  - discriminate.
Defined.

End CompleteFacts.

(** ** Starting the embedding provider *)

Module OllamaFacts.
Import Ollama.

Lemma poll_spec a retries :
  forall request,
    let '(remain, next) := poll a request retries in
    (remain = 0%nat /\ next = (request + retries)%nat
     /\ forall j, (request <= j < request + retries)%nat -> a j = false)
    \/ ((0 < remain <= retries)%nat /\ next = S (request + (retries - remain))
        /\ a (request + (retries - remain))%nat = true
        /\ forall j, (request <= j < request + (retries - remain))%nat -> a j = false).
Proof.
  induction retries as [|retries IH]; intros request; cbn [poll].
  - left. split; [reflexivity|]. split; [lia|]. intros j Hj. lia.
  - destruct (a request) eqn:Ea.
    + right. replace (S retries - S retries)%nat with 0%nat by lia.
      rewrite Nat.add_0_r. split; [lia|]. split; [reflexivity|].
      split; [exact Ea|]. intros j Hj. lia.
    + specialize (IH (S request)).
      destruct (poll a (S request) retries) as [remain next].
      destruct IH as [(-> & -> & Hall)|(Hremain & -> & Hk & Hall)].
      * left. split; [reflexivity|]. split; [lia|]. intros j Hj.
        destruct (Nat.eq_dec j request) as [->|]; [exact Ea|apply Hall; lia].
      * right. replace (request + (S retries - remain))%nat
          with (S request + (retries - remain))%nat by lia.
        split; [lia|]. split; [reflexivity|]. split; [exact Hk|]. intros j Hj.
        destruct (Nat.eq_dec j request) as [->|]; [exact Ea|apply Hall; lia].
Qed.

(** X20. [ensureOllamaRunning] resolves exactly when the first request to
    [/api/version] is answered, or the program is installed and one of
    the 30 requests sent after starting it is answered. *)
Theorem ensureOllamaRunning_resolves w :
  result (ensureOllamaRunning w) = None
  <-> answered w 0 = true
      \/ (installed w = true
          /\ exists k, (1 <= k <= 30)%nat /\ answered w k = true).
Proof.
  unfold ensureOllamaRunning. destruct (answered w 0) eqn:E0; [cbn; tauto|].
  destruct (installed w); cbn [negb].
  - pose proof (poll_spec (answered w) 30 1) as H.
    destruct (poll (answered w) 1 30) as [remain next].
    destruct H as [(-> & -> & Hall)|(Hremain & -> & Hk & Hall)].
    + cbn. split; [discriminate|].
      intros [H|(_ & k & Hk & Ek)]; [discriminate|].
      rewrite Hall in Ek by lia. discriminate.
    + destruct (Nat.eqb_spec remain 0) as [->|_]; [lia|]. cbn [result].
      split; [intros _|reflexivity]. right. split; [reflexivity|].
      exists (1 + (30 - remain))%nat. split; [lia|exact Hk].
  - cbn. split; [discriminate|]. intros [H|(H & _)]; discriminate.
Qed.

(** X21. What a run of [ensureOllamaRunning] costs and how it fails.  If the
    server answers at once, nothing is started and nothing is waited for.
    If it does not and the program is not installed, the call rejects
    with the message of [startOllama], unchanged, without waiting.  If the
    program is installed and request number [k] (1 to 30) is the first
    that is answered, the call resolves after [k + 1] requests and
    2000 + 1000 (k - 1) milliseconds of waiting.  If none of the 30 is
    answered, the call rejects after 31 requests and 32000 milliseconds,
    with the 30-seconds message wrapped in the outer one. *)
Theorem ensureOllamaRunning_run w :
  (answered w 0 = true ->
   ensureOllamaRunning w
   = {| result := None; requests := 1; waited := 0; spawned := false |})
  /\ (answered w 0 = false -> installed w = false ->
      ensureOllamaRunning w
      = {| result := Some (Thrown not_installed_message);
           requests := 1; waited := 0; spawned := false |})
  /\ (forall k, answered w 0 = false -> installed w = true ->
                (1 <= k <= 30)%nat -> answered w k = true ->
                (forall j, (1 <= j < k)%nat -> answered w j = false) ->
                ensureOllamaRunning w
                = {| result := None; requests := S k;
                     waited := 2000 + 1000 * (Z.of_nat k - 1); spawned := true |})
  /\ (answered w 0 = false -> installed w = true ->
      (forall j, (1 <= j <= 30)%nat -> answered w j = false) ->
      ensureOllamaRunning w
      = {| result :=
             Some (Thrown ("Failed to ensure Ollama is running: Error: "
                           ++ timeout_message ++ newline
                           ++ "Please try starting Ollama manually: 'ollama serve'"));
           requests := 31; waited := 32000; spawned := true |}).
Proof.
  unfold ensureOllamaRunning. split; [|split; [|split]].
  - now intros ->.
  - now intros -> ->.
  - intros k -> -> Hk Ek Hbefore. cbn [negb].
    pose proof (poll_spec (answered w) 30 1) as H.
    destruct (poll (answered w) 1 30) as [remain next].
    destruct H as [(-> & -> & Hall)|(Hremain & -> & Hfirst & Hall)].
    + rewrite Hall in Ek by lia. discriminate.
    + assert (k = 1 + (30 - remain))%nat.
      { destruct (Nat.lt_trichotomy k (1 + (30 - remain))) as [Hlt|[E|Hgt]];
          [|exact E|].
        - rewrite Hall in Ek by lia. discriminate.
        - rewrite Hbefore in Hfirst by lia. discriminate. }
      subst k. destruct (Nat.eqb_spec remain 0) as [->|_]; [lia|].
      f_equal. lia.
  - intros -> -> Hnone. cbn [negb].
    pose proof (poll_spec (answered w) 30 1) as H.
    destruct (poll (answered w) 1 30) as [remain next].
    destruct H as [(-> & -> & Hall)|(Hremain & -> & Hfirst & Hall)].
    + reflexivity.
    + rewrite Hnone in Hfirst by lia. discriminate.
Qed.

Lemma ensureOllamaRunning_run_witness :
  ensureOllamaRunning (up_after 5)
  = {| result := None; requests := 6; waited := 2000 + 1000 * (Z.of_nat 5 - 1);
       spawned := true |}.
Proof.
  apply (proj1 (proj2 (proj2 (ensureOllamaRunning_run (up_after 5)))) 5%nat).
  - reflexivity.
  - reflexivity.
  - lia.
  - reflexivity.
  - intros j Hj. unfold up_after. cbn [answered]. apply Nat.leb_gt. lia.
Defined.

Example ollama_comes_up :
  ensureOllamaRunning (up_after 5)
  = {| result := None; requests := 6; waited := 6000; spawned := true |}.
Proof. vm_compute. reflexivity. Qed.

End OllamaFacts.

(** ** Operations composed *)

Module ComposeFacts.
Import Examples SQL SQLFacts InvariantFacts ReadableFacts LifecycleFacts.
Import SearchMoreFacts TraversalFacts ConnectedFacts.

(** Every memory a search returns is read from a stored row. *)
Lemma search_stored env query options db ms m :
  searchMemories env query options db = Ok ms -> In m ms ->
  exists row, In row (memories db) /\ toMemory row = Ok m.
Proof.
  intros Hs Hm. unfold searchMemories in Hs.
  destruct (vector_search _ _ _ _ _) as [ms'|e] eqn:Hvec.
  - injection Hs as <-. unfold vector_search in Hvec.
    destruct (generateEmbedding env query) as [q|]; [|discriminate].
    cbn [bind] in Hvec.
    destruct (vector_rows _ _ _ _ _) as [rows|] eqn:Hrows; [|discriminate].
    cbn [bind] in Hvec. apply mapM_Ok in Hvec.
    destruct (Forall2_In_r _ _ _ _ Hvec Hm) as (row & Hin & Hrow).
    apply in_map_iff in Hin as ([row' d] & <- & Hin). cbn [fst] in Hrow.
    exists row'. split; [|exact Hrow]. eapply SearchFacts.vector_rows_stored; eauto.
  - unfold text_search in Hs. apply mapM_Ok in Hs.
    destruct (Forall2_In_r _ _ _ _ Hs Hm) as (row & Hin & Hrow).
    apply (select_sound newer) in Hin as [Hin _]. eauto.
Qed.

(** X22. A deleted memory is not returned again: after [deleteMemory(id)],
    no search, by vectors or by text, and no [getConnectedMemories]
    returns a memory with that id, whether or not its embedding or a
    relationship naming it was left behind. *)
Theorem deleted_memory_is_gone id db :
  let db' := snd (deleteMemory id db) in
  (forall env query options ms m,
      searchMemories env query options db' = Ok ms -> In m ms -> Memory.id m <> id)
  /\ (forall memoryId maxDepth ms m,
         getConnectedMemories memoryId maxDepth db' = Ok ms -> In m ms ->
         Memory.id m <> id).
Proof.
  cbv zeta.
  assert (Hrows : forall row, In row (memories (snd (deleteMemory id db))) ->
                              MemoryRow.id row <> id).
  { unfold deleteMemory. cbn [delete_memory_row snd].
    match goal with
    | |- context [swallow (delete_embedding ?i ?d) ?d] =>
        destruct (delete_embedding_shape i d) as (Em & _)
    end.
    rewrite Em. cbn [memories]. intros row Hin.
    apply filter_In in Hin as [_ Hn]. now apply negb_true_iff, String.eqb_neq in Hn. }
  split.
  - intros env query options ms m Hs Hm.
    destruct (search_stored _ _ _ _ _ _ Hs Hm) as (row & Hrow & Hto).
    rewrite (toMemory_id row m Hto). now apply Hrows.
  - intros memoryId maxDepth ms m Hget Hm.
    destruct (connected_ids _ _ _ _ Hget) as (ids & found & _ & Hfound & ->).
    apply non_null_In in Hm.
    destruct (Forall2_In_r _ _ _ _ Hfound Hm) as (x & _ & Hgm).
    unfold getMemory in Hgm.
    destruct (List.find _ _) as [row|] eqn:Hfind; [|discriminate].
    apply find_some in Hfind as [Hrow _].
    destruct (toMemory row) as [m'|] eqn:Hto; cbn in Hgm; [|discriminate].
    injection Hgm as <-. rewrite (toMemory_id row m' Hto). now apply Hrows.
Qed.




End ComposeFacts.
